(** * Quadrillion solver: shapes, backtracking search and the puzzle adapter

    A shallow embedding of [dots_set.py], [csp.py], [quadrillion.py] and
    [quadrillion_csp.py].  Python sets and frozensets are [gset]s, dicts are
    [gmap]s, integers are [Z].  A loop over a set or a dict visits the
    members in the order of [elements] / [map_to_list]; Python leaves that
    order unspecified, and no general proof below looks inside it. *)

From stdpp Require Import gmap sets list fin_sets fin_maps strings.

Open Scope Z_scope.

(** ** Exceptions and results *)

Inductive exn : Type :=
  | TypeError
  | ValueError
  | KeyError
  | RecursionError
  | StateException (msg : string)
  | NoItemException
  | IllegalReleaseException
  | IllegalPickException
  | InitialConfigurationsException
  | NoSolutionException
  | QuadrillionException (msg : string).

Inductive result (A : Type) : Type :=
  | Ok (x : A)
  | Raise (e : exn).
Arguments Ok {A} x.
Arguments Raise {A} e.

Global Instance result_ret : MRet result := λ A x, Ok x.
Global Instance result_bind : MBind result := λ A B k r,
  match r with
  | Ok x => k x
  | Raise e => Raise e
  end.

(** ** dots_set.py *)

(** A dot is a pair [(y, x)]. *)
Notation Dot := (Z * Z)%type.

(** [Config = namedtuple('Config', ['flips', 'rotations', 'location'])] *)
Record Config : Type := mkConfig {
  flips : Z;
  rotations : Z;
  location : Dot
}.

Global Instance Config_eq_dec : EqDecision Config.
Proof. solve_decision. Defined.

Global Instance Config_countable : Countable Config.
Proof.
  refine (inj_countable'
    (λ c, (flips c, rotations c, location c))
    (λ t, mkConfig t.1.1 t.1.2 t.2) _).
  by intros [].
Defined.

(** [config._replace(location=location)] *)
Definition replace_location (loc : Dot) (c : Config) : Config :=
  mkConfig (flips c) (rotations c) loc.

(** [min(...)] and [max(...)] of a generator: [None] stands for the
    [ValueError] Python raises on an empty sequence. *)
Definition min_of (l : list Z) : option Z :=
  match l with
  | [] => None
  | x :: l' => Some (foldr Z.min x l')
  end.

Definition max_of (l : list Z) : option Z :=
  match l with
  | [] => None
  | x :: l' => Some (foldr Z.max x l')
  end.

Definition ys (dots : gset Dot) : list Z := fst <$> elements dots.
Definition xs (dots : gset Dot) : list Z := snd <$> elements dots.

Module DotsSet.

(** A [DotsSet] is identified by [_initial_dots_set]: [__eq__] and
    [__hash__] consult nothing else.  [_height] and [_width] are computed
    from it once, in [__init__]. *)
Definition _are_valid_dots (dots : gset Dot) : bool :=
  bool_decide (set_Forall (λ dot : Dot, 0 ≤ dot.1 ∧ 0 ≤ dot.2) dots).

Record t : Type := mk {
  _initial_dots_set : gset Dot;
  _height : Z;
  _width : Z
}.

Global Instance t_eq_dec : EqDecision t.
Proof. solve_decision. Defined.

Global Instance t_countable : Countable t.
Proof.
  refine (inj_countable'
    (λ s, (_initial_dots_set s, _height s, _width s))
    (λ p, mk p.1.1 p.1.2 p.2) _).
  by intros [].
Defined.

(** [__init__], up to the placement, which the board stores. *)
Definition init (dots : gset Dot) : result t :=
  if _are_valid_dots dots then
    match max_of (ys dots), max_of (xs dots) with
    | Some my, Some mx => Ok (mk dots (my + 1) (mx + 1))
    | _, _ => Raise ValueError
    end
  else Raise TypeError.

Section transforms.
(** The reflections only use the bounding box [_height] x [_width]. *)
Variables (height width : Z).

Definition _moved (dots : gset Dot) (displacement : Dot) : gset Dot :=
  let '(dy, dx) := displacement in
  set_map (λ d : Dot, (d.1 + dy, d.2 + dx)) dots.

Definition _flipped_vertically (dots : gset Dot) : gset Dot :=
  set_map (λ d : Dot, (height - 1 - d.1, d.2)) dots.

Definition _rotated_90_degrees_clockwise (dots : gset Dot) : gset Dot :=
  set_map (λ d : Dot, (d.2, height - 1 - d.1)) dots.

Definition _rotated_180_degrees (dots : gset Dot) : gset Dot :=
  set_map (λ d : Dot, (height - 1 - d.1, width - 1 - d.2)) dots.

Definition _rotated_90_degrees_counterclockwise (dots : gset Dot) : gset Dot :=
  set_map (λ d : Dot, (width - 1 - d.2, d.1)) dots.

Definition _rotated_clockwise (dots : gset Dot) (times : Z) : gset Dot :=
  if decide (times mod 4 = 0) then dots
  else if decide (times mod 4 = 1) then _rotated_90_degrees_clockwise dots
  else if decide (times mod 4 = 2) then _rotated_180_degrees dots
  else _rotated_90_degrees_counterclockwise dots.
End transforms.

Definition _initial_dots_flipped (s : t) (times : Z) : gset Dot :=
  if decide (times mod 2 = 0) then _initial_dots_set s
  else _flipped_vertically (_height s) (_initial_dots_set s).

Definition configured (s : t) (config : Config) : gset Dot :=
  let flipped_dots := _initial_dots_flipped s (flips config) in
  let rotated_dots :=
    _rotated_clockwise (_height s) (_width s) flipped_dots (rotations config) in
  _moved rotated_dots (location config).

(** The eight flip/rotation pairs, in the order of the two [range] loops. *)
Definition all_orientations : list Config :=
  f ← [0; 1]; r ← [0; 1; 2; 3]; [mkConfig f r (0, 0)].

(** One turn of the inner loop of [get_unique_configs_at]: the state is
    [(dots_sets, unique_configs)]. *)
Definition unique_step (s : t) (acc : list (gset Dot) * gset Config)
    (config : Config) : list (gset Dot) * gset Config :=
  let dots_set := configured s config in
  if decide (dots_set ∈ acc.1) then acc
  else (acc.1 ++ [dots_set], {[config]} ∪ acc.2).

(** The memoised attribute [unique_configs]; it depends on the identity
    only, so computing it again gives the cached value. *)
Definition unique_configs (s : t) : gset Config :=
  (foldl (unique_step s) ([], ∅) all_orientations).2.

Definition get_unique_configs_at (s : t) (loc : Dot) : gset Config :=
  set_map (replace_location loc) (unique_configs s).

(** The [config] setter: normalises and recomputes [_dots_set]. *)
Definition normalized (config : Config) : Config :=
  mkConfig (flips config mod 2) (rotations config mod 4) (location config).

(** A shape object: identity plus the mutable placement.  [_dots_set] is
    always [configured] of the current [_config]. *)
Record obj : Type := mkObj {
  shape : t;
  _config : Config;
  _dots_set : gset Dot
}.

Definition set_config (o : obj) (config : Config) : obj :=
  let c := normalized config in
  mkObj (shape o) c (configured (shape o) c).

Definition set_dots (o : obj) (dots : gset Dot) : result obj :=
  match min_of (ys dots), min_of (xs dots) with
  | Some y, Some x =>
      let candidates := elements (get_unique_configs_at (shape o) (y, x)) in
      match find (λ config, bool_decide (configured (shape o) config = dots))
                 candidates with
      | Some config => Ok (set_config o config)
      | None => Raise ValueError
      end
  | _, _ => Raise ValueError
  end.

(** [flip], [rotate] and [move]: each goes through the [config] setter. *)
Definition flip (o : obj) : obj :=
  set_config o
    (mkConfig (flips (_config o) + 1) (- rotations (_config o))
              (location (_config o))).

Definition rotate (o : obj) (clockwise : bool) : obj :=
  let clockwise_rotations := if clockwise then 1 else -1 in
  set_config o
    (mkConfig (flips (_config o)) (rotations (_config o) + clockwise_rotations)
              (location (_config o))).

Definition move (o : obj) (displacement : Dot) : obj :=
  let '(dy, dx) := displacement in
  let '(y, x) := location (_config o) in
  set_config o
    (mkConfig (flips (_config o)) (rotations (_config o)) (y + dy, x + dx)).

End DotsSet.

(** [DotsGrid(DotsSet)]: a two-sided tile.  Its identity is the pair of
    closed-dot patterns; [configured] is overridden to yield every dot of the
    tile, and the inherited transform acts on the closed dots of the side
    that faces up. *)
Module DotsGrid.

Record t : Type := mk {
  _initial_closed_black_dots : gset Dot;
  _initial_closed_white_dots : gset Dot;
  _height : Z;
  _width : Z
}.

Global Instance t_eq_dec : EqDecision t.
Proof. solve_decision. Defined.

Global Instance t_countable : Countable t.
Proof.
  refine (inj_countable'
    (λ g, (_initial_closed_black_dots g, _initial_closed_white_dots g,
           _height g, _width g))
    (λ p, mk p.1.1.1 p.1.1.2 p.1.2 p.2) _).
  by intros [].
Defined.

(** [range(a, b)] *)
Definition range (a b : Z) : list Z := (λ i : nat, a + Z.of_nat i) <$> seq 0 (Z.to_nat (b - a)).

Definition _get_all_dots_at (g : t) (config : Config) : gset Dot :=
  let '(y0, x0) := location config in
  list_to_set (y ← range y0 (y0 + _height g);
               x ← range x0 (x0 + _width g); [(y, x)]).

Definition configured := _get_all_dots_at.

Definition _initial_dots_flipped (g : t) (times : Z) : gset Dot :=
  if decide (times mod 2 = 0) then _initial_closed_black_dots g
  else _initial_closed_white_dots g.

(** [super().configured(config)] *)
Definition _get_closed_dots_at (g : t) (config : Config) : gset Dot :=
  let flipped_dots := _initial_dots_flipped g (flips config) in
  let rotated_dots :=
    DotsSet._rotated_clockwise (_height g) (_width g) flipped_dots
                               (rotations config) in
  DotsSet._moved rotated_dots (location config).

Definition _get_open_dots_at (g : t) (config : Config) : gset Dot :=
  _get_all_dots_at g config ∖ _get_closed_dots_at g config.

(** [DotsGrid._are_valid_dots] and [__init__], up to the placement. *)
Definition _are_valid_dots (dots : gset Dot) (height width : Z) : bool :=
  DotsSet._are_valid_dots dots
  && bool_decide (set_Forall (λ dot : Dot, dot.1 < height ∧ dot.2 < width) dots).

Definition init (closed_black_dots closed_white_dots : gset Dot)
    (height width : Z) : result t :=
  if _are_valid_dots (closed_black_dots ∪ closed_white_dots) height width
  then Ok (mk closed_black_dots closed_white_dots height width)
  else Raise TypeError.

End DotsGrid.

(** [connected_dots_sets]: the sets of dots connected horizontally and
    vertically, in the order the generator yields them. *)

(** [list.pop()]: the last element and what is left; [None] on []. *)
Fixpoint pop {A} (l : list A) : option (list A * A) :=
  match l with
  | [] => None
  | [x] => Some ([], x)
  | x :: l' => prod_map (cons x) id <$> pop l'
  end.

Definition neighbours (dot : Dot) : gset Dot :=
  let '(y, x) := dot in {[ (y + 1, x); (y - 1, x); (y, x + 1); (y, x - 1) ]}.

(** The [while dots_queue] loop.  Every turn pops one dot and every dot is
    queued at most once, so [size dots_set + 2] turns are enough
    ([connected_loop_fuel] below); [None] is a loop cut short. *)
Fixpoint connected_loop (fuel : nat) (dots_set connected_dots : gset Dot)
    (dots_queue : list Dot) : option (gset Dot) :=
  match fuel with
  | O => None
  | S fuel' =>
      match pop dots_queue with
      | None => Some connected_dots
      | Some (rest, dot) =>
          let successors := dots_set ∩ (neighbours dot ∖ connected_dots) in
          (* each successor is added, then put at the front of the queue *)
          connected_loop fuel' dots_set (connected_dots ∪ successors)
            (foldl (λ q d, d :: q) rest (elements successors))
      end
  end.

Definition connected_dots_set_at (dots_set : gset Dot) (dot : Dot) : gset Dot :=
  default {[dot]}
    (connected_loop (size dots_set + 2)%nat dots_set {[dot]} [dot]).

(** One turn of [for dot in dots_set]: the state is [(seen_dots, yielded)]. *)
Definition connected_step (dots_set : gset Dot)
    (acc : gset Dot * list (gset Dot)) (dot : Dot) : gset Dot * list (gset Dot) :=
  if decide (dot ∈ acc.1) then acc
  else
    let connected_dots := connected_dots_set_at dots_set dot in
    (acc.1 ∪ connected_dots, acc.2 ++ [connected_dots]).

Definition connected_dots_sets (dots_set : gset Dot) : list (gset Dot) :=
  (foldl (connected_step dots_set) (∅, []) (elements dots_set)).2.

(** ** csp.py *)

(** The abstract class [CSP].  [St] is the state of the object that
    implements it: [register_current_assignments] may update that state and
    the [assignments] dictionary it is handed. *)
Class CSP (V D St : Type) `{Countable V, Countable D} : Type := {
  variables : St → gset V;
  domains : St → gmap V (gset D);
  register_current_assignments :
    St → gmap V D → gmap V (gset D) → bool * gmap V D * St;
  is_consistent_assignment : St → V * D → bool
}.

(** What a call leaves behind: a result, an exception, or a recursion cut
    off by the bound on its depth. *)
Inductive outcome (A : Type) : Type :=
  | Return (x : A)
  | Raised (e : exn)
  | OutOfFuel.
Arguments Return {A} x.
Arguments Raised {A} e.
Arguments OutOfFuel {A}.

(** [min(iterable, key=key)]: the first member with the least key. *)
Definition min_by {A} (key : A → nat) (l : list A) : option A :=
  match l with
  | [] => None
  | x :: l' =>
      Some (foldl (λ best y, if (key y <? key best)%nat then y else best) x l')
  end.

Module CSPSolver.
Section solver.
Context {V D St : Type} `{Countable V, Countable D} `{!CSP V D St}.

(** [back_tracking_search] returns either the dictionary [assignments]
    itself (not a copy) or [None]; [found] tells which.  The dictionary and
    the state of the problem are given back in both cases. *)
Record search : Type := mkSearch {
  found : bool;
  dict_of : gmap V D;
  csp_of : St
}.

Definition returned (r : search) : option (gmap V D) :=
  if found r then Some (dict_of r) else None.

(** [if solution:] -- [None] and the empty dictionary are both false. *)
Definition truthy (r : search) : bool :=
  found r && bool_decide (dict_of r ≠ ∅).

Definition select_unassigned_variable (assignments : gmap V D)
    (domains : gmap V (gset D)) : option V :=
  min_by (λ var, size (domains !!! var))
         (elements (dom domains ∖ dom assignments)).

(** The loop of [forward_check] over the unassigned variables. *)
Fixpoint filter_domains (st : St) (domains : gmap V (gset D))
    (vars : list V) (new_domains : gmap V (gset D)) : option (gmap V (gset D)) :=
  match vars with
  | [] => Some new_domains
  | var :: vars' =>
      let vals : gset D :=
        filter (λ val, is_consistent_assignment st (var, val) = true)
               (domains !!! var) in
      if decide (vals = ∅) then None
      else filter_domains st domains vars' (<[var := vals]> new_domains)
  end.

Definition forward_check (st : St) (assignments : gmap V D)
    (domains : gmap V (gset D)) : option (gmap V (gset D)) * gmap V D * St :=
  let '(ok, assignments', st') :=
    register_current_assignments st assignments domains in
  if ok then
    (filter_domains st' domains
       (elements (dom domains ∖ dom assignments')) ∅, assignments', st')
  else (None, assignments', st').

(** [for new_var in set(assignments.keys()) - old_vars: del assignments[new_var]] *)
Definition undo (old_vars : gset V) (assignments : gmap V D) : gmap V D :=
  filter (λ kv, kv.1 ∈ old_vars) assignments.

(** The loop [for val in domains[var]], with the recursive call passed in. *)
Fixpoint try_values
    (rec : St → gmap V D → option (gmap V (gset D)) → outcome search)
    (var : V) (old_vars : gset V) (domains : gmap V (gset D))
    (vals : list D) (st : St) (assignments : gmap V D) : outcome search :=
  match vals with
  | [] => Return (mkSearch false assignments st)
  | val :: vals' =>
      let '(new_domains, assignments', st') :=
        forward_check st (<[var := val]> assignments) domains in
      match rec st' assignments' new_domains with
      | Return solution =>
          if truthy solution then Return solution
          else try_values rec var old_vars domains vals' (csp_of solution)
                          (undo old_vars (dict_of solution))
      | Raised e => Raised e
      | OutOfFuel => OutOfFuel
      end
  end.

(** [nr_variables] is [len(self.variables)], fixed by [__call__]. *)
Fixpoint back_tracking_search (fuel : nat) (nr_variables : nat) (st : St)
    (assignments : gmap V D) (domains : option (gmap V (gset D)))
    : outcome search :=
  match fuel with
  | O => OutOfFuel
  | S fuel' =>
      if decide (size assignments = nr_variables) then
        Return (mkSearch true assignments st)
      else
        match domains with
        | None => Return (mkSearch false assignments st)
        | Some domains =>
            if decide (domains = ∅) then
              Return (mkSearch false assignments st)
            else
              match select_unassigned_variable assignments domains with
              | None => Raised ValueError
              | Some var =>
                  try_values (back_tracking_search fuel' nr_variables)
                    var (dom assignments) domains
                    (elements (domains !!! var)) st assignments
              end
        end
  end.

(** [__call__]; [fuel] bounds the depth of the recursion. *)
Definition call (fuel : nat) (st : St) : outcome (option (gmap V D) * St) :=
  if decide (map_Exists (λ _ vals, vals = ∅) (domains st)) then
    Return (None, st)
  else
    match back_tracking_search fuel (size (variables st)) st ∅
            (Some (domains st)) with
    | Return r => Return (returned r, csp_of r)
    | Raised e => Raised e
    | OutOfFuel => OutOfFuel
    end.
End solver.
End CSPSolver.

(** ** quadrillion.py *)

Module Quadrillion.

(** What can be picked: a shape or a grid. *)
Inductive item : Type :=
  | Shape (s : DotsSet.t)
  | Grid (g : DotsGrid.t).

Global Instance item_eq_dec : EqDecision item.
Proof. solve_decision. Defined.

Global Instance item_countable : Countable item.
Proof.
  refine (inj_countable'
    (λ i, match i with Shape s => inl s | Grid g => inr g end)
    (λ x, match x with inl s => Shape s | inr g => Grid g end) _).
  by intros [].
Defined.

(** The board.  [shapes] and [grids] are the two frozensets of objects; an
    object is found by its identity and carries its current [config], the
    one store every holder of the object sees.  [shape_picked] and
    [grid_picked] are the [_picked] sets of the two strategies. *)
Record t : Type := mk {
  dot_space_dim : Z * Z;
  grids : gmap DotsGrid.t Config;
  shapes : gmap DotsSet.t Config;
  grid_picked : gset DotsGrid.t;
  shape_picked : gset DotsSet.t;
  _is_picked : bool;
  _picked_items_momentos : list (item * Config)
}.

Definition with_shapes (q : t) (shapes' : gmap DotsSet.t Config) : t :=
  mk (dot_space_dim q) (grids q) shapes' (grid_picked q) (shape_picked q)
     (_is_picked q) (_picked_items_momentos q).

Definition with_grids (q : t) (grids' : gmap DotsGrid.t Config) : t :=
  mk (dot_space_dim q) grids' (shapes q) (grid_picked q) (shape_picked q)
     (_is_picked q) (_picked_items_momentos q).

Definition with_shape_picked (q : t) (picked : gset DotsSet.t) : t :=
  mk (dot_space_dim q) (grids q) (shapes q) (grid_picked q) picked
     (_is_picked q) (_picked_items_momentos q).

Definition with_grid_picked (q : t) (picked : gset DotsGrid.t) : t :=
  mk (dot_space_dim q) (grids q) (shapes q) picked (shape_picked q)
     (_is_picked q) (_picked_items_momentos q).

Definition with_is_picked (q : t) (b : bool) : t :=
  mk (dot_space_dim q) (grids q) (shapes q) (grid_picked q) (shape_picked q)
     b (_picked_items_momentos q).

Definition with_momentos (q : t) (ms : list (item * Config)) : t :=
  mk (dot_space_dim q) (grids q) (shapes q) (grid_picked q) (shape_picked q)
     (_is_picked q) ms.

(** The dots an object currently shows ([__iter__], [__contains__]). *)
Definition shape_dots (q : t) (s : DotsSet.t) : gset Dot :=
  from_option (DotsSet.configured s) ∅ (shapes q !! s).

Definition grid_dots (q : t) (g : DotsGrid.t) : gset Dot :=
  from_option (DotsGrid.configured g) ∅ (grids q !! g).

Definition grid_open_dots (q : t) (g : DotsGrid.t) : gset Dot :=
  from_option (DotsGrid._get_open_dots_at g) ∅ (grids q !! g).

(** *** [QuadrillionStrategy], over the items of one kind *)
Section strategy.
Context {Item : Type} `{Countable Item}.
Variables (dim : Z * Z) (dots : Item → gset Dot) (_items _picked : gset Item).

Definition released_items : gset Item := _items ∖ _picked.

Definition is_on_board (item_dots : gset Dot) : bool :=
  bool_decide (set_Forall
    (λ d : Dot, (0 ≤ d.1 ∧ d.1 < dim.1) ∧ (0 ≤ d.2 ∧ d.2 < dim.2)) item_dots).

Definition is_overlapping_released_items (item_dots : gset Dot) : bool :=
  bool_decide (set_Exists
    (λ dot, set_Exists (λ other_item, dot ∈ dots other_item) released_items)
    item_dots).

Definition _get_all_dots_list (items : gset Item) : list Dot :=
  i ← elements items; elements (dots i).

Definition _are_separated (items : gset Item) : bool :=
  let dots_list := _get_all_dots_list items in
  bool_decide (length dots_list = size (list_to_set dots_list : gset Dot)).

Definition is_release_possible : bool :=
  forallb (λ i, is_on_board (dots i)
                && negb (is_overlapping_released_items (dots i)))
          (elements _picked)
  && _are_separated _picked.

Definition released_dots : gset Dot :=
  list_to_set (_get_all_dots_list released_items).
(** [get_at] of a strategy: a released item that has the dot, if any. *)
Definition strategy_get_at (dot : Dot) : option Item :=
  find (λ i, bool_decide (dot ∈ dots i)) (elements released_items).

End strategy.

(** *** The two strategies of a board *)

Definition shapes_overlap (q : t) (item_dots : gset Dot) : bool :=
  is_overlapping_released_items (shape_dots q) (dom (shapes q))
                                (shape_picked q) item_dots.

Definition grids_overlap (q : t) (item_dots : gset Dot) : bool :=
  is_overlapping_released_items (grid_dots q) (dom (grids q))
                                (grid_picked q) item_dots.

(** [GridQuadrillionStrategy] *)
Definition released_open_dots (q : t) : gset Dot :=
  ⋃ (grid_open_dots q <$> elements (released_items (dom (grids q)) (grid_picked q))).

Definition is_on_released_open_dots (q : t) (item_dots : gset Dot) : bool :=
  bool_decide (set_Forall (λ dot, dot ∈ released_open_dots q) item_dots).

Definition grid_is_release_possible (q : t) : bool :=
  is_release_possible (dot_space_dim q) (grid_dots q) (dom (grids q)) (grid_picked q)
  && negb (existsb (λ g, shapes_overlap q (grid_dots q g))
                   (elements (grid_picked q))).

Definition grid_are_pickable (q : t) (gs : gset DotsGrid.t) : bool :=
  bool_decide (gs ⊆ grid_picked q)
  || negb (existsb (λ g, shapes_overlap q (grid_dots q g)) (elements gs)).

(** [ShapeQuadrillionStrategy] *)
Definition shape_is_release_possible (q : t) : bool :=
  is_release_possible (dot_space_dim q) (shape_dots q) (dom (shapes q)) (shape_picked q)
  && forallb (λ s, is_on_released_open_dots q (shape_dots q s)
                   || negb (grids_overlap q (shape_dots q s)))
             (elements (shape_picked q)).

Definition released_unplaced_shapes (q : t) : gset DotsSet.t :=
  filter (λ s, grids_overlap q (shape_dots q s) = false)
         (released_items (dom (shapes q)) (shape_picked q)).

(** [release] and [pick] of a strategy: the new board, or the exception. *)
Definition grid_release (q : t) : result unit * t :=
  if grid_is_release_possible q then (Ok (), with_grid_picked q ∅)
  else (Raise IllegalReleaseException, q).

Definition shape_release (q : t) : result unit * t :=
  if shape_is_release_possible q then (Ok (), with_shape_picked q ∅)
  else (Raise IllegalReleaseException, q).

Definition grid_pick (q : t) (gs : gset DotsGrid.t) : result unit * t :=
  if grid_are_pickable q gs then (Ok (), with_grid_picked q gs)
  else (Raise IllegalPickException, q).

Definition shape_pick (q : t) (ss : gset DotsSet.t) : result unit * t :=
  (Ok (), with_shape_picked q ss).

(** *** [Quadrillion] *)

Definition released_empty_grids_dots (q : t) : gset Dot :=
  released_open_dots q
  ∖ released_dots (shape_dots q) (dom (shapes q)) (shape_picked q).

Definition is_won (q : t) : bool :=
  negb (_is_picked q) && bool_decide (size (released_empty_grids_dots q) = 0%nat).

(** [self.shapes & items] and [self.grids & items] *)
Definition _separate_shapes_grids (q : t) (items : gset item)
    : gset DotsSet.t * gset DotsGrid.t :=
  (filter (λ s, Shape s ∈ items) (dom (shapes q)),
   filter (λ g, Grid g ∈ items) (dom (grids q))).

Definition config_of (q : t) (i : item) : option Config :=
  match i with
  | Shape s => shapes q !! s
  | Grid g => grids q !! g
  end.

(** [[(item, item.config) for item in items]], over the objects of the board. *)
Definition _capture_items_momentos (q : t) (items : gset item) : t :=
  with_momentos q
    (omap (λ i, pair i <$> config_of q i) (elements items)).

(** [item.config = config]: the setter normalises. *)
Definition set_item_config (q : t) (i : item) (config : Config) : t :=
  match i with
  | Shape s => with_shapes q (<[s := DotsSet.normalized config]> (shapes q))
  | Grid g => with_grids q (<[g := DotsSet.normalized config]> (grids q))
  end.

Definition _restore_items_momentos (q : t) : t :=
  foldl (λ q' m, set_item_config q' m.1 m.2) q (_picked_items_momentos q).

Definition pick (q : t) (items : gset item) : result unit * t :=
  if _is_picked q then
    (Raise (StateException "Cannot pick before releasing already picked items!"), q)
  else
    let '(ss, gs) := _separate_shapes_grids q items in
    let '(_, q1) := shape_pick q ss in
    match grid_pick q1 gs with
    | (Ok _, q2) =>
        (Ok (), with_is_picked (_capture_items_momentos q2 items) true)
    | (Raise IllegalPickException, q2) =>
        match shape_release q2 with
        | (Ok _, q3) => (Raise IllegalPickException, q3)
        | (Raise e, q3) => (Raise e, q3)
        end
    | (Raise e, q2) => (Raise e, q2)
    end.

Definition release (q : t) : result unit * t :=
  if _is_picked q then
    let picked_grids := grid_picked q in
    match grid_release q with
    | (Ok _, q1) =>
        match shape_release q1 with
        | (Ok _, q2) => (Ok (), with_is_picked q2 false)
        | (Raise IllegalReleaseException, q2) =>
            match grid_pick q2 picked_grids with
            | (Ok _, q3) => (Raise IllegalReleaseException, q3)
            | (Raise e, q3) => (Raise e, q3)
            end
        | (Raise e, q2) => (Raise e, q2)
        end
    | (Raise IllegalReleaseException, q1) =>
        match grid_pick q1 picked_grids with
        | (Ok _, q3) => (Raise IllegalReleaseException, q3)
        | (Raise e, q3) => (Raise e, q3)
        end
    | (Raise e, q1) => (Raise e, q1)
    end
  else (Raise (StateException "Cannot release while no picked items!"), q).

Definition unpick (q : t) : result unit * t :=
  if _is_picked q then
    match release (_restore_items_momentos q) with
    | (Raise IllegalReleaseException, q1) =>
        (Raise (QuadrillionException
           "Software Error: momentos were not captured at legal configurations"), q1)
    | r => r
    end
  else (Raise (StateException "Cannot unpick while no picked items!"), q).

(** [get_at]: the shapes are asked before the grids. *)
Definition get_at (q : t) (dot : Dot) : result item :=
  match strategy_get_at (shape_dots q) (dom (shapes q)) (shape_picked q) dot with
  | Some s => Ok (Shape s)
  | None =>
      match strategy_get_at (grid_dots q) (dom (grids q)) (grid_picked q) dot with
      | Some g => Ok (Grid g)
      | None => Raise NoItemException
      end
  end.

End Quadrillion.

(** ** quadrillion_csp.py *)

Module QuadrillionCSPAdapter.

Record t : Type := mk {
  quadrillion : Quadrillion.t;
  _solution : gmap DotsSet.t (gset Dot);
  _variables : gset DotsSet.t;
  _empty_grids_dots : gset Dot;
  _domains : gmap DotsSet.t (gset (gset Dot));
  _current_assignments_dots : gset Dot;
  _connected_small_sets : list (gset Dot)
}.

(** [__init__] *)
Definition init (q : Quadrillion.t) : t := mk q ∅ ∅ ∅ ∅ ∅ [].

Definition with_quadrillion (a : t) (q : Quadrillion.t) : t :=
  mk q (_solution a) (_variables a) (_empty_grids_dots a) (_domains a)
     (_current_assignments_dots a) (_connected_small_sets a).

Definition with_solution (a : t) (sol : gmap DotsSet.t (gset Dot)) : t :=
  mk (quadrillion a) sol (_variables a) (_empty_grids_dots a) (_domains a)
     (_current_assignments_dots a) (_connected_small_sets a).

Definition with_problem (a : t) (vars : gset DotsSet.t) (empty : gset Dot) : t :=
  mk (quadrillion a) (_solution a) vars empty (_domains a)
     (_current_assignments_dots a) (_connected_small_sets a).

Definition with_domains (a : t) (doms : gmap DotsSet.t (gset (gset Dot))) : t :=
  mk (quadrillion a) (_solution a) (_variables a) (_empty_grids_dots a) doms
     (_current_assignments_dots a) (_connected_small_sets a).

Definition with_current (a : t) (cur : gset Dot) : t :=
  mk (quadrillion a) (_solution a) (_variables a) (_empty_grids_dots a)
     (_domains a) cur (_connected_small_sets a).

Definition with_small_sets (a : t) (small : list (gset Dot)) : t :=
  mk (quadrillion a) (_solution a) (_variables a) (_empty_grids_dots a)
     (_domains a) (_current_assignments_dots a) small.

Definition _is_valid_nr_empty_connected_dots
    (nr_empty_dots nr_empty_connected_dots : Z) : bool :=
  (bool_decide (nr_empty_dots mod 5 = 0)
     && bool_decide (nr_empty_connected_dots mod 5 = 0))
  || (bool_decide ((nr_empty_dots - 4) mod 5 = 0)
        && bool_decide (nr_empty_connected_dots mod 5 mod 4 = 0))
  || (bool_decide ((nr_empty_dots - 3) mod 5 = 0)
        && bool_decide (nr_empty_connected_dots mod 5 mod 3 = 0))
  || (bool_decide ((nr_empty_dots - 7) mod 5 = 0)
        && (bool_decide (nr_empty_connected_dots mod 5 mod 4 mod 3 = 0)
            || (bool_decide (0 ≤ nr_empty_connected_dots - 7)
                && bool_decide ((nr_empty_connected_dots - 7) mod 5 = 0)))).

(** The loop of [_is_valid_empty_dots] over the connected sets; [small] is
    [_connected_small_sets] as filled so far. *)
Fixpoint valid_loop (nr_empty_dots : Z) (sets : list (gset Dot))
    (small : list (gset Dot)) : bool * list (gset Dot) :=
  match sets with
  | [] => (true, small)
  | connected_dots_set :: sets' =>
      if negb (_is_valid_nr_empty_connected_dots nr_empty_dots
                 (Z.of_nat (size connected_dots_set)))
      then (false, small)
      else if decide (size connected_dots_set ≤ 5)%nat
      then valid_loop nr_empty_dots sets' (small ++ [connected_dots_set])
      else valid_loop nr_empty_dots sets' small
  end.

(** The value [_is_valid_empty_dots] returns and the list it leaves in
    [_connected_small_sets]. *)
Definition valid_empty_dots (empty_dots : gset Dot) : bool * list (gset Dot) :=
  valid_loop (Z.of_nat (size empty_dots)) (connected_dots_sets empty_dots) [].

Definition _is_valid_empty_dots (a : t) (empty_dots : gset Dot) : bool * t :=
  let '(ok, small) := valid_empty_dots empty_dots in
  (ok, with_small_sets a small).

(** The inner loop of [_is_small_empty_dots_in_domain]: the first variable,
    neither assigned nor found, whose domain holds [target]. *)
Definition find_var (assignments : gmap DotsSet.t (gset Dot))
    (domains : gmap DotsSet.t (gset (gset Dot)))
    (found_assignments : gmap DotsSet.t (gset Dot)) (target : gset Dot)
    : option DotsSet.t :=
  find (λ var, bool_decide (target ∈ domains !!! var))
       (elements (dom domains ∖ dom assignments ∖ dom found_assignments)).

Definition found_step (assignments : gmap DotsSet.t (gset Dot))
    (domains : gmap DotsSet.t (gset (gset Dot)))
    (found_assignments : gmap DotsSet.t (gset Dot)) (connected_set : gset Dot)
    : gmap DotsSet.t (gset Dot) :=
  match find_var assignments domains found_assignments connected_set with
  | Some var => <[var := connected_set]> found_assignments
  | None => found_assignments
  end.

(** [for dots in m.values(): acc |= dots] *)
Definition union_values (m : gmap DotsSet.t (gset Dot)) : gset Dot :=
  ⋃ (snd <$> map_to_list m).

Definition _is_small_empty_dots_in_domain (a : t)
    (assignments : gmap DotsSet.t (gset Dot))
    (domains : gmap DotsSet.t (gset (gset Dot)))
    : bool * gmap DotsSet.t (gset Dot) * t :=
  match _connected_small_sets a with
  | [] => (true, assignments, a)
  | small_sets =>
      let found_assignments :=
        foldl (found_step assignments domains) ∅ small_sets in
      if decide (size found_assignments = length small_sets) then
        (true, found_assignments ∪ assignments,
         with_current a (_current_assignments_dots a
                         ∪ union_values found_assignments))
      else (false, assignments, a)
  end.

Definition register_current_assignments (a : t)
    (assignments : gmap DotsSet.t (gset Dot))
    (domains : gmap DotsSet.t (gset (gset Dot)))
    : bool * gmap DotsSet.t (gset Dot) * t :=
  let a1 := with_current a (union_values assignments) in
  let '(ok, a2) :=
    _is_valid_empty_dots a1
      (_empty_grids_dots a1 ∖ _current_assignments_dots a1) in
  if ok then _is_small_empty_dots_in_domain a2 assignments domains
  else (false, assignments, a2).

Definition is_consistent_assignment (a : t)
    (assignment : DotsSet.t * gset Dot) : bool :=
  let '(shape, dots) := assignment in
  bool_decide (_current_assignments_dots a ## dots).

(** [class QuadrillionCSPAdapter(CSP)] *)
Global Instance adapter_csp : CSP DotsSet.t (gset Dot) t :=
  Build_CSP DotsSet.t (gset Dot) t _ _ _ _
    _variables _domains register_current_assignments is_consistent_assignment.

Definition _is_on_empty_dots (a : t) (dots : gset Dot) : bool :=
  bool_decide (dots ⊆ _empty_grids_dots a).

(** A static method; [min] and [max] raise [ValueError] on no dots. *)
Definition _get_smallest_square_over_dots (dots : gset Dot) : result (gset Dot) :=
  match min_of (ys dots), min_of (xs dots), max_of (ys dots), max_of (xs dots) with
  | Some y, Some x, Some my, Some mx =>
      let height := my + 1 in
      let width := mx + 1 in
      Ok (list_to_set (h ← DotsGrid.range y height;
                       w ← DotsGrid.range x width; [(h, w)]))
  | _, _, _, _ => Raise ValueError
  end.

(** The set [domain] that [_extract_domains] builds for one variable. *)
Definition domain_of (a : t) (square_dots : gset Dot) (variable : DotsSet.t)
    : gset (gset Dot) :=
  list_to_set (
    loc ← elements square_dots;
    config ← elements (DotsSet.get_unique_configs_at variable loc);
    let dots := DotsSet.configured variable config in
    if _is_on_empty_dots a dots
       && (valid_empty_dots (_empty_grids_dots a ∖ dots)).1
    then [dots] else []).

(** [_extract_domains] also leaves in [_connected_small_sets] the list of
    the last set it checked; [register_current_assignments] overwrites that
    attribute before anything reads it, so it is not threaded here. *)
Definition _extract_domains (a : t) : result (gmap DotsSet.t (gset (gset Dot))) :=
  if (valid_empty_dots (_empty_grids_dots a)).1 then
    square_dots ← _get_smallest_square_over_dots (_empty_grids_dots a);
    Ok (set_to_map (λ variable, (variable, domain_of a square_dots variable))
                   (_variables a))
  else Ok ∅.

(** The loop of [_is_new_solution_needed]; [_solution[shape]] raises
    [KeyError] on a shape the cache does not know. *)
Fixpoint some_off_empty_dots (a : t) (shapes : list DotsSet.t) : result bool :=
  match shapes with
  | [] => Ok false
  | shape :: shapes' =>
      match _solution a !! shape with
      | None => Raise KeyError
      | Some dots =>
          if negb (_is_on_empty_dots a dots) then Ok true
          else some_off_empty_dots a shapes'
      end
  end.

Definition _is_new_solution_needed (a : t) : result bool :=
  if decide (_solution a ≠ ∅) then
    some_off_empty_dots a (elements (_variables a))
  else Ok true.

Definition _cash_solution (a : t) (solution : gmap DotsSet.t (gset Dot)) : t :=
  let snapshot : gmap DotsSet.t (gset Dot) :=
    set_to_map (λ shape, (shape, Quadrillion.shape_dots (quadrillion a) shape))
               (dom (Quadrillion.shapes (quadrillion a))) in
  with_solution a (solution ∪ snapshot).

Fixpoint adapt_loop (a : t) (shapes : list DotsSet.t)
    (solution : gmap DotsSet.t (gset Dot)) : result (gmap DotsSet.t (gset Dot)) :=
  match shapes with
  | [] => Ok solution
  | shape :: shapes' =>
      match _solution a !! shape with
      | None => Raise KeyError
      | Some dots => adapt_loop a shapes' (<[shape := dots]> solution)
      end
  end.

Definition _adapt_solution (a : t) : result (gmap DotsSet.t (gset Dot)) :=
  adapt_loop a (elements (_variables a)) ∅.

(** [_get_solution]; [limit] is the recursion limit of the interpreter, past
    which the search would raise [RecursionError]. *)
Definition _get_solution (limit : nat) (a : t)
    : result (gmap DotsSet.t (gset Dot)) * t :=
  if Quadrillion.is_won (quadrillion a) then
    (Raise (StateException "The game is already solved!"), a)
  else
    let a1 := with_problem a
                (Quadrillion.released_unplaced_shapes (quadrillion a))
                (Quadrillion.released_empty_grids_dots (quadrillion a)) in
    match Quadrillion.pick (quadrillion a1)
            (set_map Quadrillion.Shape (_variables a1)) with
    | (Raise (StateException _), q) =>
        (Raise (StateException "Cannot solve while items are picked."),
         with_quadrillion a1 q)
    | (Raise e, q) => (Raise e, with_quadrillion a1 q)
    | (Ok _, q) =>
        let a2 := with_quadrillion a1 q in
        match _is_new_solution_needed a2 with
        | Raise e => (Raise e, a2)
        | Ok false =>
            match _adapt_solution a2 with
            | Raise e => (Raise e, a2)
            | Ok solution => (Ok solution, a2)
            end
        | Ok true =>
            match _extract_domains a2 with
            | Raise e => (Raise e, a2)
            | Ok doms =>
                let a3 := with_domains a2 doms in
                match CSPSolver.call limit a3 with
                | OutOfFuel => (Raise RecursionError, a3)
                | Raised e => (Raise e, a3)
                | Return (Some solution, a4) =>
                    if decide (solution ≠ ∅) then
                      (Ok solution, _cash_solution a4 solution)
                    else
                      match Quadrillion.unpick (quadrillion a4) with
                      | (Raise (StateException _), q') =>
                          (Raise (StateException "Cannot solve while items are picked."),
                           with_quadrillion a4 q')
                      | (Raise e, q') => (Raise e, with_quadrillion a4 q')
                      | (Ok _, q') =>
                          (Raise NoSolutionException, with_quadrillion a4 q')
                      end
                | Return (None, a4) =>
                    match Quadrillion.unpick (quadrillion a4) with
                    | (Raise (StateException _), q') =>
                        (Raise (StateException "Cannot solve while items are picked."),
                         with_quadrillion a4 q')
                    | (Raise e, q') => (Raise e, with_quadrillion a4 q')
                    | (Ok _, q') =>
                        (Raise NoSolutionException, with_quadrillion a4 q')
                    end
                end
            end
        end
    end.

(** [shape.set_dots(dots)] on the object the board holds. *)
Definition set_shape_dots (q : Quadrillion.t) (shape : DotsSet.t)
    (dots : gset Dot) : result Quadrillion.t :=
  let config := default (mkConfig 0 0 (0, 0)) (Quadrillion.shapes q !! shape) in
  o ← DotsSet.set_dots
        (DotsSet.mkObj shape config (DotsSet.configured shape config)) dots;
  Ok (Quadrillion.with_shapes q
        (<[shape := DotsSet._config o]> (Quadrillion.shapes q))).

(** The loop of [solve] over [_variables]. *)
Fixpoint place_all (q : Quadrillion.t) (solution : gmap DotsSet.t (gset Dot))
    (shapes : list DotsSet.t) : result unit * Quadrillion.t :=
  match shapes with
  | [] => (Ok (), q)
  | shape :: shapes' =>
      match solution !! shape with
      | None => (Raise KeyError, q)
      | Some dots =>
          match set_shape_dots q shape dots with
          | Raise e => (Raise e, q)
          | Ok q' => place_all q' solution shapes'
          end
      end
  end.

Definition solve (limit : nat) (a : t) : result unit * t :=
  match _get_solution limit a with
  | (Raise e, a') => (Raise e, a')
  | (Ok solution, a') =>
      match place_all (quadrillion a') solution (elements (_variables a')) with
      | (Raise e, q) => (Raise e, with_quadrillion a' q)
      | (Ok _, q) =>
          let '(r, q') := Quadrillion.release q in (r, with_quadrillion a' q')
      end
  end.

Definition help (limit : nat) (a : t) : result unit * t :=
  match _get_solution limit a with
  | (Raise e, a') => (Raise e, a')
  | (Ok solution, a') =>
      match elements (dom solution) with
      | [] => (Raise KeyError, a')
      | shape :: _ =>
          match place_all (quadrillion a') solution [shape] with
          | (Raise e, q) => (Raise e, with_quadrillion a' q)
          | (Ok _, q) =>
              let '(r, q') := Quadrillion.release q in (r, with_quadrillion a' q')
          end
      end
  end.

End QuadrillionCSPAdapter.

(** ** Notions the statements below are written with *)

(** [S] fills its [h] x [w] bounding box from row 0 and column 0. *)
Definition boxed (h w : Z) (S : gset Dot) : Prop :=
  (∃ x, (0, x) ∈ S) ∧ (∃ x, (h - 1, x) ∈ S) ∧
  (∃ y, (y, 0) ∈ S) ∧ (∃ y, (y, w - 1) ∈ S) ∧
  ∀ d : Dot, d ∈ S → (0 ≤ d.1 ∧ d.1 ≤ h - 1) ∧ (0 ≤ d.2 ∧ d.2 ≤ w - 1).

(** The pattern of a placement before it is moved. *)
Definition oriented (s : DotsSet.t) (config : Config) : gset Dot :=
  DotsSet._rotated_clockwise (DotsSet._height s) (DotsSet._width s)
    (DotsSet._initial_dots_flipped s (flips config)) (rotations config).

(** Reachability through horizontal and vertical steps inside [dots_set]. *)
Inductive reach (dots_set : gset Dot) (dot : Dot) : Dot → Prop :=
  | reach_refl : reach dots_set dot dot
  | reach_step c n :
      reach dots_set dot c → n ∈ neighbours c → n ∈ dots_set →
      reach dots_set dot n.

(** A connected component: the dots reachable from one dot of the set. *)
Definition is_component (dots_set C : gset Dot) : Prop :=
  ∃ d, d ∈ dots_set ∧ ∀ c, c ∈ C ↔ reach dots_set d c.

(** The components of at most five dots. *)
Definition small_sets (remaining : gset Dot) : list (gset Dot) :=
  filter (λ C, (size C ≤ 5)%nat) (connected_dots_sets remaining).

(** An axis-aligned rectangle of dots, and a square one. *)
Definition is_rectangle (R : gset Dot) : Prop :=
  ∃ y x my mx, ∀ d : Dot, d ∈ R ↔ (y ≤ d.1 ∧ d.1 ≤ my) ∧ (x ≤ d.2 ∧ d.2 ≤ mx).

Definition is_square (R : gset Dot) : Prop :=
  ∃ y x n, ∀ d : Dot, d ∈ R ↔ (y ≤ d.1 ∧ d.1 < y + n) ∧ (x ≤ d.2 ∧ d.2 < x + n).

(** The values of [var] that [forward_check] keeps. *)
Definition consistent_values {V D St : Type} `{Countable V, Countable D}
    `{!CSP V D St} (st : St) (d : gmap V (gset D)) (var : V) : gset D :=
  filter (λ val, is_consistent_assignment st (var, val) = true) (d !!! var).

(** The contract of the interface, for values that may clash: whatever
    [register_current_assignments] adds is a value of the variable's current
    domain that clashes with no other entry, and after it has accepted,
    [is_consistent_assignment] admits only values that clash with no entry. *)
Record lawful {V D St : Type} `{Countable V, Countable D} `{!CSP V D St}
    (compat : D → D → Prop) : Prop := {
  compat_sym : ∀ x y, compat x y → compat y x;
  register_adds : ∀ (st : St) (a : gmap V D) (d : gmap V (gset D)) ok a1 st1,
    register_current_assignments st a d = (ok, a1, st1) →
    a ⊆ a1 ∧
    ∀ v x, a1 !! v = Some x →
      a !! v = Some x
      ∨ (v ∈ dom d ∧ x ∈ d !!! v ∧
         ∀ v' x', a1 !! v' = Some x' → v' ≠ v → compat x x');
  consistent_sound : ∀ (st : St) (a : gmap V D) (d : gmap V (gset D)) a1 st1 v val,
    register_current_assignments st a d = (true, a1, st1) →
    is_consistent_assignment st1 (v, val) = true →
    ∀ v' x', a1 !! v' = Some x' → compat val x'
}.

(** A complete assignment of values that are in the domains and do not clash. *)
Definition is_solution {V D St : Type} `{Countable V, Countable D} `{!CSP V D St}
    (compat : D → D → Prop) (st : St) (sol : gmap V D) : Prop :=
  dom sol = variables st
  ∧ (∀ v x, sol !! v = Some x → x ∈ domains st !!! v)
  ∧ (∀ v1 v2 x1 x2, v1 ≠ v2 → sol !! v1 = Some x1 → sol !! v2 = Some x2 →
       compat x1 x2).

(** Every entry is a value of the initial domain [D0]; no two entries clash. *)
Definition good {V D : Type} `{Countable V, Countable D}
    (compat : D → D → Prop) (D0 : gmap V (gset D)) (a : gmap V D) : Prop :=
  (∀ v x, a !! v = Some x → v ∈ dom D0 ∧ x ∈ D0 !!! v)
  ∧ (∀ v1 v2 x1 x2, v1 ≠ v2 → a !! v1 = Some x1 → a !! v2 = Some x2 →
       compat x1 x2).

(** The live domains hold unassigned variables only, and values of the
    initial domains that clash with no entry. *)
Definition live {V D : Type} `{Countable V, Countable D}
    (compat : D → D → Prop) (D0 : gmap V (gset D)) (a : gmap V D)
    (d : gmap V (gset D)) : Prop :=
  dom d ## dom a ∧ dom d ⊆ dom D0
  ∧ ∀ v val, v ∈ dom d → val ∈ d !!! v →
      val ∈ D0 !!! v ∧ ∀ v' x', a !! v' = Some x' → compat val x'.

Ltac boxed_map :=
  intros ([x0 Hx0] & [x1 Hx1] & [y0 Hy0] & [y1 Hy1] & Hb);
  split_and!;
  [ .. | intros ? ([??] & -> & Hd%Hb)%elem_of_map; simpl in *; lia ].

Ltac in_map d :=
  eexists; exists d; split; [|eassumption];
  simpl; f_equal; first [reflexivity | lia].

Ltac inj_pair := intros [??] [??] ?; simplify_eq/=; f_equal; lia.

(** ** Boards and problems the statements are exercised on *)

Definition L5_dots : gset Dot := {[ (0, 0); (0, 1); (0, 2); (0, 3); (1, 0) ]}.
Definition P5_dots : gset Dot := {[ (0, 0); (0, 1); (0, 2); (1, 1); (1, 2) ]}.
Definition shape_L5 : DotsSet.t := DotsSet.mk L5_dots 2 4.
Definition shape_P5 : DotsSet.t := DotsSet.mk P5_dots 2 3.

Definition all16 : gset Dot :=
  list_to_set (y ← DotsGrid.range 0 4; x ← DotsGrid.range 0 4; [(y, x)]).

(** A grid whose open dots are the five of [L5_dots], on both sides. *)
Definition grid_L5 : DotsGrid.t :=
  DotsGrid.mk (all16 ∖ L5_dots) (all16 ∖ L5_dots) 4 4.

(** A grid whose open dots take [shape_L5] and [shape_P5] side by side. *)
Definition grid_L5_P5 : DotsGrid.t :=
  let open := L5_dots ∪ DotsSet._moved P5_dots (1, 1) in
  DotsGrid.mk (all16 ∖ open) (all16 ∖ open) 4 4.

Definition board_L5 : Quadrillion.t :=
  Quadrillion.mk (4, 8) {[ grid_L5 := mkConfig 0 0 (0, 0) ]}
    {[ shape_L5 := mkConfig 0 0 (0, 4) ]} ∅ ∅ false [].

(** The same board while the player holds the shape. *)
Definition board_L5_picked : Quadrillion.t :=
  Quadrillion.mk (4, 8) {[ grid_L5 := mkConfig 0 0 (0, 0) ]}
    {[ shape_L5 := mkConfig 0 0 (0, 4) ]} ∅ {[ shape_L5 ]} true
    [(Quadrillion.Shape shape_L5, mkConfig 0 0 (0, 4))].

Definition board_no_shapes : Quadrillion.t :=
  Quadrillion.mk (4, 8) {[ grid_L5 := mkConfig 0 0 (0, 0) ]} ∅ ∅ ∅ false [].

Definition board_empty : Quadrillion.t :=
  Quadrillion.mk (4, 8) ∅ ∅ ∅ ∅ false [].

Definition board_L5_P5 : Quadrillion.t :=
  Quadrillion.mk (4, 12) {[ grid_L5_P5 := mkConfig 0 0 (0, 0) ]}
    {[ shape_L5 := mkConfig 0 0 (0, 4); shape_P5 := mkConfig 0 0 (0, 8) ]}
    ∅ ∅ false [].

(** A 3 x 3 hole for a square of four, an L of four and a single dot. *)
Definition square3 : gset Dot :=
  list_to_set (y ← DotsGrid.range 0 3; x ← DotsGrid.range 0 3; [(y, x)]).
Definition shape_O4 : DotsSet.t := DotsSet.mk {[ (0, 0); (0, 1); (1, 0); (1, 1) ]} 2 2.
Definition shape_L4 : DotsSet.t := DotsSet.mk {[ (0, 0); (1, 0); (2, 0); (2, 1) ]} 3 2.
Definition shape_M1 : DotsSet.t := DotsSet.mk {[ (0, 0) ]} 1 1.

(** The adapter as [_get_solution] leaves it before it calls the solver. *)
Definition problem_of (q : Quadrillion.t) (vars : gset DotsSet.t)
    (empty : gset Dot) : QuadrillionCSPAdapter.t :=
  let a := QuadrillionCSPAdapter.with_problem
             (QuadrillionCSPAdapter.init q) vars empty in
  QuadrillionCSPAdapter.with_domains a
    (match QuadrillionCSPAdapter._extract_domains a with
     | Ok doms => doms
     | Raise _ => ∅
     end).

Definition problem_3x3 : QuadrillionCSPAdapter.t :=
  problem_of board_empty {[ shape_O4; shape_L4; shape_M1 ]} square3.

Definition problem_L5 : QuadrillionCSPAdapter.t :=
  problem_of board_empty {[ shape_L5 ]} L5_dots.

(** A tiling of the 3 x 3 hole. *)
Definition tiling_3x3 : gmap DotsSet.t (gset Dot) :=
  {[ shape_O4 := {[ (0, 0); (0, 1); (1, 0); (1, 1) ]};
     shape_L4 := {[ (0, 2); (1, 2); (2, 2); (2, 1) ]};
     shape_M1 := {[ (2, 0) ]} ]}.

(** [shape_L5] as the board of [board_L5] holds it. *)
Definition obj_L5 : DotsSet.obj :=
  DotsSet.mkObj shape_L5 (mkConfig 0 0 (0, 4))
    (DotsSet.configured shape_L5 (mkConfig 0 0 (0, 4))).

(** An adapter whose cache puts [shape_L5] on a dot that is not empty. *)
Definition adapter_stale : QuadrillionCSPAdapter.t :=
  QuadrillionCSPAdapter.with_solution (QuadrillionCSPAdapter.init board_L5)
    {[ shape_L5 := {[ (3, 3) ]} ]}.

(** One empty dot, with a shape to fill it and with none. *)
Definition problem_dot : QuadrillionCSPAdapter.t :=
  QuadrillionCSPAdapter.with_problem (QuadrillionCSPAdapter.init board_empty)
    {[ shape_M1 ]} {[ (0, 0) ]}.

Definition problem_dot_no_shape : QuadrillionCSPAdapter.t :=
  QuadrillionCSPAdapter.with_problem (QuadrillionCSPAdapter.init board_empty)
    ∅ {[ (0, 0) ]}.

Global Instance exn_eq_dec : EqDecision exn.
Proof. solve_decision. Defined.

Global Instance result_eq_dec {A} `{EqDecision A} : EqDecision (result A).
Proof. solve_decision. Defined.

(** Whether a call of the solver gave back [None]. *)
Definition returned_none {A B : Type} (o : outcome (option A * B)) : bool :=
  match o with
  | Return (None, _) => true
  | _ => false
  end.

(** Whether a recursive call came back with a result that [if solution:]
    takes for false. *)
Definition returned_falsy {V D St : Type} `{Countable V, Countable D}
    (o : outcome (CSPSolver.search (V:=V) (D:=D) (St:=St))) : bool :=
  match o with
  | Return r => negb (CSPSolver.truthy r)
  | _ => false
  end.

(** ** Notions used by the further properties *)

(** The height of the box an object shows: [_height] of its shape, or
    [_width] after a quarter turn. *)
Definition shown_height (o : DotsSet.obj) : Z :=
  if decide (rotations (DotsSet._config o) mod 2 = 0)
  then DotsSet._height (DotsSet.shape o) else DotsSet._width (DotsSet.shape o).

Definition shown_width (o : DotsSet.obj) : Z :=
  if decide (rotations (DotsSet._config o) mod 2 = 0)
  then DotsSet._width (DotsSet.shape o) else DotsSet._height (DotsSet.shape o).

(** Whether a call of the solver gave back a dictionary. *)
Definition returned_some {A B : Type} (o : outcome (option A * B)) : bool :=
  match o with
  | Return (Some _, _) => true
  | _ => false
  end.

(** ** Facts about finite sets used throughout *)

Lemma size_set_map_inj `{Countable A, Countable B} (f : A → B) (X : gset A) :
  Inj (=) (=) f → size (set_map f X : gset B) = size X.
Proof.
  intros Hf. induction X as [|x X Hx IH] using set_ind_L.
  - by rewrite set_map_empty, !size_empty.
  - rewrite set_map_union_L, set_map_singleton_L.
    rewrite !size_union, ?size_singleton, ?IH; [done | set_solver..].
Qed.

Section configured_size.
Import DotsSet.


Lemma size_moved dots displacement :
  size (_moved dots displacement) = size dots.
Proof. destruct displacement. apply size_set_map_inj. inj_pair. Qed.

Lemma size_flipped_vertically h dots :
  size (_flipped_vertically h dots) = size dots.
Proof. apply size_set_map_inj. inj_pair. Qed.

Lemma size_rotated_clockwise h w dots times :
  size (_rotated_clockwise h w dots times) = size dots.
Proof.
  unfold _rotated_clockwise.
  repeat case_decide; [done | apply size_set_map_inj; inj_pair ..].
Qed.

(** C7: whatever the flip count, the rotation count and the translation,
    [configured] yields as many dots as the shape's initial pattern has. *)
Theorem configured_size (s : DotsSet.t) (config : Config) :
  size (configured s config) = size (_initial_dots_set s).
Proof.
  unfold configured, _initial_dots_flipped.
  rewrite size_moved, size_rotated_clockwise.
  case_decide; [done | apply size_flipped_vertically].
Qed.
End configured_size.

(** ** Shapes: bounding boxes, orientations and [set_dots] *)

Section shape_facts.
(** ** Least and greatest members *)

Lemma foldr_min_spec (x : Z) (l : list Z) :
  foldr Z.min x l ∈ x :: l ∧ ∀ z, z ∈ x :: l → foldr Z.min x l ≤ z.
Proof.
  induction l as [|y l [IHin IHle]]; simpl.
  - split; [left | intros z ->%list_elem_of_singleton; lia].
  - split.
    + destruct (Z.min_spec y (foldr Z.min x l)) as [[_ ->]|[_ ->]].
      * right; left.
      * apply elem_of_cons in IHin as [->|?]; [left | do 2 right; done].
    + intros z Hz. assert (z = y ∨ z ∈ x :: l) as [->|Hz'].
      { set_solver. }
      * lia.
      * specialize (IHle z Hz'). lia.
Qed.

Lemma foldr_max_spec (x : Z) (l : list Z) :
  foldr Z.max x l ∈ x :: l ∧ ∀ z, z ∈ x :: l → z ≤ foldr Z.max x l.
Proof.
  induction l as [|y l [IHin IHle]]; simpl.
  - split; [left | intros z ->%list_elem_of_singleton; lia].
  - split.
    + destruct (Z.max_spec y (foldr Z.max x l)) as [[_ ->]|[_ ->]].
      * apply elem_of_cons in IHin as [->|?]; [left | do 2 right; done].
      * right; left.
    + intros z Hz. assert (z = y ∨ z ∈ x :: l) as [->|Hz'].
      { set_solver. }
      * lia.
      * specialize (IHle z Hz'). lia.
Qed.

Lemma min_of_Some (l : list Z) (m : Z) :
  min_of l = Some m ↔ m ∈ l ∧ ∀ z, z ∈ l → m ≤ z.
Proof.
  destruct l as [|x l]; simpl.
  - split; [done | intros [[]%elem_of_nil _]].
  - destruct (foldr_min_spec x l) as [Hin Hle]. split.
    + intros [= <-]. done.
    + intros [Hm Hlow]. f_equal.
      specialize (Hle m Hm). specialize (Hlow _ Hin). lia.
Qed.

Lemma max_of_Some (l : list Z) (m : Z) :
  max_of l = Some m ↔ m ∈ l ∧ ∀ z, z ∈ l → z ≤ m.
Proof.
  destruct l as [|x l]; simpl.
  - split; [done | intros [[]%elem_of_nil _]].
  - destruct (foldr_max_spec x l) as [Hin Hle]. split.
    + intros [= <-]. done.
    + intros [Hm Hup]. f_equal.
      specialize (Hle m Hm). specialize (Hup _ Hin). lia.
Qed.

Lemma elem_of_ys (dots : gset Dot) (y : Z) :
  y ∈ ys dots ↔ ∃ x, (y, x) ∈ dots.
Proof.
  unfold ys. rewrite list_elem_of_fmap. split.
  - intros ([y' x] & -> & Hin%elem_of_elements). by exists x.
  - intros [x Hin]. exists (y, x). by rewrite elem_of_elements.
Qed.

Lemma elem_of_xs (dots : gset Dot) (x : Z) :
  x ∈ xs dots ↔ ∃ y, (y, x) ∈ dots.
Proof.
  unfold xs. rewrite list_elem_of_fmap. split.
  - intros ([y x'] & -> & Hin%elem_of_elements). by exists y.
  - intros [y Hin]. exists (y, x). by rewrite elem_of_elements.
Qed.

Lemma min_of_ys_is_Some (dots : gset Dot) :
  dots ≠ ∅ → is_Some (min_of (ys dots)) ∧ is_Some (min_of (xs dots)).
Proof.
  intros Hne. unfold ys, xs.
  destruct (elements dots) as [|d l] eqn:E.
  - by apply elements_empty_inv, leibniz_equiv in E.
  - simpl. eauto.
Qed.

Import DotsSet.

Lemma configured_oriented s config :
  configured s config = _moved (oriented s config) (location config).
Proof. done. Qed.

Lemma elem_of_moved dots dy dx (d : Dot) :
  d ∈ _moved dots (dy, dx) ↔ (d.1 - dy, d.2 - dx) ∈ dots.
Proof.
  unfold _moved. rewrite elem_of_map. split.
  - intros ([y x] & -> & Hin); simpl.
    by replace (y + dy - dy) with y by lia; replace (x + dx - dx) with x by lia.
  - intros Hin. exists (d.1 - dy, d.2 - dx). split; [|done].
    destruct d; simpl; f_equal; lia.
Qed.

Lemma configured_normalized s config :
  configured s (normalized config) = configured s config.
Proof.
  unfold configured, normalized, _initial_dots_flipped, _rotated_clockwise; simpl.
  by rewrite !Zmod_mod.
Qed.

Lemma unique_step_old s acc c :
  configured s c ∈ acc.1 → unique_step s acc c = acc.
Proof. intros Hin. unfold unique_step. by rewrite decide_True. Qed.

Lemma unique_step_new s acc c :
  configured s c ∉ acc.1 →
  unique_step s acc c = (acc.1 ++ [configured s c], {[c]} ∪ acc.2).
Proof. intros Hin. unfold unique_step. by rewrite decide_False. Qed.

Lemma unique_fold_sub s l acc (c : Config) :
  c ∈ (foldl (unique_step s) acc l).2 → c ∈ acc.2 ∨ c ∈ l.
Proof.
  revert acc. induction l as [|c0 l IH]; intros acc; cbn [foldl]; [by left|].
  intros [Hc|Hc]%IH; [|right; by right].
  destruct (decide (configured s c0 ∈ acc.1)) as [Hin|Hin].
  - rewrite (unique_step_old _ _ _ Hin) in Hc. by left.
  - rewrite (unique_step_new _ _ _ Hin) in Hc. cbn [snd] in Hc.
    apply elem_of_union in Hc as [->%elem_of_singleton|?]; [right; left | by left].
Qed.

Lemma unique_fold_cover s l acc :
  (∀ d, d ∈ acc.1 → ∃ c, c ∈ acc.2 ∧ configured s c = d) →
  let r := foldl (unique_step s) acc l in
  (∀ d, d ∈ r.1 → ∃ c, c ∈ r.2 ∧ configured s c = d) ∧
  (∀ d, d ∈ acc.1 → d ∈ r.1) ∧
  (∀ c, c ∈ l → configured s c ∈ r.1).
Proof.
  revert acc. induction l as [|c0 l IH]; intros acc Hacc; cbn [foldl]; cbv zeta.
  { split; [exact Hacc|]. split; [auto|]. by intros c ?%elem_of_nil. }
  assert (∀ d, d ∈ (unique_step s acc c0).1 →
            ∃ c, c ∈ (unique_step s acc c0).2 ∧ configured s c = d) as Hacc'.
  { destruct (decide (configured s c0 ∈ acc.1)) as [Hin|Hin].
    - rewrite (unique_step_old _ _ _ Hin). exact Hacc.
    - rewrite (unique_step_new _ _ _ Hin). cbn [fst snd].
      intros d [Hd| ->%list_elem_of_singleton]%elem_of_app.
      + destruct (Hacc d Hd) as (c & Hc & Heq). exists c. split; [|exact Heq].
        apply elem_of_union. by right.
      + exists c0. split; [|reflexivity].
        apply elem_of_union. left. by apply elem_of_singleton. }
  assert (∀ d, d ∈ acc.1 → d ∈ (unique_step s acc c0).1) as Hmono.
  { intros d Hd. destruct (decide (configured s c0 ∈ acc.1)) as [Hin|Hin].
    - by rewrite (unique_step_old _ _ _ Hin).
    - rewrite (unique_step_new _ _ _ Hin). cbn [fst].
      apply elem_of_app. by left. }
  assert (configured s c0 ∈ (unique_step s acc c0).1) as Hhere.
  { destruct (decide (configured s c0 ∈ acc.1)) as [Hin|Hin].
    - by rewrite (unique_step_old _ _ _ Hin).
    - rewrite (unique_step_new _ _ _ Hin). cbn [fst].
      apply elem_of_app. right. by apply list_elem_of_singleton. }
  destruct (IH (unique_step s acc c0) Hacc') as (H1 & H2 & H3).
  split; [exact H1|]. split.
  - intros d Hd. apply H2, Hmono, Hd.
  - intros c [->|Hc]%elem_of_cons; [apply H2, Hhere | apply H3, Hc].
Qed.

Lemma unique_configs_unfold s :
  unique_configs s = (foldl (unique_step s) ([], ∅) all_orientations).2.
Proof. reflexivity. Qed.

Lemma unique_configs_orientation s c :
  c ∈ unique_configs s → c ∈ all_orientations.
Proof.
  rewrite unique_configs_unfold.
  intros [Hc|Hc]%unique_fold_sub; [|exact Hc].
  cbn [snd] in Hc. by apply not_elem_of_empty in Hc.
Qed.

Lemma unique_configs_cover s c :
  c ∈ all_orientations →
  ∃ c', c' ∈ unique_configs s ∧ configured s c' = configured s c.
Proof.
  intros Hc. rewrite unique_configs_unfold.
  pose proof (unique_fold_cover s all_orientations ([], ∅)) as Hcover.
  cbv zeta in Hcover. destruct Hcover as (H1 & _ & H3).
  { cbn [fst]. by intros d ?%elem_of_nil. }
  apply H1, H3, Hc.
Qed.

Lemma elem_of_get_unique_configs_at s loc c :
  c ∈ get_unique_configs_at s loc ↔
  ∃ c0, c0 ∈ unique_configs s ∧ c = replace_location loc c0.
Proof.
  unfold get_unique_configs_at. rewrite elem_of_map. naive_solver.
Qed.

Lemma all_orientations_spec c :
  c ∈ all_orientations ↔
  (flips c = 0 ∨ flips c = 1) ∧
  (rotations c = 0 ∨ rotations c = 1 ∨ rotations c = 2 ∨ rotations c = 3) ∧
  location c = (0, 0).
Proof.
  unfold all_orientations. simpl. destruct c as [f r l]; simpl.
  rewrite !elem_of_cons, elem_of_nil. split.
  - intros H; repeat destruct H as [H|H]; try done; inversion H; auto 10.
  - intros ([->| ->] & [->|[->|[->| ->]]] & ->); auto 10.
Qed.

Lemma oriented_mod s c :
  oriented s c = oriented s (mkConfig (flips c mod 2) (rotations c mod 4) (0, 0)).
Proof.
  unfold oriented, _initial_dots_flipped, _rotated_clockwise; simpl.
  by rewrite !Zmod_mod.
Qed.

Lemma mod_orientation c :
  mkConfig (flips c mod 2) (rotations c mod 4) (0, 0) ∈ all_orientations.
Proof.
  apply all_orientations_spec; simpl.
  pose proof (Z.mod_pos_bound (flips c) 2).
  pose proof (Z.mod_pos_bound (rotations c) 4).
  split_and!; [lia | lia | done].
Qed.

Lemma init_boxed dots s :
  init dots = Ok s →
  min_of (ys dots) = Some 0 → min_of (xs dots) = Some 0 →
  boxed (_height s) (_width s) (_initial_dots_set s).
Proof.
  unfold init. destruct (_are_valid_dots dots); [|done].
  destruct (max_of (ys dots)) as [my|] eqn:Hmy; [|done].
  destruct (max_of (xs dots)) as [mx|] eqn:Hmx; [|done].
  intros [= <-] [Hy0 Hylow]%min_of_Some [Hx0 Hxlow]%min_of_Some; simpl.
  apply max_of_Some in Hmy as [Hmy Hyup], Hmx as [Hmx Hxup].
  apply elem_of_ys in Hy0, Hmy. apply elem_of_xs in Hx0, Hmx.
  unfold boxed. rewrite !Z.add_simpl_r.
  split_and!; [assumption..|].
  intros [y x] Hd; simpl.
  assert (y ∈ ys dots) as Hy by (apply elem_of_ys; eauto).
  assert (x ∈ xs dots) as Hx by (apply elem_of_xs; eauto).
  specialize (Hylow _ Hy). specialize (Hyup _ Hy).
  specialize (Hxlow _ Hx). specialize (Hxup _ Hx). lia.
Qed.

Lemma flipped_boxed h w S : boxed h w S → boxed h w (_flipped_vertically h S).
Proof.
  unfold _flipped_vertically. boxed_map; set_unfold.
  - in_map (h - 1, x1).
  - in_map (0, x0).
  - in_map (y0, 0).
  - in_map (y1, w - 1).
Qed.

Lemma rotated_boxed h w S times :
  boxed h w S →
  boxed h w (_rotated_clockwise h w S times)
  ∨ boxed w h (_rotated_clockwise h w S times).
Proof.
  unfold _rotated_clockwise. intros HS. repeat case_decide.
  - by left.
  - right. revert HS. unfold _rotated_90_degrees_clockwise. boxed_map; set_unfold.
    + in_map (y0, 0).
    + in_map (y1, w - 1).
    + in_map (h - 1, x1).
    + in_map (0, x0).
  - left. revert HS. unfold _rotated_180_degrees. boxed_map; set_unfold.
    + in_map (h - 1, x1).
    + in_map (0, x0).
    + in_map (y1, w - 1).
    + in_map (y0, 0).
  - right. revert HS. unfold _rotated_90_degrees_counterclockwise. boxed_map; set_unfold.
    + in_map (y1, w - 1).
    + in_map (y0, 0).
    + in_map (0, x0).
    + in_map (h - 1, x1).
Qed.

Lemma boxed_min_corner h w S dy dx :
  boxed h w S →
  min_of (ys (_moved S (dy, dx))) = Some dy
  ∧ min_of (xs (_moved S (dy, dx))) = Some dx.
Proof.
  intros ([x0 Hx0] & _ & [y0 Hy0] & _ & Hb). split; apply min_of_Some.
  - split.
    + apply elem_of_ys. exists (x0 + dx). apply elem_of_moved; simpl.
      by rewrite Z.sub_diag, Z.add_simpl_r.
    + intros z [x Hd%elem_of_moved%Hb]%elem_of_ys. simpl in Hd. lia.
  - split.
    + apply elem_of_xs. exists (y0 + dy). apply elem_of_moved; simpl.
      by rewrite Z.sub_diag, Z.add_simpl_r.
    + intros z [y Hd%elem_of_moved%Hb]%elem_of_xs. simpl in Hd. lia.
Qed.

Lemma oriented_boxed s config :
  boxed (_height s) (_width s) (_initial_dots_set s) →
  boxed (_height s) (_width s) (oriented s config)
  ∨ boxed (_width s) (_height s) (oriented s config).
Proof.
  intros Hs. unfold oriented. apply rotated_boxed.
  unfold _initial_dots_flipped. case_decide; [exact Hs | by apply flipped_boxed].
Qed.

Lemma moved_origin (S : gset Dot) : _moved S (0, 0) = S.
Proof.
  apply set_eq. intros [y x]. rewrite elem_of_moved. cbn [fst snd].
  by rewrite !Z.sub_0_r.
Qed.

Lemma configured_replace_location s loc c :
  configured s (replace_location loc c) = _moved (oriented s c) loc.
Proof. done. Qed.

(** What the search of [set_dots] finds. *)
Lemma set_dots_Ok o D o' :
  set_dots o D = Ok o' →
  ∃ y x config,
    min_of (ys D) = Some y ∧ min_of (xs D) = Some x ∧
    config ∈ get_unique_configs_at (shape o) (y, x) ∧
    configured (shape o) config = D ∧ o' = set_config o config.
Proof.
  unfold set_dots.
  destruct (min_of (ys D)) as [y|] eqn:Hy; [|intros [=]].
  destruct (min_of (xs D)) as [x|] eqn:Hx; [|intros [=]].
  destruct (find _ _) as [config|] eqn:Hfind; [|intros [=]].
  intros [= <-]. apply find_some in Hfind as [Hin Heq].
  apply bool_decide_eq_true in Heq.
  apply list_elem_of_In, elem_of_elements in Hin.
  exists y, x, config. repeat split; assumption.
Qed.

Lemma set_dots_found o D y x config :
  min_of (ys D) = Some y → min_of (xs D) = Some x →
  config ∈ get_unique_configs_at (shape o) (y, x) →
  configured (shape o) config = D →
  ∃ o', set_dots o D = Ok o'.
Proof.
  intros Hy Hx Hin Heq. unfold set_dots. rewrite Hy, Hx.
  destruct (find _ _) as [config'|] eqn:Hfind; [eauto|].
  exfalso. eapply find_none in Hfind.
  - by apply bool_decide_eq_false in Hfind.
  - by apply list_elem_of_In, elem_of_elements.
Qed.

Lemma set_config_dots o config :
  _dots_set (set_config o config) = configured (shape o) config.
Proof. unfold set_config; simpl. apply configured_normalized. Qed.

(** C6: for a set of dots [D] whose least row is [y] and least column is [x]
    (so [D] is not empty), [set_dots] raises [ValueError] exactly when no
    config of [get_unique_configs_at] at [(y, x)] configures the shape into
    [D]; it raises nothing else, and when it returns, the shape is unchanged
    and the current dots are [D].  For a shape accepted by [init], whose
    initial dots have 0 as least row and least column, [set_dots] of the dots
    of any config succeeds and leaves exactly these dots. *)
Theorem set_dots_spec :
  (∀ (o : DotsSet.obj) (D : gset Dot) (y x : Z),
     min_of (ys D) = Some y → min_of (xs D) = Some x →
     (set_dots o D = Raise ValueError ↔
        ¬ ∃ config, config ∈ get_unique_configs_at (shape o) (y, x)
                    ∧ configured (shape o) config = D)
     ∧ (∀ e, set_dots o D = Raise e → e = ValueError)
     ∧ (∀ o', set_dots o D = Ok o' → shape o' = shape o ∧ _dots_set o' = D))
  ∧ (∀ (dots : gset Dot) (o : DotsSet.obj) (c : Config),
       init dots = Ok (shape o) →
       min_of (ys dots) = Some 0 → min_of (xs dots) = Some 0 →
       ∃ o', set_dots o (configured (shape o) c) = Ok o'
             ∧ _dots_set o' = configured (shape o) c).
Proof.
  split.
  - intros o D y x Hy Hx. split_and!.
    + split.
      * intros Hraise (config & Hin & Heq).
        destruct (set_dots_found o D y x config) as [o' Ho']; [done..|].
        congruence.
      * intros Hnone. destruct (set_dots o D) as [o'|e] eqn:Hset.
        -- exfalso. apply Hnone.
           apply set_dots_Ok in Hset as (y' & x' & config & Hy' & Hx' & ? & ? & _).
           exists config. split; congruence.
        -- revert Hset. unfold set_dots. rewrite Hy, Hx.
           by destruct (find _ _).
    + intros e. unfold set_dots. rewrite Hy, Hx.
      destruct (find _ _); [done | by intros [= <-]].
    + intros o' (y' & x' & config & _ & _ & _ & Heq & ->)%set_dots_Ok.
      split; [done|]. by rewrite set_config_dots.
  - intros dots o c Hinit Hy0 Hx0.
    pose proof (init_boxed _ _ Hinit Hy0 Hx0) as Hbox.
    destruct (location c) as [dy dx] eqn:Hloc.
    assert (min_of (ys (configured (shape o) c)) = Some dy
            ∧ min_of (xs (configured (shape o) c)) = Some dx) as [Hy Hx].
    { rewrite configured_oriented, Hloc.
      destruct (oriented_boxed (shape o) c Hbox);
        eapply boxed_min_corner; eassumption. }
    destruct (unique_configs_cover (shape o) _ (mod_orientation c))
      as (c' & Hc' & Hsame).
    assert (location c' = (0, 0)) as Hloc'.
    { by apply unique_configs_orientation, all_orientations_spec in Hc'
        as (_ & _ & ?). }
    assert (configured (shape o) (replace_location (dy, dx) c')
            = configured (shape o) c) as Heq.
    { rewrite configured_replace_location, (configured_oriented _ c), Hloc.
      f_equal. rewrite (oriented_mod _ c).
      rewrite !configured_oriented in Hsame. cbn [location] in Hsame.
      rewrite Hloc', !moved_origin in Hsame. exact Hsame. }
    destruct (set_dots_found o (configured (shape o) c) dy dx
                (replace_location (dy, dx) c') Hy Hx) as [o' Ho'].
    { apply elem_of_get_unique_configs_at. eauto. }
    { exact Heq. }
    exists o'. split; [exact Ho'|].
    apply set_dots_Ok in Ho' as (_ & _ & config & _ & _ & _ & Hcfg & ->).
    rewrite set_config_dots. exact Hcfg.
Qed.
End shape_facts.

(** ** Connected components *)

Section component_facts.
Lemma pop_None {A} (l : list A) : pop l = None ↔ l = [].
Proof.
  induction l as [|x [|y l] IH]; [done..|].
  change (pop (x :: y :: l)) with (prod_map (cons x) id <$> pop (y :: l)).
  destruct (pop (y :: l)) as [[??]|]; simpl; [done|].
  by destruct IH as [IH _]; specialize (IH eq_refl).
Qed.

Lemma pop_app {A} (rest : list A) (x : A) : pop (rest ++ [x]) = Some (rest, x).
Proof.
  induction rest as [|y rest IH]; [done|].
  change (pop ((y :: rest) ++ [x]))
    with (match rest ++ [x] with
          | [] => Some ([], y)
          | _ => prod_map (cons y) id <$> pop (rest ++ [x])
          end).
  rewrite IH. by destruct rest.
Qed.

Lemma pop_Some {A} (l rest : list A) (x : A) :
  pop l = Some (rest, x) ↔ l = rest ++ [x].
Proof.
  split; [|intros ->; apply pop_app].
  destruct l as [|y l _] using rev_ind; [done|].
  rewrite pop_app. by intros [= <- <-].
Qed.

Lemma elem_of_neighbours (c n : Dot) :
  n ∈ neighbours c ↔
  (n.1 = c.1 + 1 ∧ n.2 = c.2) ∨ (n.1 = c.1 - 1 ∧ n.2 = c.2) ∨
  (n.1 = c.1 ∧ n.2 = c.2 + 1) ∨ (n.1 = c.1 ∧ n.2 = c.2 - 1).
Proof.
  destruct c as [cy cx], n as [ny nx]. unfold neighbours. simpl.
  rewrite !elem_of_union, !elem_of_singleton.
  split.
  - intros [[[[= -> ->]|[= -> ->]]|[= -> ->]]|[= -> ->]]; lia.
  - intros [[-> ->]|[[-> ->]|[[-> ->]|[-> ->]]]]; auto.
Qed.

Lemma neighbours_sym (c n : Dot) : n ∈ neighbours c ↔ c ∈ neighbours n.
Proof. rewrite !elem_of_neighbours. lia. Qed.

Lemma reach_trans X a b c : reach X a b → reach X b c → reach X a c.
Proof. intros Hab Hbc. induction Hbc; [done | by eapply reach_step]. Qed.

Lemma reach_in X a b : a ∈ X → reach X a b → b ∈ X.
Proof. intros Ha Hab. by destruct Hab. Qed.

Lemma reach_sym X a b : a ∈ X → reach X a b → reach X b a.
Proof.
  intros Ha Hab. induction Hab as [|c n Hac IH Hn HnX]; [constructor|].
  eapply reach_trans; [|exact IH].
  eapply reach_step; [constructor | by apply neighbours_sym |].
  exact (reach_in X a c Ha Hac).
Qed.

Lemma foldl_cons_front {A} (rest l : list A) :
  foldl (λ q d, d :: q) rest l = reverse l ++ rest.
Proof.
  revert rest. induction l as [|x l IH]; intros rest; simpl; [done|].
  by rewrite IH, reverse_cons, <-app_assoc.
Qed.

Lemma size_difference_successors (X connected succ : gset Dot) :
  succ ⊆ X ∖ connected →
  (size (X ∖ (connected ∪ succ)) + size succ = size (X ∖ connected))%nat.
Proof.
  intros Hsub.
  assert (X ∖ connected = (X ∖ (connected ∪ succ)) ∪ succ) as ->.
  { apply set_eq. intros d. destruct (decide (d ∈ succ)); set_solver. }
  rewrite (size_union (X ∖ (connected ∪ succ)) succ); [|set_solver].
  f_equal.
Qed.

Lemma connected_loop_spec X fuel : ∀ connected queue,
  (size (X ∖ connected) + length queue < fuel)%nat →
  (∀ d, d ∈ queue → d ∈ connected) →
  ∃ C, connected_loop fuel X connected queue = Some C
    ∧ connected ⊆ C
    ∧ (∀ c, c ∈ C → c ∈ connected ∨ ∃ q, q ∈ queue ∧ reach X q c)
    ∧ ((∀ c, c ∈ connected →
          c ∈ queue ∨ ∀ n, n ∈ neighbours c → n ∈ X → n ∈ connected) →
       ∀ c, c ∈ C → ∀ n, n ∈ neighbours c → n ∈ X → n ∈ C).
Proof.
  induction fuel as [|fuel IH]; intros connected queue Hfuel Hqueue; [lia|].
  simpl. destruct (pop queue) as [[rest dot]|] eqn:Hpop.
  - apply pop_Some in Hpop as ->.
    set (succ := X ∩ (neighbours dot ∖ connected)).
    rewrite foldl_cons_front.
    destruct (IH (connected ∪ succ) (reverse (elements succ) ++ rest))
      as (C & -> & Hsub & Hsound & Hclosed).
    { pose proof (size_difference_successors X connected succ) as Hsz.
      rewrite length_app in Hfuel |- *. rewrite length_reverse.
      change (length (elements succ)) with (size succ). simpl in Hfuel.
      assert (succ ⊆ X ∖ connected) as Hs%Hsz by set_solver. lia. }
    { intros d [Hd%elem_of_reverse%elem_of_elements|Hd]%elem_of_app.
      - set_solver.
      - apply elem_of_union. left. apply Hqueue, elem_of_app. by left. }
    exists C. split; [done|]. split; [set_solver|]. split.
    + intros c [[Hc|Hc]%elem_of_union|(q & Hq & Hreach)]%Hsound.
      * by left.
      * right. exists dot. split; [set_solver|].
        eapply reach_step; [constructor|set_solver..].
      * right. apply elem_of_app in Hq as [Hq%elem_of_reverse%elem_of_elements|Hq].
        -- exists dot. split; [set_solver|].
           eapply reach_trans; [|exact Hreach].
           eapply reach_step; [constructor|set_solver..].
        -- exists q. split; [set_solver | done].
    + intros Hinv. apply Hclosed.
      intros c [Hc|Hc]%elem_of_union.
      * destruct (Hinv c Hc) as [[Hin| ->%list_elem_of_singleton]%elem_of_app|Hcl].
        -- left. apply elem_of_app. by right.
        -- right. intros n Hn HnX.
           destruct (decide (n ∈ connected)); set_solver.
        -- right. intros n Hn HnX. apply elem_of_union. left. by apply Hcl.
      * left. apply elem_of_app. left.
        by apply elem_of_reverse, elem_of_elements.
  - apply pop_None in Hpop as ->. exists connected.
    split; [done|]. split; [done|]. split; [by left|].
    intros Hinv c Hc. destruct (Hinv c Hc) as [[]%elem_of_nil|?]; done.
Qed.

(** The loop of [connected_dots_set_at] ends within its bound. *)
Lemma connected_loop_fuel X dot :
  is_Some (connected_loop (size X + 2) X {[dot]} [dot]).
Proof.
  destruct (connected_loop_spec X (size X + 2) {[dot]} [dot]) as (C & -> & _).
  - simpl. assert (size (X ∖ {[dot]}) ≤ size X)%nat; [|lia].
    apply subseteq_size. set_solver.
  - intros d ->%list_elem_of_singleton. set_solver.
  - done.
Qed.

Lemma elem_of_connected_dots_set_at X dot c :
  c ∈ connected_dots_set_at X dot ↔ reach X dot c.
Proof.
  unfold connected_dots_set_at.
  destruct (connected_loop_spec X (size X + 2) {[dot]} [dot])
    as (C & -> & Hsub & Hsound & Hclosed); simpl.
  - assert (size (X ∖ {[dot]}) ≤ size X)%nat; [|lia].
    apply subseteq_size. set_solver.
  - intros d ->%list_elem_of_singleton. set_solver.
  - split.
    + intros [->%elem_of_singleton|(q & ->%list_elem_of_singleton & ?)]%Hsound;
        [constructor | done].
    + intros Hreach. induction Hreach as [|c n _ IH Hn HnX]; [set_solver|].
      eapply Hclosed; [|exact IH|done..].
      intros c' ->%elem_of_singleton. left. by left.
Qed.

Lemma is_component_sub X C : is_component X C → C ⊆ X.
Proof.
  intros (d & Hd & HC) c Hc%HC. by eapply reach_in.
Qed.

Lemma is_component_nonempty X C : is_component X C → C ≠ ∅.
Proof.
  intros (d & Hd & HC) ->. by apply (not_elem_of_empty (C:=gset Dot) d), HC, reach_refl.
Qed.

Lemma is_component_eq_or_disjoint X A B :
  is_component X A → is_component X B → A = B ∨ A ## B.
Proof.
  intros (a & Ha & HA) (b & Hb & HB).
  destruct (decide (A ## B)) as [|Hnd]; [by right|left].
  assert (∃ c, c ∈ A ∧ c ∈ B) as (c & HcA%HA & HcB%HB).
  { apply dec_stable. intros Hno. apply Hnd. intros c ??. apply Hno. eauto. }
  assert (reach X a b) as Hab.
  { eapply reach_trans; [exact HcA|]. by apply reach_sym. }
  apply set_eq. intros d. rewrite HA, HB. split; intros Hd.
  - eapply reach_trans; [|exact Hd]. by apply reach_sym.
  - by eapply reach_trans.
Qed.

Lemma connected_dots_set_at_component X dot :
  dot ∈ X → is_component X (connected_dots_set_at X dot).
Proof.
  intros Hdot. exists dot. split; [done|].
  intros c. apply elem_of_connected_dots_set_at.
Qed.

Lemma connected_step_seen X seen out dot :
  dot ∈ seen → connected_step X (seen, out) dot = (seen, out).
Proof. intros. unfold connected_step; simpl. by case_decide. Qed.

Lemma connected_step_new X seen out dot :
  dot ∉ seen →
  connected_step X (seen, out) dot
  = (seen ∪ connected_dots_set_at X dot, out ++ [connected_dots_set_at X dot]).
Proof. intros. unfold connected_step; simpl. by case_decide. Qed.

Lemma connected_fold X l : ∀ seen out,
  (∀ d, d ∈ l → d ∈ X) →
  (∀ c, c ∈ seen ↔ ∃ C, C ∈ out ∧ c ∈ C) →
  (∀ C, C ∈ out → is_component X C) →
  NoDup out →
  let r := foldl (connected_step X) (seen, out) l in
  (∀ c, c ∈ r.1 ↔ ∃ C, C ∈ r.2 ∧ c ∈ C)
  ∧ (∀ C, C ∈ r.2 → is_component X C)
  ∧ NoDup r.2
  ∧ (∀ d, d ∈ l → d ∈ r.1)
  ∧ seen ⊆ r.1.
Proof.
  induction l as [|dot l IH]; intros seen out Hl Hseen Hout Hnd; simpl.
  { split_and!; try done. by intros d ?%elem_of_nil. }
  assert (dot ∈ X) as HdotX by (apply Hl; left).
  assert (∀ d, d ∈ l → d ∈ X) as Hl' by (intros; apply Hl; by right).
  destruct (decide (dot ∈ seen)) as [Hin|Hin].
  - rewrite connected_step_seen by done.
    destruct (IH seen out Hl' Hseen Hout Hnd) as (H1 & H2 & H3 & H4 & H5).
    split_and!; try done.
    intros d [->|Hd]%elem_of_cons; [by apply H5 | by apply H4].
  - rewrite connected_step_new by done.
    set (C := connected_dots_set_at X dot).
    assert (dot ∈ C) as HdotC.
    { apply elem_of_connected_dots_set_at. constructor. }
    destruct (IH (seen ∪ C) (out ++ [C])) as (H1 & H2 & H3 & H4 & H5);
      try done.
    + intros c. rewrite elem_of_union, Hseen. split.
      * intros [(C' & ? & ?)|?]; [exists C' | exists C];
          (split; [apply elem_of_app|done]); [by left | right; by left].
      * intros (C' & [?| ->%list_elem_of_singleton]%elem_of_app & ?);
          [left; eauto | by right].
    + intros C' [?| ->%list_elem_of_singleton]%elem_of_app; [by apply Hout|].
      by apply connected_dots_set_at_component.
    + apply NoDup_app. split; [done|]. split; [|apply NoDup_singleton].
      intros C' HC' ->%list_elem_of_singleton. apply Hin, Hseen. eauto.
    + split_and!; try done; [|set_solver].
      intros d [->|Hd]%elem_of_cons; [|by apply H4].
      apply H5. set_solver.
Qed.

(** [connected_dots_sets] yields every connected component once. *)
Lemma connected_dots_sets_spec X :
  NoDup (connected_dots_sets X)
  ∧ (∀ C, C ∈ connected_dots_sets X ↔ is_component X C)
  ∧ (∀ A B, A ∈ connected_dots_sets X → B ∈ connected_dots_sets X →
            A ≠ B → A ## B)
  ∧ ⋃ connected_dots_sets X = X.
Proof.
  unfold connected_dots_sets.
  destruct (connected_fold X (elements X) ∅ []) as (H1 & H2 & H3 & H4 & _).
  { intros d. by rewrite elem_of_elements. }
  { intros c. split; [by intros ?%not_elem_of_empty|].
    by intros (? & ?%elem_of_nil & _). }
  { by intros C ?%elem_of_nil. }
  { constructor. }
  set (r := foldl (connected_step X) (∅, []) (elements X)) in *.
  assert (∀ C, C ∈ r.2 ↔ is_component X C) as Hcomp.
  { intros C. split; [apply H2|]. intros HC.
    destruct HC as (d & Hd & HC).
    assert (d ∈ r.1) as (C' & HC' & HdC')%H1 by by apply H4, elem_of_elements.
    replace C with C'; [done|].
    destruct (is_component_eq_or_disjoint X C' C) as [?|Hdisj];
      [by apply H2 | by exists d | done |].
    exfalso. apply (Hdisj d); [done|]. apply HC. constructor. }
  split_and!; try done.
  - intros A B HA%H2 HB%H2 Hne.
    by destruct (is_component_eq_or_disjoint X A B).
  - apply set_eq. intros c. rewrite elem_of_union_list. split.
    + intros (C & HC%H2%is_component_sub & Hc). by apply HC.
    + intros Hc. apply H1, H4, elem_of_elements, Hc.
Qed.
End component_facts.

(** ** Registering the assignments *)

Section register_facts.
Import QuadrillionCSPAdapter.

Lemma valid_loop_spec nr sets : ∀ small,
  (valid_loop nr sets small).1 = true
  ↔ Forall (λ C, _is_valid_nr_empty_connected_dots nr (Z.of_nat (size C)) = true) sets.
Proof.
  induction sets as [|C sets IH]; intros small; simpl; [done|].
  rewrite Forall_cons.
  destruct (_is_valid_nr_empty_connected_dots nr (Z.of_nat (size C))); simpl.
  - case_decide; rewrite IH; naive_solver.
  - naive_solver.
Qed.

Lemma valid_loop_small nr sets : ∀ small,
  (valid_loop nr sets small).1 = true →
  (valid_loop nr sets small).2
  = small ++ filter (λ C, (size C ≤ 5)%nat) sets.
Proof.
  induction sets as [|C sets IH]; intros small; simpl.
  { by rewrite app_nil_r. }
  destruct (_is_valid_nr_empty_connected_dots nr (Z.of_nat (size C))); simpl;
    [|done].
  rewrite filter_cons. case_decide; intros Hok%IH; rewrite Hok; [|done].
  by rewrite <-app_assoc.
Qed.

Lemma elem_of_union_values (m : gmap DotsSet.t (gset Dot)) (c : Dot) :
  c ∈ union_values m ↔ ∃ var dots, m !! var = Some dots ∧ c ∈ dots.
Proof.
  unfold union_values. rewrite elem_of_union_list. split.
  - intros (dots & ([var dots'] & -> & Hin%elem_of_map_to_list)%list_elem_of_fmap & Hc).
    eauto.
  - intros (var & dots & Hm & Hc). exists dots. split; [|done].
    apply list_elem_of_fmap. exists (var, dots). by rewrite elem_of_map_to_list.
Qed.

Lemma union_values_union (m1 m2 : gmap DotsSet.t (gset Dot)) :
  dom m1 ## dom m2 →
  union_values (m1 ∪ m2) = union_values m1 ∪ union_values m2.
Proof.
  intros Hdisj%map_disjoint_dom. apply set_eq. intros c.
  rewrite elem_of_union, !elem_of_union_values.
  setoid_rewrite (lookup_union_Some m1 m2); [|done]. naive_solver.
Qed.

(** The inner search of [_is_small_empty_dots_in_domain]. *)
Lemma find_var_Some assignments domains found target var :
  find_var assignments domains found target = Some var →
  var ∈ dom domains ∧ var ∉ dom assignments ∧ var ∉ dom found
  ∧ target ∈ domains !!! var.
Proof.
  unfold find_var. intros [Hin Ht]%find_some.
  apply list_elem_of_In, elem_of_elements in Hin.
  apply bool_decide_eq_true in Ht. set_solver.
Qed.

Lemma find_var_None assignments domains found target var :
  find_var assignments domains found target = None →
  var ∈ dom domains → var ∉ dom assignments → var ∉ dom found →
  target ∉ domains !!! var.
Proof.
  unfold find_var. intros Hnone ????.
  eapply find_none in Hnone.
  - by apply bool_decide_eq_false in Hnone.
  - apply list_elem_of_In, elem_of_elements. set_solver.
Qed.

Lemma found_step_Some assignments domains found C var :
  find_var assignments domains found C = Some var →
  found_step assignments domains found C = <[var := C]> found.
Proof. unfold found_step. by intros ->. Qed.

Lemma found_step_None assignments domains found C :
  find_var assignments domains found C = None →
  found_step assignments domains found C = found.
Proof. unfold found_step. by intros ->. Qed.

Lemma found_fold assignments domains small : ∀ found0,
  let found := foldl (found_step assignments domains) found0 small in
  found0 ⊆ found
  ∧ (∀ var C, found !! var = Some C →
       found0 !! var = Some C
       ∨ (C ∈ small ∧ var ∈ dom domains ∧ var ∉ dom assignments
          ∧ C ∈ domains !!! var))
  ∧ (size found ≤ size found0 + length small)%nat
  ∧ ((size found = size found0 + length small)%nat →
       ∀ C, C ∈ small → ∃ var, found !! var = Some C).
Proof.
  induction small as [|C small IH]; intros found0; simpl.
  { split_and!; [done | by left | lia | by intros _ ? ?%elem_of_nil]. }
  destruct (IH (found_step assignments domains found0 C))
    as (Hsub & Hval & Hle & Hall).
  destruct (find_var assignments domains found0 C) as [v|] eqn:Hfind.
  - rewrite (found_step_Some _ _ _ _ _ Hfind) in *.
    apply find_var_Some in Hfind as (Hvd & Hva & Hvf%not_elem_of_dom & HC).
    rewrite map_size_insert_None in Hle, Hall by done.
    split_and!.
    + etrans; [|exact Hsub]. by apply insert_subseteq.
    + intros var C' [Hin|(?&?&?&?)]%Hval.
      * apply lookup_insert_Some in Hin as [[<- <-]|[_ ?]]; [right|by left].
        split_and!; [left|done..].
      * right. split_and!; [by right|done..].
    + lia.
    + intros Hsize C' [->|HC']%elem_of_cons.
      * exists v. eapply lookup_weaken; [|exact Hsub]. apply lookup_insert_eq.
      * apply Hall; [lia | done].
  - rewrite (found_step_None _ _ _ _ Hfind) in *.
    split_and!.
    + done.
    + intros var C' [?|(?&?&?&?)]%Hval; [by left|right].
      split_and!; [by right|done..].
    + lia.
    + intros Hsize. exfalso. lia.
Qed.

(** A target no unassigned variable can take is never found. *)
Lemma found_fold_miss assignments domains small C : ∀ found0,
  C ∈ small →
  (∀ var, var ∈ dom domains → var ∉ dom assignments → C ∉ domains !!! var) →
  (size (foldl (found_step assignments domains) found0 small)
   < size found0 + length small)%nat.
Proof.
  induction small as [|C' small IH]; intros found0 HC Hmiss; simpl.
  { by apply elem_of_nil in HC. }
  pose proof (found_fold assignments domains small
                (found_step assignments domains found0 C')) as (_ & _ & Hle & _).
  assert (size (found_step assignments domains found0 C') ≤ S (size found0))%nat
    as Hstep.
  { unfold found_step. destruct (find_var _ _ _ _) as [v|] eqn:Hfind; [|lia].
    apply find_var_Some in Hfind as (_ & _ & Hvf%not_elem_of_dom & _).
    by rewrite map_size_insert_None. }
  apply elem_of_cons in HC as [<-|HC].
  - assert (found_step assignments domains found0 C = found0) as Heq.
    { unfold found_step. destruct (find_var _ _ _ _) as [v|] eqn:Hfind; [|done].
      apply find_var_Some in Hfind as (? & ? & _ & ?). by destruct (Hmiss v). }
    rewrite Heq in Hle |- *. lia.
  - specialize (IH (found_step assignments domains found0 C') HC Hmiss). lia.
Qed.

Lemma valid_empty_dots_small remaining :
  (valid_empty_dots remaining).1 = true →
  (valid_empty_dots remaining).2 = small_sets remaining.
Proof. intros H. unfold valid_empty_dots in *. by rewrite valid_loop_small. Qed.

Lemma union_values_empty : union_values ∅ = ∅.
Proof. unfold union_values. by rewrite map_to_list_empty. Qed.

(** What [register_current_assignments] does, case by case. *)
Lemma register_cases a assignments domains :
  let cur := union_values assignments in
  let remaining := _empty_grids_dots a ∖ cur in
  let found := foldl (found_step assignments domains) ∅ (small_sets remaining) in
  ∃ a',
    register_current_assignments a assignments domains
    = (if (valid_empty_dots remaining).1
       then if decide (size found = length (small_sets remaining))
            then (true, found ∪ assignments, a')
            else (false, assignments, a')
       else (false, assignments, a'))
    ∧ _empty_grids_dots a' = _empty_grids_dots a
    ∧ _variables a' = _variables a
    ∧ _domains a' = _domains a
    ∧ ((valid_empty_dots remaining).1 = true →
       size found = length (small_sets remaining) →
       _current_assignments_dots a' = cur ∪ union_values found).
Proof.
  intros cur remaining found.
  unfold register_current_assignments, _is_valid_empty_dots.
  change (_empty_grids_dots (with_current a (union_values assignments))
          ∖ _current_assignments_dots (with_current a (union_values assignments)))
    with remaining.
  pose proof (valid_empty_dots_small remaining) as Hsmall.
  destruct (valid_empty_dots remaining) as [ok small]; simpl in *.
  destruct ok; [|eexists; split; [reflexivity|]; split_and!; done].
  rewrite Hsmall by done.
  unfold _is_small_empty_dots_in_domain; simpl.
  assert (found = foldl (found_step assignments domains) ∅ (small_sets remaining))
    as Hfound by done.
  clearbody found.
  destruct (small_sets remaining) as [|C small'] eqn:Hs; simpl in Hfound.
  - subst found. eexists. split.
    + rewrite decide_True by done. rewrite (left_id_L ∅ (∪)). reflexivity.
    + split_and!; try done. intros _ _. rewrite union_values_empty.
      by rewrite (right_id_L ∅ (∪)).
  - rewrite <-Hfound.
    case_decide; eexists.
    + split; [by rewrite decide_True by done|]. split_and!; done.
    + split; [by rewrite decide_False by done|]. split_and!; done.
Qed.

Lemma elem_of_small_sets remaining C :
  C ∈ small_sets remaining ↔ is_component remaining C ∧ (size C ≤ 5)%nat.
Proof.
  unfold small_sets. rewrite list_elem_of_filter.
  destruct (connected_dots_sets_spec remaining) as (_ & -> & _). tauto.
Qed.

Lemma found_sound assignments domains small var C :
  foldl (found_step assignments domains) ∅ small !! var = Some C →
  C ∈ small ∧ var ∈ dom domains ∧ var ∉ dom assignments ∧ C ∈ domains !!! var.
Proof.
  pose proof (found_fold assignments domains small ∅) as (_ & Hval & _).
  intros [Hin|?]%Hval; [|done]. by rewrite lookup_empty in Hin.
Qed.

Lemma found_disjoint assignments domains small :
  dom (foldl (found_step assignments domains) ∅ small) ## dom assignments.
Proof.
  intros var [C HC]%elem_of_dom Hvar.
  by apply found_sound in HC as (_ & _ & ? & _).
Qed.


Lemma register_extends a assignments domains ok assignments' a' :
  register_current_assignments a assignments domains = (ok, assignments', a') →
  assignments ⊆ assignments'.
Proof.
  intros Hreg.
  destruct (register_cases a assignments domains) as (a0 & Heq & _).
  rewrite Hreg in Heq.
  destruct (valid_empty_dots _).1; [|by injection Heq as _ ->].
  case_decide; injection Heq as _ -> _; [|done].
  apply map_union_subseteq_r, map_disjoint_dom, found_disjoint.
Qed.
End register_facts.

(** ** The backtracking search *)

Lemma min_by_None {A} (key : A → nat) (l : list A) :
  min_by key l = None ↔ l = [].
Proof. by destruct l. Qed.

Lemma min_by_Some {A} (key : A → nat) (l : list A) (x : A) :
  min_by key l = Some x → x ∈ l.
Proof.
  destruct l as [|y l]; [done|]. simpl. intros [= <-].
  revert y. induction l as [|z l IH]; intros y; simpl; [left|].
  destruct (key z <? key y)%nat.
  - right. apply IH.
  - specialize (IH y). apply elem_of_cons in IH as [->|?];
      [left | right; by right].
Qed.

Section solver_facts.
Context {V D St : Type} `{Countable V, Countable D} `{!CSP V D St}.
Import CSPSolver.

Implicit Types (a : gmap V D) (d : gmap V (gset D)) (st : St).

Lemma undo_restore a m : a ⊆ m → undo (dom a) m = a.
Proof.
  intros Hsub. apply map_eq. intros k. apply option_eq. intros x.
  unfold undo. rewrite map_lookup_filter_Some; simpl. split.
  - intros [Hm [y Hy]%elem_of_dom].
    by rewrite (lookup_weaken _ _ _ _ Hy Hsub) in Hm; simplify_eq.
  - intros Ha. split; [by eapply lookup_weaken|]. by apply elem_of_dom.
Qed.

Lemma undo_dom (old : gset V) a : dom (undo old a) = dom a ∩ old.
Proof.
  apply set_eq. intros k. unfold undo.
  rewrite elem_of_intersection, !elem_of_dom. unfold is_Some.
  setoid_rewrite map_lookup_filter_Some. naive_solver.
Qed.

Lemma select_unassigned_variable_Some a d var :
  select_unassigned_variable a d = Some var → var ∈ dom d ∧ var ∉ dom a.
Proof.
  unfold select_unassigned_variable.
  intros Hin%min_by_Some%elem_of_elements. set_solver.
Qed.

Lemma select_unassigned_variable_None a d :
  select_unassigned_variable a d = None → dom d ⊆ dom a.
Proof.
  unfold select_unassigned_variable.
  intros Hnil%min_by_None%elements_empty_inv. set_solver.
Qed.

Lemma filter_domains_spec st d vars : ∀ nd0 nd,
  filter_domains st d vars nd0 = Some nd →
  (∀ var, nd !! var = if decide (var ∈ vars)
                      then Some (consistent_values st d var)
                      else nd0 !! var)
  ∧ (∀ var, var ∈ vars → consistent_values st d var ≠ ∅).
Proof.
  induction vars as [|v vars IH]; intros nd0 nd; cbn [filter_domains].
  { intros [= <-]. split; [|by intros ? ?%elem_of_nil].
    intros var. by rewrite decide_False by apply not_elem_of_nil. }
  fold (consistent_values st d v). case_decide as Hv; [done|].
  intros [Hlook Hne]%IH. split.
  - intros var. rewrite Hlook.
    destruct (decide (var ∈ vars)) as [Hin|Hnin].
    + rewrite decide_True; [done | by right].
    + destruct (decide (var = v)) as [->|Hneq].
      * rewrite decide_True by left. by rewrite lookup_insert_eq.
      * rewrite decide_False; [by rewrite lookup_insert_ne|].
        by intros [?|?]%elem_of_cons.
  - intros var [->|?]%elem_of_cons; auto.
Qed.

Lemma forward_check_register st a d nd a' st' :
  forward_check st a d = (nd, a', st') →
  ∃ ok, register_current_assignments st a d = (ok, a', st')
        ∧ (ok = false → nd = None).
Proof.
  unfold forward_check.
  destruct (register_current_assignments st a d) as [[ok a1] st1].
  destruct ok; intros [= <- <- <-]; (eexists; split; [reflexivity|done]).
Qed.

Lemma forward_check_Some st a d nd a' st' :
  forward_check st a d = (Some nd, a', st') →
  register_current_assignments st a d = (true, a', st')
  ∧ dom nd = dom d ∖ dom a'
  ∧ ∀ var vals, nd !! var = Some vals →
      vals = consistent_values st' d var ∧ vals ≠ ∅.
Proof.
  unfold forward_check.
  destruct (register_current_assignments st a d) as [[ok a1] st1].
  destruct ok; [|done]. intros [= Hfilter <- <-].
  apply filter_domains_spec in Hfilter as [Hlook Hne].
  split; [done|]. split.
  - apply set_eq. intros var. rewrite elem_of_dom, Hlook.
    case_decide as Hin; rewrite elem_of_elements in Hin.
    + split; [done | eauto].
    + rewrite lookup_empty. split; [by intros [??] | done].
  - intros var vals. rewrite Hlook. case_decide as Hin; [|by rewrite lookup_empty].
    intros [= <-]. auto.
Qed.
End solver_facts.

(** *** Problems whose [register_current_assignments] only adds entries *)
Section extends.
Context {V D St : Type} `{Countable V, Countable D} `{!CSP V D St}.
Import CSPSolver.

Implicit Types (a : gmap V D) (d : gmap V (gset D)) (st : St).

Hypothesis register_extends : ∀ st a d ok a' st',
  register_current_assignments st a d = (ok, a', st') → a ⊆ a'.

Lemma forward_check_extends st a d nd a' st' :
  forward_check st a d = (nd, a', st') → a ⊆ a'.
Proof.
  intros (ok & Hreg & _)%forward_check_register. by eapply register_extends.
Qed.

Lemma try_values_extends
    (rec : St → gmap V D → option (gmap V (gset D)) → outcome search)
    var d vals :
  (∀ st a doms r, rec st a doms = Return r → a ⊆ dict_of r) →
  ∀ st a r, a !! var = None →
    try_values rec var (dom a) d vals st a = Return r → a ⊆ dict_of r.
Proof.
  intros Hrec. induction vals as [|val vals IH]; intros st a r Hvar; simpl.
  { by intros [= <-]. }
  destruct (forward_check st (<[var:=val]> a) d) as [[nd a1] st1] eqn:Hfc.
  apply forward_check_extends in Hfc.
  destruct (rec st1 a1 nd) as [r0| |] eqn:Hr0; [|done..].
  apply Hrec in Hr0.
  assert (a ⊆ dict_of r0) as Hsub.
  { etrans; [|exact Hr0]. etrans; [|exact Hfc]. by apply insert_subseteq. }
  destruct (truthy r0).
  - by intros [= <-].
  - rewrite (undo_restore a (dict_of r0)) by done. by apply IH.
Qed.

Lemma back_tracking_search_extends fuel n : ∀ st a doms r,
  back_tracking_search fuel n st a doms = Return r → a ⊆ dict_of r.
Proof.
  induction fuel as [|fuel IH]; intros st a doms r; simpl; [done|].
  case_decide; [by intros [= <-]|].
  destruct doms as [d|]; [|by intros [= <-]].
  case_decide; [by intros [= <-]|].
  destruct (select_unassigned_variable a d) as [var|] eqn:Hsel; [|done].
  apply select_unassigned_variable_Some in Hsel as [_ Hvar%not_elem_of_dom].
  by apply try_values_extends.
Qed.

(** C8: in [back_tracking_search], when the recursive call for a value of the
    selected variable comes back without a solution, the assignments the next
    value is tried with have exactly the keys the call began with: the keys
    added in between (the value tried and what forward checking inferred) are
    gone, the former entries are unchanged, and the loop goes on with the
    remaining values from there. *)
Theorem undo_restores_assignments (fuel n : nat) st a d var val vals nd a1 st1 r :
  select_unassigned_variable a d = Some var →
  forward_check st (<[var := val]> a) d = (nd, a1, st1) →
  back_tracking_search fuel n st1 a1 nd = Return r →
  truthy r = false →
  let restored := undo (dom a) (dict_of r) in
  dom restored = dom a
  ∧ (∀ k, k ∈ dom (dict_of r) → k ∉ dom a → restored !! k = None)
  ∧ (∀ k, k ∈ dom a → restored !! k = a !! k)
  ∧ try_values (back_tracking_search fuel n) var (dom a) d (val :: vals) st a
    = try_values (back_tracking_search fuel n) var (dom a) d vals
                 (csp_of r) restored.
Proof.
  intros [_ Hvar%not_elem_of_dom]%select_unassigned_variable_Some Hfc Hr Hfail.
  assert (a ⊆ dict_of r) as Hsub.
  { etrans; [by apply (insert_subseteq a var val)|].
    etrans; [by eapply forward_check_extends|].
    by eapply back_tracking_search_extends. }
  simpl. rewrite (undo_restore a (dict_of r) Hsub).
  split_and!; [done| |done|].
  - intros k _ Hk. by apply not_elem_of_dom.
  - by rewrite Hfc, Hr, Hfail, (undo_restore a (dict_of r) Hsub).
Qed.
End extends.

Section lawful.
Context {V D St : Type} `{Countable V, Countable D} `{!CSP V D St}.
Import CSPSolver.

Implicit Types (a : gmap V D) (d : gmap V (gset D)) (st : St).

Variable compat : D → D → Prop.
Hypothesis Hlaw : lawful compat.

Lemma lawful_extends st a d ok a' st' :
  register_current_assignments st a d = (ok, a', st') → a ⊆ a'.
Proof. intros Hreg. by destruct (register_adds compat Hlaw _ _ _ _ _ _ Hreg). Qed.

(** **** The search returns *)

Lemma try_values_returns
    (rec : St → gmap V D → option (gmap V (gset D)) → outcome search)
    (fuel : nat) var d vals :
  (size d ≤ fuel)%nat → d ≠ ∅ →
  (∀ st a doms r, rec st a doms = Return r → a ⊆ dict_of r) →
  (∀ st a doms,
     (∀ d', doms = Some d' → (size d' < fuel)%nat ∧ dom d' ## dom a) →
     ∃ r, rec st a doms = Return r) →
  ∀ st a, a !! var = None → var ∈ dom d →
    ∃ r, try_values rec var (dom a) d vals st a = Return r.
Proof.
  intros Hfuel Hne Hext Hrec.
  induction vals as [|val vals IH]; intros st a Hvar Hvd; simpl; [eauto|].
  destruct (forward_check st (<[var:=val]> a) d) as [[nd a1] st1] eqn:Hfc.
  pose proof (forward_check_extends lawful_extends _ _ _ _ _ _ Hfc) as Hsub.
  destruct (Hrec st1 a1 nd) as [r0 Hr0].
  { intros nd' ->. apply forward_check_Some in Hfc as (_ & Hdom & _).
    split; [|set_solver].
    assert (var ∈ dom a1) as Hin.
    { apply elem_of_dom. exists val. eapply lookup_weaken; [|exact Hsub].
      apply lookup_insert_eq. }
    rewrite <-!size_dom, Hdom in *.
    assert (dom d ∖ dom a1 ⊂ dom d) as Hlt%subset_size by set_solver. lia. }
  rewrite Hr0. destruct (truthy r0); [eauto|].
  rewrite (undo_restore a (dict_of r0)); [by apply IH|].
  etrans; [|by eapply Hext]. etrans; [|exact Hsub]. by apply insert_subseteq.
Qed.

Lemma back_tracking_search_returns fuel n : ∀ st a doms,
  (0 < fuel)%nat →
  (∀ d, doms = Some d → (size d < fuel)%nat ∧ dom d ## dom a) →
  ∃ r, back_tracking_search fuel n st a doms = Return r.
Proof.
  induction fuel as [|fuel IH]; intros st a doms Hpos Hdoms; [lia|]. simpl.
  case_decide; [eauto|]. destruct doms as [d|]; [|eauto].
  case_decide as Hne; [eauto|].
  destruct (Hdoms d eq_refl) as [Hsize Hdisj].
  assert (0 < size d)%nat as Hdpos.
  { destruct (decide (size d = 0)%nat) as [->%map_size_empty_inv|]; [done|lia]. }
  destruct (select_unassigned_variable a d) as [var|] eqn:Hsel.
  - apply select_unassigned_variable_Some in Hsel as [Hvd Hvar%not_elem_of_dom].
    apply (try_values_returns _ fuel); try done; [lia| |].
    + apply (back_tracking_search_extends lawful_extends).
    + intros st' a' doms' Hd'. apply IH; [lia|done].
  - apply select_unassigned_variable_None in Hsel.
    exfalso. apply Hne, dom_empty_iff_L. set_solver.
Qed.
End lawful.

Section sound.
Context {V D St : Type} `{Countable V, Countable D} `{!CSP V D St}.
Import CSPSolver.

Implicit Types (a : gmap V D) (d : gmap V (gset D)) (st : St).

Variable compat : D → D → Prop.
Hypothesis Hlaw : lawful compat.

(** The initial domains. *)
Variable D0 : gmap V (gset D).

Lemma forward_check_good st a d var val nd a1 st1 :
  good compat D0 a → live compat D0 a d → var ∈ dom d → val ∈ d !!! var →
  forward_check st (<[var := val]> a) d = (nd, a1, st1) →
  good compat D0 a1 ∧ ∀ nd', nd = Some nd' → live compat D0 a1 nd'.
Proof.
  intros [Hdom Hpair] (Hdisj & HD0 & Hlive) Hvar Hval Hfc.
  pose proof Hfc as (ok & Hreg & _)%forward_check_register.
  destruct (register_adds compat Hlaw _ _ _ _ _ _ Hreg) as [Hsub Hnew].
  assert (∀ v x, <[var:=val]> a !! v = Some x →
            (v ∈ dom D0 ∧ x ∈ D0 !!! v)
            ∧ ∀ v' x', <[var:=val]> a !! v' = Some x' → v' ≠ v → compat x x')
    as Hins.
  { intros v x [[<- <-]|[Hne Hv]]%lookup_insert_Some.
    - split; [split; [by apply HD0 | by apply Hlive]|].
      intros v' x' [[<- _]|[_ Hv']]%lookup_insert_Some ?; [done|].
      by eapply Hlive.
    - split; [by apply Hdom|].
      intros v' x' [[<- <-]|[_ Hv']]%lookup_insert_Some ?.
      + apply (compat_sym compat Hlaw). by eapply Hlive.
      + apply (Hpair v v'); [by apply not_eq_sym|done..]. }
  assert (good compat D0 a1) as Hgood.
  { split.
    - intros v x [Hold|(Hvd & Hx & _)]%Hnew; [by apply Hins|].
      split; [by apply HD0 | by apply Hlive].
    - intros v1 v2 x1 x2 Hne H1 H2.
      destruct (Hnew _ _ H1) as [Hold1|(_ & _ & Hc1)];
        [|by apply (Hc1 v2), not_eq_sym].
      destruct (Hnew _ _ H2) as [Hold2|(_ & _ & Hc2)].
      + destruct (Hins _ _ Hold1) as [_ Hc]. by apply (Hc v2), not_eq_sym.
      + apply (compat_sym compat Hlaw). by apply (Hc2 v1). }
  split; [done|]. intros nd' ->.
  apply forward_check_Some in Hfc as (Hreg' & Hdom' & Hvals).
  split; [set_solver|]. split; [set_solver|].
  intros v x Hv Hx. apply elem_of_dom in Hv as Hv'. destruct Hv' as [vals Hlook].
  rewrite (lookup_total_correct _ _ _ Hlook) in Hx.
  destruct (Hvals _ _ Hlook) as [-> _].
  apply elem_of_filter in Hx as [Hcons Hx].
  split.
  - apply Hlive; [set_solver|done].
  - by eapply (consistent_sound compat Hlaw).
Qed.

Lemma truthy_found (r : search (V:=V) (D:=D) (St:=St)) :
  truthy r = true → found r = true.
Proof. unfold truthy. by intros [? _]%andb_true_iff. Qed.

Lemma try_values_sound
    (rec : St → gmap V D → option (gmap V (gset D)) → outcome search)
    (n : nat) var d vals :
  (∀ st a doms r, rec st a doms = Return r → a ⊆ dict_of r) →
  (∀ st a doms r, good compat D0 a → (∀ d', doms = Some d' → live compat D0 a d') →
     rec st a doms = Return r → found r = true →
     good compat D0 (dict_of r) ∧ size (dict_of r) = n) →
  ∀ st a r, good compat D0 a → live compat D0 a d → var ∈ dom d → a !! var = None →
    (∀ val, val ∈ vals → val ∈ d !!! var) →
    try_values rec var (dom a) d vals st a = Return r → found r = true →
    good compat D0 (dict_of r) ∧ size (dict_of r) = n.
Proof.
  intros Hext Hrec.
  induction vals as [|val vals IH]; intros st a r Hgood Hlive Hvd Hvar Hvals;
    simpl.
  { by intros [= <-]. }
  destruct (forward_check st (<[var:=val]> a) d) as [[nd a1] st1] eqn:Hfc.
  assert (val ∈ d !!! var) as Hval by (apply Hvals; left).
  destruct (forward_check_good _ _ _ _ _ _ _ _ Hgood Hlive Hvd Hval Hfc)
    as [Hgood1 Hlive1].
  pose proof (forward_check_extends (lawful_extends compat Hlaw) _ _ _ _ _ _ Hfc)
    as Hsub.
  destruct (rec st1 a1 nd) as [r0| |] eqn:Hr0; [|done..].
  destruct (truthy r0) eqn:Htruthy.
  - intros [= <-] _. eapply Hrec; [exact Hgood1|exact Hlive1|exact Hr0|].
    by apply truthy_found.
  - rewrite (undo_restore a (dict_of r0)).
    + apply IH; try done. intros ??. apply Hvals. by right.
    + etrans; [|by eapply Hext]. etrans; [|exact Hsub]. by apply insert_subseteq.
Qed.

Lemma back_tracking_search_sound fuel n : ∀ st a doms r,
  good compat D0 a → (∀ d, doms = Some d → live compat D0 a d) →
  back_tracking_search fuel n st a doms = Return r → found r = true →
  good compat D0 (dict_of r) ∧ size (dict_of r) = n.
Proof.
  induction fuel as [|fuel IH]; intros st a doms r Hgood Hlive; simpl; [done|].
  case_decide; [by intros [= <-]|].
  destruct doms as [d|]; [|by intros [= <-]].
  case_decide; [by intros [= <-]|].
  destruct (select_unassigned_variable a d) as [var|] eqn:Hsel; [|done].
  apply select_unassigned_variable_Some in Hsel as [Hvd Hvar%not_elem_of_dom].
  apply try_values_sound; try done.
  - apply (back_tracking_search_extends (lawful_extends compat Hlaw)).
  - by apply Hlive.
  - intros val. by rewrite elem_of_elements.
Qed.
End sound.

Section call.
Context {V D St : Type} `{Countable V, Countable D} `{!CSP V D St}.
Import CSPSolver.

Implicit Types (a : gmap V D) (d : gmap V (gset D)) (st : St).


(** With no variable the loop over the domains finds nothing and the search
    returns the empty dictionary at once. *)
Lemma call_no_variables (st : St) (fuel : nat) :
  variables st = ∅ → dom (domains st) ⊆ variables st →
  call (S fuel) st = Return (Some ∅, st).
Proof.
  intros Hvars Hdom. unfold call.
  assert (domains st = ∅) as Hd.
  { apply dom_empty_iff_L. set_solver. }
  rewrite decide_False.
  - simpl. rewrite Hvars, size_empty, decide_True by apply map_size_empty. done.
  - rewrite Hd. intros (v & x & Hv & _). by rewrite lookup_empty in Hv.
Qed.

(** With no domain at all the search stops before it selects a variable. *)
Lemma call_no_domains (st : St) (fuel : nat) :
  domains st = ∅ →
  call (S fuel) st
  = Return (if decide (variables st = ∅) then Some ∅ else None, st).
Proof.
  intros Hd. unfold call. rewrite decide_False.
  - simpl. rewrite map_size_empty. case_decide as Hsz.
    + symmetry in Hsz. apply size_empty_inv, leibniz_equiv in Hsz.
      by rewrite decide_True.
    + rewrite (decide_True (P := domains st = ∅)) by done.
      rewrite (decide_False (P := variables st = ∅)); [done|].
      intros Hv. by rewrite Hv, size_empty in Hsz.
  - rewrite Hd. intros (v & x & Hv & _). by rewrite lookup_empty in Hv.
Qed.
End call.

(** ** The adapter keeps the contract of the interface *)

Section adapter_contract.
Import QuadrillionCSPAdapter.

Lemma found_fold_inj assignments domains small : ∀ found0,
  NoDup small →
  (∀ var C, found0 !! var = Some C → C ∉ small) →
  ∀ v1 v2 C,
    foldl (found_step assignments domains) found0 small !! v1 = Some C →
    foldl (found_step assignments domains) found0 small !! v2 = Some C →
    v1 = v2 ∨ (found0 !! v1 = Some C ∧ found0 !! v2 = Some C).
Proof.
  induction small as [|C0 small IH]; intros found0 Hnd Hfresh v1 v2 C; simpl.
  { by right. }
  apply NoDup_cons in Hnd as [HC0 Hnd].
  intros H1 H2.
  destruct (find_var assignments domains found0 C0) as [v|] eqn:Hfind.
  - rewrite (found_step_Some _ _ _ _ _ Hfind) in H1, H2.
    destruct (IH (<[v:=C0]> found0) Hnd) with (v1:=v1) (v2:=v2) (C:=C)
      as [?|[Hl1 Hl2]]; [|done..|by left|].
    { intros var C' [[_ <-]|[_ Hold]]%lookup_insert_Some; [done|].
      intros ?. apply (Hfresh _ _ Hold). by right. }
    apply lookup_insert_Some in Hl1 as [[<- <-]|[Hne1 Hl1]];
      apply lookup_insert_Some in Hl2 as [[<- Heq]|[Hne2 Hl2]].
    + by left.
    + exfalso. apply (Hfresh _ _ Hl2). left.
    + subst C. exfalso. apply (Hfresh _ _ Hl1). left.
    + by right.
  - rewrite (found_step_None _ _ _ _ Hfind) in H1, H2.
    apply (IH found0); try done.
    intros var C' Hold ?. apply (Hfresh _ _ Hold). by right.
Qed.

Lemma small_sets_NoDup remaining : NoDup (small_sets remaining).
Proof.
  apply NoDup_filter. by destruct (connected_dots_sets_spec remaining).
Qed.

Lemma small_sets_disjoint remaining A B :
  A ∈ small_sets remaining → B ∈ small_sets remaining → A ≠ B → A ## B.
Proof.
  intros [HA _]%elem_of_small_sets [HB _]%elem_of_small_sets Hne.
  by destruct (is_component_eq_or_disjoint remaining A B).
Qed.

Lemma small_sets_sub remaining C : C ∈ small_sets remaining → C ⊆ remaining.
Proof. intros [HC _]%elem_of_small_sets. by eapply is_component_sub. Qed.

Lemma union_values_sub (m : gmap DotsSet.t (gset Dot)) var dots :
  m !! var = Some dots → dots ⊆ union_values m.
Proof. intros Hm c Hc. apply elem_of_union_values. eauto. Qed.

(** After it has accepted, the committed dots are those of the dictionary. *)
Lemma register_true_current a assignments domains assignments' a' :
  register_current_assignments a assignments domains = (true, assignments', a') →
  _current_assignments_dots a' = union_values assignments'.
Proof.
  intros Hreg.
  destruct (register_cases a assignments domains) as (a0 & Heq & _ & _ & _ & Hcur).
  rewrite Hreg in Heq.
  destruct (valid_empty_dots _).1; [|done].
  case_decide as Hsize; [|done]. injection Heq as -> ->.
  rewrite Hcur by done.
  rewrite union_values_union by apply found_disjoint.
  apply (comm_L (∪)).
Qed.

(** The adapter keeps the contract of the interface, for dots that must not
    overlap. *)
Lemma adapter_lawful : lawful (V:=DotsSet.t) (D:=gset Dot) (St:=t) (##).
Proof.
  split.
  - intros x y. apply symmetry.
  - intros a assignments domains ok assignments' a' Hreg.
    split; [by eapply register_extends|].
    change (register_current_assignments a assignments domains
            = (ok, assignments', a')) in Hreg.
    destruct (register_cases a assignments domains) as (a0 & Heq & _).
    rewrite Hreg in Heq.
    set (remaining := _empty_grids_dots a ∖ union_values assignments) in *.
    set (found := foldl (found_step assignments domains) ∅ (small_sets remaining))
      in *.
    assert (assignments' = assignments ∨ assignments' = found ∪ assignments)
      as [->| ->].
    { destruct (valid_empty_dots _).1; [|left; congruence].
      case_decide; [right|left]; congruence. }
    { intros v x ?. by left. }
    intros v x [Hf|[_ Hold]]%lookup_union_Some_raw; [right|by left].
    pose proof Hf as (HC & Hvd & Hva & Hx)%found_sound.
    split; [done|]. split; [done|].
    intros v' x' [Hf'|[_ Hold']]%lookup_union_Some_raw Hne.
    + pose proof Hf' as (HC' & _)%found_sound.
      apply (small_sets_disjoint remaining); [done..|].
      intros ->. destruct (found_fold_inj assignments domains
        (small_sets remaining) ∅ (small_sets_NoDup _)) with (v1:=v) (v2:=v') (C:=x')
        as [?|[Hl _]]; [by intros ?? ?%lookup_empty_Some|done..|congruence|].
      by rewrite lookup_empty in Hl.
    + apply small_sets_sub in HC. apply union_values_sub in Hold'.
      unfold remaining in HC. set_solver.
  - intros a assignments domains assignments' a' v val Hreg Hcons v' x' Hx'.
    change (register_current_assignments a assignments domains
            = (true, assignments', a')) in Hreg.
    apply register_true_current in Hreg.
    change (bool_decide (_current_assignments_dots a' ## val) = true) in Hcons.
    apply bool_decide_eq_true in Hcons. rewrite Hreg in Hcons.
    apply union_values_sub in Hx'. set_solver.
Qed.
End adapter_contract.

(** ** Forward checking on the puzzle *)

Section forward_checking.
Import QuadrillionCSPAdapter.

(** C2: when [forward_check] does not report failure, the dots recorded as
    covered are those of the assignments it leaves (the ones it was given and
    the ones inferred while registering them), the filtered domains are those
    of the variables still unassigned, and every value left in such a domain
    was in the domain before and is disjoint from all the dots covered. *)
Theorem forward_check_disjoint
    (a : t) (assignments : gmap DotsSet.t (gset Dot))
    (domains new_domains : gmap DotsSet.t (gset (gset Dot)))
    (assignments' : gmap DotsSet.t (gset Dot)) (a' : t) :
  CSPSolver.forward_check a assignments domains
  = (Some new_domains, assignments', a') →
  _current_assignments_dots a' = union_values assignments'
  ∧ dom new_domains = dom domains ∖ dom assignments'
  ∧ ∀ var val, var ∉ dom assignments' → val ∈ new_domains !!! var →
      val ∈ domains !!! var ∧ val ## union_values assignments'.
Proof.
  intros (Hreg & Hdom & Hvals)%forward_check_Some.
  change (register_current_assignments a assignments domains
          = (true, assignments', a')) in Hreg.
  apply register_true_current in Hreg. split; [done|]. split; [done|].
  intros var val _ Hval.
  destruct (new_domains !! var) as [vals|] eqn:Hlook.
  - rewrite (lookup_total_correct _ _ _ Hlook) in Hval.
    destruct (Hvals _ _ Hlook) as [-> _].
    apply elem_of_filter in Hval as [Hcons Hval]. split; [done|].
    change (bool_decide (_current_assignments_dots a' ## val) = true) in Hcons.
    apply bool_decide_eq_true in Hcons. by rewrite <-Hreg.
  - rewrite lookup_total_alt, Hlook in Hval. by apply elem_of_empty in Hval.
Qed.

Lemma valid_loop_false nr sets : ∀ small,
  (valid_loop nr sets small).1 = false
  ↔ ∃ C, C ∈ sets
         ∧ _is_valid_nr_empty_connected_dots nr (Z.of_nat (size C)) = false.
Proof.
  induction sets as [|C sets IH]; intros small; cbn [valid_loop].
  { split; [done|]. by intros (? & ?%elem_of_nil & _). }
  destruct (_is_valid_nr_empty_connected_dots nr (Z.of_nat (size C))) eqn:HC;
    cbn [negb].
  - assert (∀ small', (valid_loop nr sets small').1 = false ↔
        ∃ C0, C0 ∈ C :: sets
          ∧ _is_valid_nr_empty_connected_dots nr (Z.of_nat (size C0)) = false)
      as Hrest.
    { intros small'. rewrite IH. split.
      - intros (C0 & ? & ?). exists C0. split; [by right|done].
      - intros (C0 & [->|?]%elem_of_cons & HC0); [congruence|eauto]. }
    case_decide; apply Hrest.
  - split; [|done]. intros _. exists C. split; [left|done].
Qed.

Lemma valid_empty_dots_false E :
  (valid_empty_dots E).1 = false ↔
  ∃ C, is_component E C
       ∧ _is_valid_nr_empty_connected_dots (Z.of_nat (size E)) (Z.of_nat (size C))
         = false.
Proof.
  unfold valid_empty_dots. rewrite valid_loop_false.
  destruct (connected_dots_sets_spec E) as (_ & Hin & _).
  split; intros (C & HC & Hbad); exists C; (split; [by apply Hin|done]).
Qed.

(** C4: when the check of the empty dots fails, some connected component of
    them has a size the rule on sizes rejects, [_extract_domains] returns the
    empty dictionary whatever the shapes are, and the solver called with
    these domains returns at once, without selecting a variable: [None] when
    there is a shape to place, the empty assignment when there is none. *)
Theorem infeasible_aborts (a : t) :
  (valid_empty_dots (_empty_grids_dots a)).1 = false →
  (∃ C, is_component (_empty_grids_dots a) C
        ∧ _is_valid_nr_empty_connected_dots
            (Z.of_nat (size (_empty_grids_dots a))) (Z.of_nat (size C)) = false)
  ∧ (∀ vars, _extract_domains (with_problem a vars (_empty_grids_dots a)) = Ok ∅)
  ∧ (∀ fuel, CSPSolver.call (S fuel) (with_domains a ∅)
             = Return (if decide (_variables a = ∅) then Some ∅ else None,
                       with_domains a ∅)).
Proof.
  intros Hrej. split; [by apply valid_empty_dots_false|]. split.
  - intros vars. unfold _extract_domains; simpl. by rewrite Hrej.
  - intros fuel. by rewrite call_no_domains.
Qed.
End forward_checking.

(** ** Domains *)

Section domain_facts.
Import QuadrillionCSPAdapter.

Lemma elem_of_range a b z : z ∈ DotsGrid.range a b ↔ a ≤ z ∧ z < b.
Proof.
  unfold DotsGrid.range. rewrite list_elem_of_fmap. split.
  - intros (i & -> & Hi%elem_of_seq). lia.
  - intros [Ha Hb]. exists (Z.to_nat (z - a)). split; [lia|].
    apply elem_of_seq. lia.
Qed.

Lemma elem_of_grid y hh x ww (d : Dot) :
  d ∈ (list_to_set (h ← DotsGrid.range y hh;
                    w ← DotsGrid.range x ww; [(h, w)]) : gset Dot)
  ↔ (y ≤ d.1 ∧ d.1 < hh) ∧ (x ≤ d.2 ∧ d.2 < ww).
Proof.
  rewrite elem_of_list_to_set, list_elem_of_bind. split.
  - intros (h & (w & ->%list_elem_of_singleton & Hw%elem_of_range)%list_elem_of_bind
              & Hh%elem_of_range). done.
  - intros [Hh Hw]. exists d.1. split; [|by apply elem_of_range].
    apply list_elem_of_bind. exists d.2. split; [|by apply elem_of_range].
    destruct d. by apply list_elem_of_singleton.
Qed.

Lemma smallest_rectangle dots :
  dots ≠ ∅ →
  ∃ R y x my mx,
    _get_smallest_square_over_dots dots = Ok R
    ∧ min_of (ys dots) = Some y ∧ min_of (xs dots) = Some x
    ∧ max_of (ys dots) = Some my ∧ max_of (xs dots) = Some mx
    ∧ (∀ d : Dot, d ∈ R ↔ (y ≤ d.1 ∧ d.1 ≤ my) ∧ (x ≤ d.2 ∧ d.2 ≤ mx))
    ∧ dots ⊆ R
    ∧ (∀ R', is_rectangle R' → dots ⊆ R' → R ⊆ R').
Proof.
  intros Hne. unfold _get_smallest_square_over_dots.
  assert (∃ d l, elements dots = d :: l) as (d0 & l & Hel).
  { destruct (elements dots) eqn:E; [|eauto].
    by apply elements_empty_inv, leibniz_equiv in E. }
  destruct (min_of (ys dots)) as [y|] eqn:Hy; [|by unfold ys in Hy; rewrite Hel in Hy].
  destruct (min_of (xs dots)) as [x|] eqn:Hx; [|by unfold xs in Hx; rewrite Hel in Hx].
  destruct (max_of (ys dots)) as [my|] eqn:Hmy; [|by unfold ys in Hmy; rewrite Hel in Hmy].
  destruct (max_of (xs dots)) as [mx|] eqn:Hmx; [|by unfold xs in Hmx; rewrite Hel in Hmx].
  eexists _, y, x, my, mx. split; [reflexivity|]. do 4 (split; [reflexivity|]).
  apply min_of_Some in Hy as [Hyin Hylow], Hx as [Hxin Hxlow].
  apply max_of_Some in Hmy as [Hmyin Hyup], Hmx as [Hmxin Hxup].
  assert (∀ d : Dot, d ∈ dots → (y ≤ d.1 ∧ d.1 ≤ my) ∧ (x ≤ d.2 ∧ d.2 ≤ mx))
    as Hbound.
  { intros [a b] Hd; cbn [fst snd].
    assert (a ∈ ys dots) as Ha by (apply elem_of_ys; eauto).
    assert (b ∈ xs dots) as Hb by (apply elem_of_xs; eauto).
    specialize (Hylow _ Ha). specialize (Hyup _ Ha).
    specialize (Hxlow _ Hb). specialize (Hxup _ Hb). lia. }
  split; [intros d; rewrite elem_of_grid; lia|]. split.
  - intros d Hd%Hbound. apply elem_of_grid. lia.
  - intros R' (y' & x' & my' & mx' & HR') Hsub d Hd%elem_of_grid.
    apply elem_of_ys in Hyin as [xa Hya], Hmyin as [xb Hyb].
    apply elem_of_xs in Hxin as [yc Hxc], Hmxin as [yd Hxd].
    apply Hsub, HR' in Hya, Hyb, Hxc, Hxd. cbn [fst snd] in *.
    apply HR'. lia.
Qed.

Lemma elem_of_domain_of a square variable dots :
  dots ∈ domain_of a square variable ↔
  ∃ loc config,
    loc ∈ square ∧ config ∈ DotsSet.get_unique_configs_at variable loc
    ∧ dots = DotsSet.configured variable config
    ∧ dots ⊆ _empty_grids_dots a
    ∧ (valid_empty_dots (_empty_grids_dots a ∖ dots)).1 = true.
Proof.
  unfold domain_of. rewrite elem_of_list_to_set, list_elem_of_bind. split.
  - intros (loc & (config & Hin & Hcfg%elem_of_elements)%list_elem_of_bind
              & Hloc%elem_of_elements).
    exists loc, config.
    destruct (_is_on_empty_dots a _ && _) eqn:Hok;
      [|by apply elem_of_nil in Hin].
    apply list_elem_of_singleton in Hin as ->.
    apply andb_true_iff in Hok as [Hon%bool_decide_eq_true Hvalid].
    by repeat split.
  - intros (loc & config & Hloc & Hcfg & -> & Hon & Hvalid).
    exists loc. split; [|by apply elem_of_elements].
    apply list_elem_of_bind. exists config. split; [|by apply elem_of_elements].
    unfold _is_on_empty_dots. rewrite bool_decide_eq_true_2 by exact Hon.
    rewrite Hvalid. by apply list_elem_of_singleton.
Qed.

(** C5: for dots that are not empty, [_get_smallest_square_over_dots] returns
    the least rectangle of the grid that contains them, rows and columns
    taken apart; and when the empty dots pass the check, [_extract_domains]
    gives every variable the sets of dots that one of its unique configs at a
    location of this rectangle produces, that lie within the empty dots and
    leave empty dots that pass the check again. *)
Theorem domains_over_bounding_rectangle :
  (∀ dots : gset Dot, dots ≠ ∅ →
     ∃ R, _get_smallest_square_over_dots dots = Ok R
          ∧ is_rectangle R ∧ dots ⊆ R
          ∧ ∀ R', is_rectangle R' → dots ⊆ R' → R ⊆ R')
  ∧ (∀ a : t, _empty_grids_dots a ≠ ∅ →
       (valid_empty_dots (_empty_grids_dots a)).1 = true →
       ∃ square domains,
         _get_smallest_square_over_dots (_empty_grids_dots a) = Ok square
         ∧ _extract_domains a = Ok domains
         ∧ dom domains = _variables a
         ∧ ∀ variable dots, variable ∈ _variables a →
             (dots ∈ domains !!! variable ↔
              ∃ loc config,
                loc ∈ square
                ∧ config ∈ DotsSet.get_unique_configs_at variable loc
                ∧ dots = DotsSet.configured variable config
                ∧ dots ⊆ _empty_grids_dots a
                ∧ (valid_empty_dots (_empty_grids_dots a ∖ dots)).1 = true)).
Proof.
  split.
  - intros dots Hne.
    destruct (smallest_rectangle dots Hne)
      as (R & y & x & my & mx & HR & _ & _ & _ & _ & Hin & Hsub & Hleast).
    exists R. split; [exact HR|]. split; [by exists y, x, my, mx|]. by split.
  - intros a Hne Hvalid.
    destruct (smallest_rectangle _ Hne) as (R & _ & _ & _ & _ & HR & _).
    unfold _extract_domains. rewrite Hvalid, HR. cbn [mbind result_bind].
    eexists R, _. split; [reflexivity|]. split; [reflexivity|].
    assert (∀ variable, variable ∈ _variables a →
      (set_to_map (λ variable, (variable, domain_of a R variable))
         (_variables a) : gmap DotsSet.t (gset (gset Dot))) !! variable
      = Some (domain_of a R variable)) as Hlook.
    { intros v Hv. apply lookup_set_to_map; [by intros ?? _ _ [= ->]|].
      by exists v. }
    split.
    + apply set_eq. intros v. rewrite elem_of_dom. split.
      * intros [vals Hv]. apply lookup_set_to_map in Hv as (v' & Hv' & [= <- _]);
          [done | by intros ?? _ _ [= ->]].
      * intros Hv. rewrite Hlook by done. eauto.
    + intros v dots Hv.
      rewrite (lookup_total_correct _ _ _ (Hlook v Hv)).
      apply elem_of_domain_of.
Qed.

(** C5 fails as stated: the region taken over two dots side by side is
    those two dots, which are no square. *)
Lemma smallest_square_counterexample :
  _get_smallest_square_over_dots {[ (0, 0); (0, 1) ]} = Ok {[ (0, 0); (0, 1) ]}
  ∧ ¬ is_square {[ (0, 0); (0, 1) ]}.
Proof.
  split; [by vm_compute|].
  intros (y & x & n & Hsq).
  assert ((0, 0) ∈ ({[ (0, 0); (0, 1) ]} : gset Dot)) as H00 by set_solver.
  assert ((0, 1) ∈ ({[ (0, 0); (0, 1) ]} : gset Dot)) as H01 by set_solver.
  apply Hsq in H00, H01. cbn [fst snd] in *.
  assert ((1, 0) ∈ ({[ (0, 0); (0, 1) ]} : gset Dot)
          ∨ (-1, 0) ∈ ({[ (0, 0); (0, 1) ]} : gset Dot)) as [Hbad|Hbad].
  { destruct (decide (y = 0)) as [->|].
    - left. apply Hsq. cbn [fst snd]. lia.
    - right. apply Hsq. cbn [fst snd]. lia. }
  - set_solver.
  - set_solver.
Qed.
End domain_facts.

(** ** The board, [solve] and [help] *)

Section board_and_cache.
Import QuadrillionCSPAdapter.

(** ** The board *)

Lemma separate_shapes q (vars : gset DotsSet.t) :
  Quadrillion._separate_shapes_grids q (set_map Quadrillion.Shape vars)
  = (filter (λ s, s ∈ vars) (dom (Quadrillion.shapes q)), ∅).
Proof.
  unfold Quadrillion._separate_shapes_grids. f_equal.
  - apply set_eq. intros s. rewrite !elem_of_filter, elem_of_map.
    split; [intros [(s' & [= <-] & ?) ?]; done | intros [??]; eauto].
  - apply set_eq. intros g. rewrite elem_of_filter, elem_of_map.
    split; [by intros [(s' & [=] & _) _] | by intros ?%not_elem_of_empty].
Qed.

(** Picking shapes on a board where nothing is picked never fails. *)
Lemma pick_shapes q (vars : gset DotsSet.t) :
  Quadrillion._is_picked q = false →
  Quadrillion.pick q (set_map Quadrillion.Shape vars)
  = (Ok (),
     Quadrillion.with_is_picked
       (Quadrillion._capture_items_momentos
          (Quadrillion.with_grid_picked
             (Quadrillion.with_shape_picked q
                (filter (λ s, s ∈ vars) (dom (Quadrillion.shapes q)))) ∅)
          (set_map Quadrillion.Shape vars)) true).
Proof.
  intros Hp. unfold Quadrillion.pick. rewrite Hp, separate_shapes.
  unfold Quadrillion.shape_pick, Quadrillion.grid_pick,
    Quadrillion.grid_are_pickable.
  rewrite bool_decide_eq_true_2 by apply empty_subseteq. reflexivity.
Qed.

Lemma strategy_release_nothing `{Countable Item} (dim : Dot) (dots : Item → gset Dot)
    (items : gset Item) :
  Quadrillion.is_release_possible dim dots items ∅ = true.
Proof.
  unfold Quadrillion.is_release_possible, Quadrillion._are_separated,
    Quadrillion._get_all_dots_list.
  rewrite elements_empty. reflexivity.
Qed.

(** Releasing when no item is held only lowers the flag. *)
Lemma release_nothing q :
  Quadrillion._is_picked q = true →
  Quadrillion.grid_picked q = ∅ → Quadrillion.shape_picked q = ∅ →
  Quadrillion.release q
  = (Ok (), Quadrillion.with_is_picked
              (Quadrillion.with_shape_picked
                 (Quadrillion.with_grid_picked q ∅) ∅) false).
Proof.
  intros Hp Hg Hs. unfold Quadrillion.release. rewrite Hp.
  unfold Quadrillion.grid_release, Quadrillion.grid_is_release_possible.
  rewrite Hg, strategy_release_nothing, elements_empty. cbn [existsb negb andb].
  unfold Quadrillion.shape_release, Quadrillion.shape_is_release_possible.
  cbn [Quadrillion.shape_picked Quadrillion.with_grid_picked].
  rewrite Hs, strategy_release_nothing, elements_empty. reflexivity.
Qed.

Lemma filter_elem_of_no_vars (vars X : gset DotsSet.t) :
  vars = ∅ → filter (λ s, s ∈ vars) X = ∅.
Proof.
  intros ->. apply set_eq. intros s. rewrite elem_of_filter. set_solver.
Qed.

Lemma pick_nothing q :
  Quadrillion._is_picked q = false →
  Quadrillion.pick q (set_map Quadrillion.Shape (∅ : gset DotsSet.t))
  = (Ok (),
     Quadrillion.with_is_picked
       (Quadrillion.with_momentos
          (Quadrillion.with_grid_picked (Quadrillion.with_shape_picked q ∅) ∅) [])
       true).
Proof.
  intros Hp. rewrite (pick_shapes q ∅ Hp). do 2 f_equal.
  rewrite (filter_elem_of_no_vars ∅ _ eq_refl).
  unfold Quadrillion._capture_items_momentos.
  by rewrite set_map_empty, elements_empty.
Qed.

Lemma unpick_nothing q :
  Quadrillion.unpick
    (Quadrillion.with_is_picked
       (Quadrillion.with_momentos
          (Quadrillion.with_grid_picked (Quadrillion.with_shape_picked q ∅) ∅) [])
       true)
  = (Ok (),
     Quadrillion.with_is_picked
       (Quadrillion.with_momentos
          (Quadrillion.with_grid_picked (Quadrillion.with_shape_picked q ∅) ∅) [])
       false).
Proof.
  unfold Quadrillion.unpick. cbn [Quadrillion._is_picked Quadrillion.with_is_picked].
  unfold Quadrillion._restore_items_momentos.
  cbn [Quadrillion._picked_items_momentos Quadrillion.with_is_picked
       Quadrillion.with_momentos foldl].
  rewrite release_nothing by done. reflexivity.
Qed.

Lemma not_won_empty_dots q :
  Quadrillion.is_won q = false → Quadrillion._is_picked q = false →
  Quadrillion.released_empty_grids_dots q ≠ ∅.
Proof.
  unfold Quadrillion.is_won. intros Hwon Hp Hempty.
  rewrite Hp, Hempty, size_empty in Hwon. done.
Qed.

Lemma extract_no_variables a :
  _variables a = ∅ → _empty_grids_dots a ≠ ∅ → _extract_domains a = Ok ∅.
Proof.
  intros Hv Hne. unfold _extract_domains.
  destruct (valid_empty_dots (_empty_grids_dots a)).1; [|done].
  destruct (smallest_rectangle _ Hne) as (R & _ & _ & _ & _ & -> & _).
  cbn [mbind result_bind]. rewrite Hv. unfold set_to_map.
  by rewrite elements_empty.
Qed.

Lemma get_solution_no_variables (limit : nat) (a : t) :
  _solution a = ∅ →
  Quadrillion.is_won (quadrillion a) = false →
  Quadrillion._is_picked (quadrillion a) = false →
  Quadrillion.released_unplaced_shapes (quadrillion a) = ∅ →
  ∃ a', _get_solution (S limit) a = (Raise NoSolutionException, a').
Proof.
  intros Hsol Hwon Hp Hvars.
  pose proof (not_won_empty_dots _ Hwon Hp) as Hne.
  unfold _get_solution. rewrite Hwon.
  cbn [quadrillion _variables with_problem]. rewrite Hvars.
  rewrite (pick_nothing _ Hp).
  unfold _is_new_solution_needed.
  cbn [_solution with_quadrillion with_problem]. rewrite Hsol.
  rewrite decide_False by (by intros ?).
  rewrite extract_no_variables by done.
  rewrite call_no_variables by (cbn; set_solver).
  rewrite decide_False by (by intros ?).
  cbn [quadrillion with_domains with_quadrillion with_problem].
  rewrite unpick_nothing. eauto.
Qed.

(** C10: called on a problem without variables, the solver returns the empty
    assignment, not [None]; and on an adapter without cached solution, whose
    board is not won, holds no picked item and has no released shape left to
    place, [solve] and [help] raise [NoSolutionException]. *)
Theorem no_variables_no_solution :
  (∀ (V D St : Type) `(Countable V) `(Countable D) (P : CSP V D St)
     (st : St) (fuel : nat),
     variables st = ∅ → dom (domains st) ⊆ variables st →
     CSPSolver.call (S fuel) st = Return (Some ∅, st))
  ∧ (∀ (a : t) (limit : nat),
       _solution a = ∅ →
       Quadrillion.is_won (quadrillion a) = false →
       Quadrillion._is_picked (quadrillion a) = false →
       Quadrillion.released_unplaced_shapes (quadrillion a) = ∅ →
       (solve (S limit) a).1 = Raise NoSolutionException
       ∧ (help (S limit) a).1 = Raise NoSolutionException).
Proof.
  split.
  - intros V D St ?? ?? P st fuel. apply call_no_variables.
  - intros a limit Hsol Hwon Hp Hvars.
    destruct (get_solution_no_variables limit a Hsol Hwon Hp Hvars) as [a' Ha'].
    unfold solve, help. by rewrite Ha'.
Qed.

(** ** The cached solution *)

Lemma some_off_spec a l :
  (∀ s, s ∈ l → is_Some (_solution a !! s)) →
  (some_off_empty_dots a l = Ok false
   ∧ ∀ s dots, s ∈ l → _solution a !! s = Some dots →
       dots ⊆ _empty_grids_dots a)
  ∨ (some_off_empty_dots a l = Ok true
     ∧ ∃ s dots, s ∈ l ∧ _solution a !! s = Some dots
                 ∧ ¬ dots ⊆ _empty_grids_dots a).
Proof.
  induction l as [|s0 l IH]; intros Hkeys; cbn [some_off_empty_dots].
  { left. split; [done|]. by intros ?? ?%elem_of_nil. }
  destruct (Hkeys s0) as [dots0 Hs0]; [left|]. rewrite Hs0.
  unfold _is_on_empty_dots. case_bool_decide as Hon; cbn [negb].
  - destruct IH as [[-> Hall]|[-> (s & dots & Hs & Hlook & Hoff)]].
    + intros s Hs. apply Hkeys. by right.
    + left. split; [done|].
      intros s dots [->|Hs]%elem_of_cons Hlook; [|by eapply Hall].
      rewrite Hs0 in Hlook. by injection Hlook as <-.
    + right. split; [done|]. exists s, dots. split; [by right|done].
  - right. split; [done|]. exists s0, dots0. split; [left|done].
Qed.

Lemma adapt_loop_spec a l : ∀ acc,
  (∀ s, s ∈ l → is_Some (_solution a !! s)) →
  ∃ r, adapt_loop a l acc = Ok r
       ∧ ∀ s, r !! s = if decide (s ∈ l) then _solution a !! s else acc !! s.
Proof.
  induction l as [|s0 l IH]; intros acc Hkeys; cbn [adapt_loop].
  { exists acc. split; [done|]. intros s.
    by rewrite decide_False by apply not_elem_of_nil. }
  destruct (Hkeys s0) as [dots0 Hs0]; [left|]. rewrite Hs0.
  destruct (IH (<[s0:=dots0]> acc)) as (r & -> & Hr).
  { intros s Hs. apply Hkeys. by right. }
  exists r. split; [done|]. intros s. rewrite Hr.
  destruct (decide (s ∈ l)) as [Hin|Hnin].
  - rewrite decide_True; [done|by right].
  - destruct (decide (s = s0)) as [->|Hne].
    + rewrite decide_True by left. by rewrite lookup_insert_eq.
    + rewrite decide_False; [by rewrite lookup_insert_ne|].
      by intros [?|?]%elem_of_cons.
Qed.

Lemma released_unplaced_shapes_sub q :
  Quadrillion.released_unplaced_shapes q ⊆ dom (Quadrillion.shapes q).
Proof.
  unfold Quadrillion.released_unplaced_shapes, Quadrillion.released_items.
  intros s [_ Hs]%elem_of_filter. set_solver.
Qed.

End board_and_cache.

(** ** Examples *)

Section examples.
Import QuadrillionCSPAdapter.

(** Closed facts are settled by running the code. *)
Ltac by_running :=
  lazymatch goal with
  | |- ?P => apply (bool_decide_eq_true_1 P); vm_compute; reflexivity
  end.

Lemma returned_none_spec {A B} (o : outcome (option A * B)) :
  returned_none o = true → ∃ st, o = Return (None, st).
Proof. destruct o as [[[?|] st]| |]; [done|eauto|done..]. Qed.

(** ** Counterexamples *)


(** C4 fails as stated: with no shape to place, the rejected problem makes
    the solver return the empty dictionary, not [None]. *)
Lemma infeasible_no_shape_counterexample :
  (valid_empty_dots (_empty_grids_dots problem_dot_no_shape)).1 = false
  ∧ _extract_domains problem_dot_no_shape = Ok ∅
  ∧ CSPSolver.call 10 (with_domains problem_dot_no_shape ∅)
    = Return (Some ∅, with_domains problem_dot_no_shape ∅).
Proof.
  split; [vm_compute; reflexivity|]. split; [by_running|].
  rewrite (call_no_domains (with_domains problem_dot_no_shape ∅) 9);
    [|reflexivity].
  by rewrite decide_True.
Qed.


(** C10 fails as stated: while a shape is held the board is not won and no
    shape is released, and [solve] raises [StateException]. *)
Lemma picked_board_counterexample :
  Quadrillion.is_won board_L5_picked = false
  ∧ Quadrillion.released_unplaced_shapes board_L5_picked = ∅
  ∧ _solution (init board_L5_picked) = ∅
  ∧ (solve 10 (init board_L5_picked)).1
    = Raise (StateException "Cannot solve while items are picked.")
  ∧ (help 10 (init board_L5_picked)).1
    = Raise (StateException "Cannot solve while items are picked.").
Proof.
  split; [vm_compute; reflexivity|]. split; [by_running|].
  split; [reflexivity|]. split; vm_compute; reflexivity.
Qed.

(** ** Witnesses: each statement with hypotheses, met on a concrete input *)

Lemma set_dots_spec_witness :
  (min_of (ys L5_dots) = Some 0 ∧ min_of (xs L5_dots) = Some 0
   ∧ DotsSet.init L5_dots = Ok (DotsSet.shape obj_L5))
  ∧ (DotsSet.set_dots obj_L5 L5_dots = Raise ValueError ↔
       ¬ ∃ config, config ∈ DotsSet.get_unique_configs_at (DotsSet.shape obj_L5) (0, 0)
                   ∧ DotsSet.configured (DotsSet.shape obj_L5) config = L5_dots)
  ∧ (∀ o', DotsSet.set_dots obj_L5 L5_dots = Ok o' →
       DotsSet.shape o' = DotsSet.shape obj_L5 ∧ DotsSet._dots_set o' = L5_dots)
  ∧ (∃ o', DotsSet.set_dots obj_L5
             (DotsSet.configured (DotsSet.shape obj_L5) (mkConfig 3 (-1) (2, 5)))
           = Ok o'
           ∧ DotsSet._dots_set o'
             = DotsSet.configured (DotsSet.shape obj_L5) (mkConfig 3 (-1) (2, 5))).
Proof.
  assert (min_of (ys L5_dots) = Some 0) as Hy by (vm_compute; reflexivity).
  assert (min_of (xs L5_dots) = Some 0) as Hx by (vm_compute; reflexivity).
  assert (DotsSet.init L5_dots = Ok (DotsSet.shape obj_L5)) as Hinit
    by (vm_compute; reflexivity).
  destruct set_dots_spec as [Hspec Hround].
  destruct (Hspec obj_L5 L5_dots 0 0 Hy Hx) as (Hiff & _ & Hok).
  split; [by split_and!|]. split; [exact Hiff|]. split; [exact Hok|].
  exact (Hround L5_dots obj_L5 (mkConfig 3 (-1) (2, 5)) Hinit Hy Hx).
Defined.


Lemma forward_check_disjoint_witness :
  let assignments : gmap DotsSet.t (gset Dot) := {[ shape_M1 := {[ (0, 0) ]} ]} in
  let domains := _domains problem_3x3 in
  ∃ new_domains assignments' a',
    CSPSolver.forward_check problem_3x3 assignments domains
    = (Some new_domains, assignments', a')
    ∧ _current_assignments_dots a' = union_values assignments'
    ∧ dom new_domains = dom domains ∖ dom assignments'
    ∧ ∀ var val, var ∉ dom assignments' → val ∈ new_domains !!! var →
        val ∈ domains !!! var ∧ val ## union_values assignments'.
Proof.
  intros assignments domains.
  assert (bool_decide
            (is_Some (CSPSolver.forward_check problem_3x3 assignments domains).1.1)
          = true) as Hsome by (vm_compute; reflexivity).
  destruct (CSPSolver.forward_check problem_3x3 assignments domains)
    as [[[new_domains|] assignments'] a'] eqn:Hfc.
  - exists new_domains, assignments', a'. split; [reflexivity|].
    exact (forward_check_disjoint problem_3x3 assignments domains
             new_domains assignments' a' Hfc).
  - apply bool_decide_eq_true in Hsome. by destruct Hsome.
Defined.

Lemma infeasible_aborts_witness :
  (valid_empty_dots (_empty_grids_dots problem_dot)).1 = false
  ∧ (∃ C, is_component (_empty_grids_dots problem_dot) C
          ∧ _is_valid_nr_empty_connected_dots
              (Z.of_nat (size (_empty_grids_dots problem_dot)))
              (Z.of_nat (size C)) = false)
  ∧ (∀ vars, _extract_domains
               (with_problem problem_dot vars (_empty_grids_dots problem_dot))
             = Ok ∅)
  ∧ (∀ fuel, CSPSolver.call (S fuel) (with_domains problem_dot ∅)
             = Return (if decide (_variables problem_dot = ∅) then Some ∅ else None,
                       with_domains problem_dot ∅)).
Proof.
  assert ((valid_empty_dots (_empty_grids_dots problem_dot)).1 = false) as Hrej
    by (vm_compute; reflexivity).
  split; [exact Hrej|]. exact (infeasible_aborts problem_dot Hrej).
Defined.

Lemma returned_falsy_spec {V D St : Type} `{Countable V, Countable D}
    (o : outcome (CSPSolver.search (V:=V) (D:=D) (St:=St))) :
  returned_falsy o = true → ∃ r, o = Return r ∧ CSPSolver.truthy r = false.
Proof.
  destruct o as [r| |]; [|done..]. intros Hr%negb_true_iff. by exists r.
Qed.

Lemma triple_eta {A B C} (p : A * B * C) : p = (p.1.1, p.1.2, p.2).
Proof. by destruct p as [[??]?]. Qed.


Lemma undo_restores_assignments_witness :
  let val : gset Dot := {[ (0, 0); (0, 1); (1, 0); (1, 1) ]} in
  let d := _domains problem_3x3 in
  let fc := CSPSolver.forward_check problem_3x3 (<[shape_O4 := val]> ∅) d in
  CSPSolver.select_unassigned_variable (∅ : gmap DotsSet.t (gset Dot)) d
  = Some shape_O4
  ∧ ∃ r,
      CSPSolver.back_tracking_search 9 3 fc.2 fc.1.2 fc.1.1 = Return r
      ∧ CSPSolver.truthy r = false
      ∧ let restored := CSPSolver.undo (dom (∅ : gmap DotsSet.t (gset Dot)))
                          (CSPSolver.dict_of r) in
        dom restored = dom (∅ : gmap DotsSet.t (gset Dot))
        ∧ (∀ k, k ∈ dom (CSPSolver.dict_of r) →
                k ∉ dom (∅ : gmap DotsSet.t (gset Dot)) → restored !! k = None)
        ∧ (∀ k, k ∈ dom (∅ : gmap DotsSet.t (gset Dot)) →
                restored !! k = (∅ : gmap DotsSet.t (gset Dot)) !! k)
        ∧ CSPSolver.try_values (CSPSolver.back_tracking_search 9 3) shape_O4
            (dom (∅ : gmap DotsSet.t (gset Dot))) d [val] problem_3x3 ∅
          = CSPSolver.try_values (CSPSolver.back_tracking_search 9 3) shape_O4
              (dom (∅ : gmap DotsSet.t (gset Dot))) d [] (CSPSolver.csp_of r)
              restored.
Proof.
  intros val d fc.
  assert (CSPSolver.select_unassigned_variable
            (∅ : gmap DotsSet.t (gset Dot)) d = Some shape_O4) as Hsel
    by by_running.
  assert (returned_falsy (CSPSolver.back_tracking_search 9 3 fc.2 fc.1.2 fc.1.1)
          = true) as Hrun by (vm_compute; reflexivity).
  assert (CSPSolver.forward_check problem_3x3 (<[shape_O4 := val]> ∅) d
          = (fc.1.1, fc.1.2, fc.2)) as Hfc by exact (triple_eta fc).
  split; [exact Hsel|].
  destruct (returned_falsy_spec _ Hrun) as (r & Hr & Hfalse).
  exists r. split; [exact Hr|]. split; [exact Hfalse|].
  exact (undo_restores_assignments register_extends 9 3 problem_3x3
           ∅ d shape_O4 val [] fc.1.1 fc.1.2 fc.2 r Hsel Hfc Hr Hfalse).
Defined.

Lemma domains_over_bounding_rectangle_witness :
  (({[ (0, 0); (0, 1) ]} : gset Dot) ≠ ∅
   ∧ ∃ R, _get_smallest_square_over_dots {[ (0, 0); (0, 1) ]} = Ok R
          ∧ is_rectangle R ∧ {[ (0, 0); (0, 1) ]} ⊆ R
          ∧ ∀ R', is_rectangle R' → {[ (0, 0); (0, 1) ]} ⊆ R' → R ⊆ R')
  ∧ (_empty_grids_dots problem_L5 ≠ ∅
     ∧ (valid_empty_dots (_empty_grids_dots problem_L5)).1 = true
     ∧ ∃ square domains,
         _get_smallest_square_over_dots (_empty_grids_dots problem_L5) = Ok square
         ∧ _extract_domains problem_L5 = Ok domains
         ∧ dom domains = _variables problem_L5
         ∧ ∀ variable dots, variable ∈ _variables problem_L5 →
             (dots ∈ domains !!! variable ↔
              ∃ loc config,
                loc ∈ square
                ∧ config ∈ DotsSet.get_unique_configs_at variable loc
                ∧ dots = DotsSet.configured variable config
                ∧ dots ⊆ _empty_grids_dots problem_L5
                ∧ (valid_empty_dots (_empty_grids_dots problem_L5 ∖ dots)).1
                  = true)).
Proof.
  assert (({[ (0, 0); (0, 1) ]} : gset Dot) ≠ ∅) as Hne1 by by_running.
  assert (_empty_grids_dots problem_L5 ≠ ∅) as Hne2 by by_running.
  assert ((valid_empty_dots (_empty_grids_dots problem_L5)).1 = true) as Hvalid
    by (vm_compute; reflexivity).
  destruct domains_over_bounding_rectangle as [Hrect Hdoms].
  split.
  - split; [exact Hne1|]. exact (Hrect _ Hne1).
  - split; [exact Hne2|]. split; [exact Hvalid|].
    exact (Hdoms problem_L5 Hne2 Hvalid).
Defined.

Lemma no_variables_no_solution_witness :
  (variables (init board_empty) = ∅
   ∧ dom (domains (init board_empty)) ⊆ variables (init board_empty)
   ∧ CSPSolver.call 1 (init board_empty) = Return (Some ∅, init board_empty))
  ∧ (_solution (init board_no_shapes) = ∅
     ∧ Quadrillion.is_won (quadrillion (init board_no_shapes)) = false
     ∧ Quadrillion._is_picked (quadrillion (init board_no_shapes)) = false
     ∧ Quadrillion.released_unplaced_shapes (quadrillion (init board_no_shapes)) = ∅
     ∧ (solve 1 (init board_no_shapes)).1 = Raise NoSolutionException
     ∧ (help 1 (init board_no_shapes)).1 = Raise NoSolutionException).
Proof.
  assert (variables (init board_empty) = ∅) as Hv by reflexivity.
  assert (dom (domains (init board_empty)) ⊆ variables (init board_empty)) as Hd
    by by_running.
  assert (_solution (init board_no_shapes) = ∅) as Hs by reflexivity.
  assert (Quadrillion.is_won (quadrillion (init board_no_shapes)) = false) as Hw
    by (vm_compute; reflexivity).
  assert (Quadrillion._is_picked (quadrillion (init board_no_shapes)) = false)
    as Hp by reflexivity.
  assert (Quadrillion.released_unplaced_shapes (quadrillion (init board_no_shapes))
          = ∅) as Hu by by_running.
  destruct no_variables_no_solution as [Hgen Hadapter].
  split.
  - split; [exact Hv|]. split; [exact Hd|].
    exact (Hgen _ _ _ _ _ _ _ _ (init board_empty) 0%nat Hv Hd).
  - split; [exact Hs|]. split; [exact Hw|]. split; [exact Hp|].
    split; [exact Hu|].
    exact (Hadapter (init board_no_shapes) 0%nat Hs Hw Hp Hu).
Defined.

End examples.

(** ** Further properties of the code *)

Section further.
(** X1: the sets that [connected_dots_sets] yields cut the dots into the
    classes of "joined by a path of horizontal and vertical steps": every dot
    lies in exactly one yielded set, two dots of the input lie in the same
    yielded set exactly when such a path joins them, no yielded set is empty
    or leaves the input, and no set is yielded twice. *)
Theorem connected_dots_sets_partition (dots_set : gset Dot) :
  (∀ dot, dot ∈ dots_set →
     ∃ C, C ∈ connected_dots_sets dots_set ∧ dot ∈ C
          ∧ ∀ C', C' ∈ connected_dots_sets dots_set → dot ∈ C' → C' = C)
  ∧ (∀ C a b, C ∈ connected_dots_sets dots_set → a ∈ C →
       (b ∈ C ↔ reach dots_set a b))
  ∧ (∀ C, C ∈ connected_dots_sets dots_set → C ≠ ∅ ∧ C ⊆ dots_set)
  ∧ NoDup (connected_dots_sets dots_set).
Proof.
  destruct (connected_dots_sets_spec dots_set) as (Hnodup & Hin & Hdisj & Hunion).
  split_and!; [| | |exact Hnodup].
  - intros dot Hdot.
    assert (dot ∈ ⋃ connected_dots_sets dots_set) as Hd by (by rewrite Hunion).
    apply elem_of_union_list in Hd as (C & HC & HdC).
    exists C. split_and!; [done..|].
    intros C' HC' HdC'.
    destruct (decide (C' = C)) as [|Hne]; [done|].
    specialize (Hdisj C' C HC' HC Hne). apply elem_of_disjoint in Hdisj.
    exfalso. exact (Hdisj dot HdC' HdC).
  - intros C a b HC Ha.
    apply Hin in HC. destruct HC as (c & Hc & HC).
    assert (reach dots_set c a) as Hca by (by apply HC).
    split.
    + intros Hb%HC. eapply reach_trans; [|exact Hb].
      by apply reach_sym.
    + intros Hab. apply HC. by eapply reach_trans.
  - intros C HC. apply Hin in HC.
    split; [by eapply is_component_nonempty|by eapply is_component_sub].
Qed.

(** X2: the [while dots_queue] loop of [connected_dots_set_at] ends within
    [size dots_set + 2] turns, and more turns change nothing: it returns the
    dots that a path of horizontal and vertical steps through [dots_set]
    joins to the start.  The start is always among them, also when it is not
    a dot of [dots_set], and every other one is a dot of [dots_set]. *)
Theorem connected_dots_set_at_spec (dots_set : gset Dot) (dot : Dot) :
  (∀ extra : nat,
     connected_loop (size dots_set + 2 + extra) dots_set {[dot]} [dot]
     = Some (connected_dots_set_at dots_set dot))
  ∧ (∀ c, c ∈ connected_dots_set_at dots_set dot ↔ reach dots_set dot c)
  ∧ dot ∈ connected_dots_set_at dots_set dot
  ∧ connected_dots_set_at dots_set dot ⊆ {[dot]} ∪ dots_set.
Proof.
  assert (∀ c, c ∈ connected_dots_set_at dots_set dot ↔ reach dots_set dot c)
    as Hreach by (intros c; apply elem_of_connected_dots_set_at).
  split_and!; [|exact Hreach| |].
  - intros extra.
    destruct (connected_loop_spec dots_set (size dots_set + 2 + extra)
                {[dot]} [dot]) as (C & HC & Hsub & Hsound & Hclosed).
    { pose proof (subseteq_size (dots_set ∖ {[dot]}) dots_set) as Hle.
      cbn [length]. assert (dots_set ∖ {[dot]} ⊆ dots_set) as Hd by set_solver.
      specialize (Hle Hd). lia. }
    { intros d ->%list_elem_of_singleton. by apply elem_of_singleton. }
    rewrite HC. f_equal. apply set_eq. intros c. rewrite Hreach. split.
    + intros [->%elem_of_singleton|(q & ->%list_elem_of_singleton & Hq)]%Hsound;
        [constructor|exact Hq].
    + assert (∀ c, c ∈ C → ∀ n, n ∈ neighbours c → n ∈ dots_set → n ∈ C) as Hcl.
      { apply Hclosed. intros d ->%elem_of_singleton. left.
        by apply list_elem_of_singleton. }
      induction 1 as [|c' n Hc' IH Hn Hin].
      * apply Hsub. by apply elem_of_singleton.
      * by eapply Hcl.
  - apply Hreach. constructor.
  - intros c Hc%Hreach. destruct Hc as [|c' n _ _ Hin]; set_solver.
Qed.

Section unique_configs_facts.
Import DotsSet.

Lemma unique_fold_mono s l : ∀ acc (c : Config),
  c ∈ acc.2 → c ∈ (foldl (unique_step s) acc l).2.
Proof.
  induction l as [|c0 l IH]; intros acc c Hc; [exact Hc|].
  cbn [foldl]. apply IH.
  destruct (decide (configured s c0 ∈ acc.1)) as [Hin|Hout].
  - by rewrite unique_step_old.
  - rewrite unique_step_new by exact Hout. cbn [snd]. set_solver.
Qed.

Lemma unique_fold_inj s l : ∀ acc,
  (∀ c, c ∈ acc.2 → configured s c ∈ acc.1) →
  (∀ c1 c2, c1 ∈ acc.2 → c2 ∈ acc.2 →
            configured s c1 = configured s c2 → c1 = c2) →
  ∀ c1 c2, c1 ∈ (foldl (unique_step s) acc l).2 →
           c2 ∈ (foldl (unique_step s) acc l).2 →
           configured s c1 = configured s c2 → c1 = c2.
Proof.
  induction l as [|c0 l IH]; intros acc Hlist Hinj; [exact Hinj|].
  cbn [foldl]. apply IH.
  - destruct (decide (configured s c0 ∈ acc.1)) as [Hin|Hout].
    + by rewrite unique_step_old.
    + rewrite unique_step_new by exact Hout. cbn [fst snd].
      intros c [->%elem_of_singleton|Hc]%elem_of_union; apply elem_of_app.
      * right. by apply list_elem_of_singleton.
      * left. by apply Hlist.
  - destruct (decide (configured s c0 ∈ acc.1)) as [Hin|Hout].
    + by rewrite unique_step_old.
    + rewrite unique_step_new by exact Hout. cbn [fst snd].
      intros c1 c2 [->%elem_of_singleton|H1]%elem_of_union
                   [->%elem_of_singleton|H2]%elem_of_union Heq.
      * reflexivity.
      * exfalso. apply Hout. rewrite Heq. by apply Hlist.
      * exfalso. apply Hout. rewrite <- Heq. by apply Hlist.
      * by apply Hinj.
Qed.

Lemma moved_inj (A B : gset Dot) (loc : Dot) :
  _moved A loc = _moved B loc → A = B.
Proof.
  destruct loc as [dy dx]. intros Heq. apply set_eq. intros [y x].
  assert (∀ S : gset Dot, (y, x) ∈ S ↔ (y + dy, x + dx) ∈ _moved S (dy, dx)) as Hm.
  { intros S. rewrite elem_of_moved. cbn [fst snd].
    by replace (y + dy - dy) with y by lia; replace (x + dx - dx) with x by lia. }
  by rewrite (Hm A), (Hm B), Heq.
Qed.

Lemma configured_at_origin s c :
  c ∈ all_orientations → configured s c = oriented s c.
Proof.
  intros (_ & _ & Hloc)%all_orientations_spec.
  by rewrite configured_oriented, Hloc, moved_origin.
Qed.

(** X3: [get_unique_configs_at] gives configs at the location asked for,
    with a flip count of 0 or 1 and a rotation count from 0 to 3; the
    unflipped, unrotated one is among them; every placement of the shape at
    that location, whatever its flip and rotation counts, shows the same dots
    as one of them; and no two of them show the same dots. *)
Theorem get_unique_configs_at_spec (s : DotsSet.t) (loc : Dot) :
  (∀ c, c ∈ get_unique_configs_at s loc →
     location c = loc ∧ (flips c = 0 ∨ flips c = 1)
     ∧ (0 ≤ rotations c ∧ rotations c ≤ 3))
  ∧ mkConfig 0 0 loc ∈ get_unique_configs_at s loc
  ∧ (∀ config : Config,
       ∃ c, c ∈ get_unique_configs_at s loc
            ∧ configured s c = configured s (replace_location loc config))
  ∧ (∀ c1 c2, c1 ∈ get_unique_configs_at s loc →
              c2 ∈ get_unique_configs_at s loc →
              configured s c1 = configured s c2 → c1 = c2).
Proof.
  split_and!.
  - intros c (c0 & Hc0 & ->)%elem_of_get_unique_configs_at.
    apply (unique_configs_orientation s), all_orientations_spec in Hc0
      as (Hf & Hr & _).
    unfold replace_location; cbn [location flips rotations].
    split; [reflexivity|]. split; [exact Hf|lia].
  - apply elem_of_get_unique_configs_at. exists (mkConfig 0 0 (0, 0)).
    split; [|reflexivity].
    rewrite unique_configs_unfold.
    assert (∃ l, all_orientations = mkConfig 0 0 (0, 0) :: l) as [l ->]
      by (eexists; reflexivity).
    apply (unique_fold_mono s l (unique_step s ([], ∅) (mkConfig 0 0 (0, 0)))).
    rewrite unique_step_new by (cbn [fst]; apply not_elem_of_nil).
    cbn [snd]. set_solver.
  - intros config.
    destruct (unique_configs_cover s
                (mkConfig (flips config mod 2) (rotations config mod 4) (0, 0))
                (mod_orientation config)) as (c' & Hc' & Heq).
    exists (replace_location loc c'). split.
    + apply elem_of_get_unique_configs_at. by exists c'.
    + rewrite !configured_replace_location. f_equal.
      rewrite (oriented_mod s config).
      rewrite <- (configured_at_origin s c')
        by (by apply (unique_configs_orientation s)).
      rewrite <- (configured_at_origin s
                    (mkConfig (flips config mod 2) (rotations config mod 4) (0, 0)))
        by apply mod_orientation.
      exact Heq.
  - intros c1 c2 (a & Ha & ->)%elem_of_get_unique_configs_at
                 (b & Hb & ->)%elem_of_get_unique_configs_at Heq.
    rewrite !configured_replace_location in Heq. apply moved_inj in Heq.
    f_equal.
    rewrite unique_configs_unfold in Ha, Hb.
    eapply (unique_fold_inj s all_orientations ([], ∅)); [| |exact Ha|exact Hb|].
    + intros c Hc. cbn [snd] in Hc. by apply elem_of_empty in Hc.
    + intros c1 c2 Hc. cbn [snd] in Hc. by apply elem_of_empty in Hc.
    + rewrite (configured_at_origin s a), (configured_at_origin s b);
        [exact Heq|..];
        apply (unique_configs_orientation s); by rewrite unique_configs_unfold.
Qed.

End unique_configs_facts.

Section moves.
Import DotsSet.

Lemma set_map_compose (f g : Dot → Dot) (X : gset Dot) :
  (set_map f (set_map g X : gset Dot) : gset Dot) = set_map (f ∘ g) X.
Proof.
  apply set_eq. intros d. rewrite !elem_of_map. split.
  - intros (b & -> & (a & -> & Ha)%elem_of_map). by exists a.
  - intros (a & -> & Ha). exists (g a). split; [done|].
    apply elem_of_map. by exists a.
Qed.

Lemma set_map_ext (f g : Dot → Dot) (X : gset Dot) :
  (∀ d, f d = g d) → (set_map f X : gset Dot) = set_map g X.
Proof.
  intros Hfg. apply set_eq. intros d. rewrite !elem_of_map.
  split; intros (a & -> & Ha); exists a; by rewrite Hfg.
Qed.

Lemma set_map_id_ext (f : Dot → Dot) (X : gset Dot) :
  (∀ d, f d = d) → (set_map f X : gset Dot) = X.
Proof.
  intros Hf. apply set_eq. intros d. rewrite elem_of_map. split.
  - intros (a & -> & Ha). by rewrite Hf.
  - intros Hd. exists d. by rewrite Hf.
Qed.

Lemma normalized_cases (config : Config) :
  (flips config mod 2 = 0 ∨ flips config mod 2 = 1)
  ∧ (rotations config mod 4 = 0 ∨ rotations config mod 4 = 1
     ∨ rotations config mod 4 = 2 ∨ rotations config mod 4 = 3).
Proof.
  pose proof (Z.mod_pos_bound (flips config) 2).
  pose proof (Z.mod_pos_bound (rotations config) 4). lia.
Qed.

(** Every set shown is the image of the initial dots under one map. *)
Local Ltac unfold_shown :=
  unfold configured, _initial_dots_flipped, _rotated_clockwise, _moved,
    _flipped_vertically, _rotated_90_degrees_clockwise, _rotated_180_degrees,
    _rotated_90_degrees_counterclockwise;
  cbn [flips rotations location fst snd].

Local Ltac decide_all :=
  repeat (let Hd := fresh "Hd" in
          case_decide as Hd;
          try (exfalso; revert Hd; clear; vm_compute; lia));
  rewrite ?set_map_compose.

Local Ltac same_map :=
  first [ apply set_map_ext | symmetry; apply set_map_id_ext | apply set_map_id_ext ];
  intros [??]; cbn [fst snd compose]; f_equal; lia.

Local Ltac same_obj :=
  lazymatch goal with
  | |- mkObj _ ?c2 _ = mkObj _ ?c0 _ =>
      let Hc := fresh "Hc" in
      assert (c2 = c0) as Hc
        by (f_equal; try reflexivity; try lia; f_equal; lia);
      rewrite Hc; reflexivity
  end.

(** X4: [flip] mirrors the dots the object shows top to bottom within the
    box it shows them in, and keeps the location; flipping twice gives the
    object back. *)
Theorem flip_mirrors (o0 : obj) (config : Config) :
  let o := set_config o0 config in
  _dots_set (flip o)
  = set_map (λ d : Dot,
               (2 * (location (_config o)).1 + shown_height o - 1 - d.1, d.2))
            (_dots_set o)
  ∧ location (_config (flip o)) = location (_config o)
  ∧ flip (flip o) = o.
Proof.
  intros o. destruct config as [f r [y0 x0]].
  destruct (normalized_cases (mkConfig f r (y0, x0))) as [Hf Hr].
  cbn [flips rotations] in Hf, Hr.
  unfold o, flip, shown_height, set_config, normalized.
  cbn [shape _config _dots_set flips rotations location fst snd].
  split; [|split; [reflexivity|]].
  - unfold_shown.
    destruct Hf as [-> | ->], Hr as [-> | [-> | [-> | ->]]];
      decide_all; same_map.
  - destruct Hf as [-> | ->], Hr as [-> | [-> | [-> | ->]]]; same_obj.
Qed.

(** X5: [rotate(True)] turns the dots the object shows a quarter turn
    clockwise within the box it shows them in, the top left corner of the box
    staying where it is; a turn one way followed by a turn the other way, and
    four turns the same way, give the object back; the flip count and the
    location are kept. *)
Theorem rotate_quarter_turn (o0 : obj) (config : Config) :
  let o := set_config o0 config in
  _dots_set (rotate o true)
  = set_map (λ d : Dot,
               ((location (_config o)).1 + (d.2 - (location (_config o)).2),
                (location (_config o)).2
                + (shown_height o - 1 - (d.1 - (location (_config o)).1))))
            (_dots_set o)
  ∧ rotate (rotate o true) false = o
  ∧ rotate (rotate o false) true = o
  ∧ rotate (rotate (rotate (rotate o true) true) true) true = o
  ∧ ∀ clockwise,
      flips (_config (rotate o clockwise)) = flips (_config o)
      ∧ location (_config (rotate o clockwise)) = location (_config o).
Proof.
  intros o. destruct config as [f r [y0 x0]].
  destruct (normalized_cases (mkConfig f r (y0, x0))) as [Hf Hr].
  cbn [flips rotations] in Hf, Hr.
  unfold o, rotate, shown_height, set_config, normalized.
  cbn [shape _config _dots_set flips rotations location fst snd].
  split_and!.
  - unfold_shown.
    destruct Hf as [-> | ->], Hr as [-> | [-> | [-> | ->]]];
      decide_all; same_map.
  - destruct Hf as [-> | ->], Hr as [-> | [-> | [-> | ->]]]; same_obj.
  - destruct Hf as [-> | ->], Hr as [-> | [-> | [-> | ->]]]; same_obj.
  - destruct Hf as [-> | ->], Hr as [-> | [-> | [-> | ->]]]; same_obj.
  - intros clockwise. split; [|reflexivity].
    destruct Hf as [-> | ->]; reflexivity.
Qed.

(** X6: [move] shifts the dots the object shows by the displacement and
    keeps the flip and rotation counts; moving back gives the object back,
    and two moves are one move by the sum. *)
Theorem move_translates (o0 : obj) (config : Config) (dy dx : Z) :
  let o := set_config o0 config in
  _dots_set (move o (dy, dx)) = _moved (_dots_set o) (dy, dx)
  ∧ flips (_config (move o (dy, dx))) = flips (_config o)
  ∧ rotations (_config (move o (dy, dx))) = rotations (_config o)
  ∧ move (move o (dy, dx)) (- dy, - dx) = o
  ∧ ∀ dy' dx',
      move (move o (dy, dx)) (dy', dx') = move o (dy + dy', dx + dx').
Proof.
  intros o. destruct config as [f r [y0 x0]].
  destruct (normalized_cases (mkConfig f r (y0, x0))) as [Hf Hr].
  cbn [flips rotations] in Hf, Hr.
  unfold o, move, set_config, normalized.
  cbn [shape _config _dots_set flips rotations location fst snd].
  split_and!.
  - unfold_shown.
    destruct Hf as [-> | ->], Hr as [-> | [-> | [-> | ->]]];
      decide_all; same_map.
  - destruct Hf as [-> | ->]; reflexivity.
  - destruct Hr as [-> | [-> | [-> | ->]]]; reflexivity.
  - destruct Hf as [-> | ->], Hr as [-> | [-> | [-> | ->]]]; same_obj.
  - intros dy' dx'.
    destruct Hf as [-> | ->], Hr as [-> | [-> | [-> | ->]]]; same_obj.
Qed.

End moves.

Section boxes.
Import DotsSet.

Lemma ys_nil (dots : gset Dot) : ys dots = [] ↔ dots = ∅.
Proof.
  unfold ys. split.
  - intros Hnil%fmap_nil_inv. by apply elements_empty_inv, leibniz_equiv in Hnil.
  - intros ->. by rewrite elements_empty.
Qed.

Lemma xs_nil (dots : gset Dot) : xs dots = [] ↔ dots = ∅.
Proof.
  unfold xs. split.
  - intros Hnil%fmap_nil_inv. by apply elements_empty_inv, leibniz_equiv in Hnil.
  - intros ->. by rewrite elements_empty.
Qed.

Lemma max_of_None (l : list Z) : max_of l = None ↔ l = [].
Proof. by destruct l. Qed.

(** X7: the constructor of [DotsSet] raises [TypeError] exactly when a dot
    has a negative coordinate and [ValueError] exactly when there is no dot
    at all, and nothing else; otherwise the shape keeps the dots as its
    initial dots, and its height and width are one more than the greatest
    row and column, so that every dot lies within them. *)
Theorem init_spec (dots : gset Dot) :
  (init dots = Raise TypeError ↔ ∃ d : Dot, d ∈ dots ∧ (d.1 < 0 ∨ d.2 < 0))
  ∧ (init dots = Raise ValueError ↔ dots = ∅)
  ∧ (∀ e, init dots = Raise e → e = TypeError ∨ e = ValueError)
  ∧ (∀ s, init dots = Ok s →
       _initial_dots_set s = dots
       ∧ max_of (ys dots) = Some (_height s - 1)
       ∧ max_of (xs dots) = Some (_width s - 1)
       ∧ ∀ d : Dot, d ∈ dots →
           (0 ≤ d.1 ∧ d.1 < _height s) ∧ (0 ≤ d.2 ∧ d.2 < _width s)).
Proof.
  unfold init, _are_valid_dots.
  destruct (decide (set_Forall (λ dot : Dot, 0 ≤ dot.1 ∧ 0 ≤ dot.2) dots))
    as [Hvalid|Hinvalid].
  - rewrite bool_decide_eq_true_2 by exact Hvalid.
    destruct (max_of (ys dots)) as [my|] eqn:Hmy.
    + destruct (max_of (xs dots)) as [mx|] eqn:Hmx.
      * split_and!.
        -- split; [done|]. intros (d & Hd & Hneg). specialize (Hvalid d Hd).
           cbn beta in Hvalid. exfalso. lia.
        -- split; [done|]. intros ->. by vm_compute in Hmy.
        -- done.
        -- intros s [= <-]. cbn [_initial_dots_set _height _width].
           rewrite !Z.add_simpl_r. split_and!; [done..|].
           apply max_of_Some in Hmy as [_ Hyup], Hmx as [_ Hxup].
           intros [y x] Hd. specialize (Hvalid _ Hd). cbn [fst snd] in *.
           assert (y ≤ my) by (apply Hyup, elem_of_ys; eauto).
           assert (x ≤ mx) by (apply Hxup, elem_of_xs; eauto). lia.
      * apply max_of_None, xs_nil in Hmx. subst dots. by vm_compute in Hmy.
    + apply max_of_None, ys_nil in Hmy. subst dots.
      split_and!; [|done| |done].
      * split; [done|]. intros (d & Hd & _). by apply elem_of_empty in Hd.
      * intros e. destruct (max_of (xs ∅)); intros [= <-]; by right.
  - rewrite bool_decide_eq_false_2 by exact Hinvalid.
    split_and!.
    + split; [intros _|done].
      apply not_set_Forall_Exists in Hinvalid as (d & Hd & Hneg); [|apply _].
      exists d. split; [exact Hd|]. unfold compose in Hneg. cbn beta in Hneg. lia.
    + split; [done|]. intros ->. exfalso. apply Hinvalid.
      intros d Hd. by apply elem_of_empty in Hd.
    + intros e [= <-]. by left.
    + done.
Qed.

Lemma rotated_boxed_parity h w S times :
  boxed h w S →
  boxed (if decide (times mod 2 = 0) then h else w)
        (if decide (times mod 2 = 0) then w else h)
        (_rotated_clockwise h w S times).
Proof.
  pose proof (Z.mod_pos_bound times 4) as Hbound.
  assert (times mod 4 = 0 ∨ times mod 4 = 1 ∨ times mod 4 = 2 ∨ times mod 4 = 3)
    as [H4|[H4|[H4|H4]]] by lia;
    unfold _rotated_clockwise; rewrite H4; intros HS.
  - assert (times mod 2 = 0) as -> by (Z.div_mod_to_equations; lia).
    repeat case_decide; try done.
  - assert (times mod 2 = 1) as -> by (Z.div_mod_to_equations; lia).
    repeat case_decide; try done.
    revert HS. unfold _rotated_90_degrees_clockwise. boxed_map; set_unfold.
    + in_map (y0, 0).
    + in_map (y1, w - 1).
    + in_map (h - 1, x1).
    + in_map (0, x0).
  - assert (times mod 2 = 0) as -> by (Z.div_mod_to_equations; lia).
    repeat case_decide; try done.
    revert HS. unfold _rotated_180_degrees. boxed_map; set_unfold.
    + in_map (h - 1, x1).
    + in_map (0, x0).
    + in_map (y1, w - 1).
    + in_map (y0, 0).
  - assert (times mod 2 = 1) as -> by (Z.div_mod_to_equations; lia).
    repeat case_decide; try done.
    revert HS. unfold _rotated_90_degrees_counterclockwise. boxed_map; set_unfold.
    + in_map (y1, w - 1).
    + in_map (y0, 0).
    + in_map (0, x0).
    + in_map (h - 1, x1).
Qed.

Lemma boxed_max_corner h w S dy dx :
  boxed h w S →
  max_of (ys (_moved S (dy, dx))) = Some (dy + h - 1)
  ∧ max_of (xs (_moved S (dy, dx))) = Some (dx + w - 1).
Proof.
  intros (_ & [x1 Hx1] & _ & [y1 Hy1] & Hb). split; apply max_of_Some.
  - split.
    + apply elem_of_ys. exists (x1 + dx). apply elem_of_moved; cbn [fst snd].
      by replace (dy + h - 1 - dy) with (h - 1) by lia;
         replace (x1 + dx - dx) with x1 by lia.
    + intros z [x Hd%elem_of_moved%Hb]%elem_of_ys. cbn [fst snd] in Hd. lia.
  - split.
    + apply elem_of_xs. exists (y1 + dy). apply elem_of_moved; cbn [fst snd].
      by replace (dx + w - 1 - dx) with (w - 1) by lia;
         replace (y1 + dy - dy) with y1 by lia.
    + intros z [y Hd%elem_of_moved%Hb]%elem_of_xs. cbn [fst snd] in Hd. lia.
Qed.

(** X8: for a shape built by the constructor from dots whose least row and
    least column are 0, whatever config the setter is given, the location
    kept is the top left corner of the bounding box of the dots shown: their
    least row and column are those of the location, and their greatest row
    and column lie the shown height and width further, where height and
    width of the shape change places after an odd number of quarter turns. *)
Theorem shown_bounding_box (dots : gset Dot) (o0 : obj) (config : Config) :
  init dots = Ok (shape o0) →
  min_of (ys dots) = Some 0 → min_of (xs dots) = Some 0 →
  let o := set_config o0 config in
  min_of (ys (_dots_set o)) = Some (location (_config o)).1
  ∧ min_of (xs (_dots_set o)) = Some (location (_config o)).2
  ∧ max_of (ys (_dots_set o))
    = Some ((location (_config o)).1 + shown_height o - 1)
  ∧ max_of (xs (_dots_set o))
    = Some ((location (_config o)).2 + shown_width o - 1).
Proof.
  intros Hinit Hy Hx o.
  pose proof (init_boxed _ _ Hinit Hy Hx) as Hboxed.
  assert (boxed (shown_height o) (shown_width o)
            (oriented (shape o0) (normalized config))) as Hshown.
  { unfold shown_height, shown_width, oriented.
    apply rotated_boxed_parity.
    unfold _initial_dots_flipped. case_decide; [exact Hboxed|].
    by apply flipped_boxed. }
  assert (_dots_set o
          = _moved (oriented (shape o0) (normalized config))
                   ((location (_config o)).1, (location (_config o)).2)) as ->.
  { unfold o, set_config. cbn [_dots_set _config shape].
    rewrite (configured_oriented (shape o0) (normalized config)).
    by destruct (location (normalized config)). }
  destruct (boxed_min_corner _ _ _ (location (_config o)).1
              (location (_config o)).2 Hshown) as [Hmin1 Hmin2].
  destruct (boxed_max_corner _ _ _ (location (_config o)).1
              (location (_config o)).2 Hshown) as [Hmax1 Hmax2].
  by split_and!.
Qed.

End boxes.

Section grid_facts.
Import DotsGrid.

Lemma elem_of_get_all_dots_at (g : t) (config : Config) (d : Dot) :
  d ∈ _get_all_dots_at g config
  ↔ ((location config).1 ≤ d.1 ∧ d.1 < (location config).1 + _height g)
    ∧ ((location config).2 ≤ d.2 ∧ d.2 < (location config).2 + _width g).
Proof.
  unfold _get_all_dots_at. destruct (location config) as [y0 x0].
  cbn [fst snd]. apply elem_of_grid.
Qed.

Lemma rotated_in_square (h : Z) (S : gset Dot) (times : Z) :
  (∀ d : Dot, d ∈ S → (0 ≤ d.1 ∧ d.1 < h) ∧ (0 ≤ d.2 ∧ d.2 < h)) →
  ∀ d : Dot, d ∈ DotsSet._rotated_clockwise h h S times →
             (0 ≤ d.1 ∧ d.1 < h) ∧ (0 ≤ d.2 ∧ d.2 < h).
Proof.
  intros HS d. unfold DotsSet._rotated_clockwise,
    DotsSet._rotated_90_degrees_clockwise, DotsSet._rotated_180_degrees,
    DotsSet._rotated_90_degrees_counterclockwise.
  repeat case_decide; [apply HS|..];
    intros ([y x] & -> & Hd%HS)%elem_of_map; cbn [fst snd] in *; lia.
Qed.

(** X9: the constructor of [DotsGrid] raises [TypeError] exactly when a
    closed dot of either side lies outside the [height] x [width] tile.  For
    a square grid it accepts, at every config the closed dots lie on the
    tile, the open and the closed dots share no dot and make up the tile
    together, there are as many closed dots as the side facing up has, and
    the tile is the [height] x [width] block of dots at the location. *)
Theorem grid_open_and_closed_dots
    (closed_black_dots closed_white_dots : gset Dot) (height width : Z) :
  (init closed_black_dots closed_white_dots height width = Raise TypeError ↔
     ∃ d : Dot, d ∈ closed_black_dots ∪ closed_white_dots
                ∧ (d.1 < 0 ∨ d.2 < 0 ∨ height ≤ d.1 ∨ width ≤ d.2))
  ∧ (∀ g config,
       init closed_black_dots closed_white_dots height width = Ok g →
       height = width →
       _get_closed_dots_at g config ⊆ _get_all_dots_at g config
       ∧ _get_open_dots_at g config ## _get_closed_dots_at g config
       ∧ _get_open_dots_at g config ∪ _get_closed_dots_at g config
         = _get_all_dots_at g config
       ∧ size (_get_closed_dots_at g config)
         = size (if decide (flips config mod 2 = 0)
                 then closed_black_dots else closed_white_dots)
       ∧ ∀ d : Dot, d ∈ _get_all_dots_at g config ↔
           ((location config).1 ≤ d.1 ∧ d.1 < (location config).1 + height)
           ∧ ((location config).2 ≤ d.2 ∧ d.2 < (location config).2 + width)).
Proof.
  unfold init, _are_valid_dots, DotsSet._are_valid_dots.
  set (all := closed_black_dots ∪ closed_white_dots).
  destruct (decide (set_Forall (λ dot : Dot, 0 ≤ dot.1 ∧ 0 ≤ dot.2) all))
    as [Hpos|Hneg];
    [rewrite (bool_decide_eq_true_2 _ Hpos)
    |rewrite (bool_decide_eq_false_2 _ Hneg)]; cbn [andb].
  2:{ split; [|done]. split; [intros _|done].
      apply not_set_Forall_Exists in Hneg as (d & Hd & Hbad); [|apply _].
      exists d. split; [exact Hd|]. unfold compose in Hbad. cbn beta in Hbad.
      lia. }
  destruct (decide (set_Forall (λ dot : Dot, dot.1 < height ∧ dot.2 < width) all))
    as [Hin|Hout];
    [rewrite (bool_decide_eq_true_2 _ Hin)
    |rewrite (bool_decide_eq_false_2 _ Hout)].
  2:{ split; [|done]. split; [intros _|done].
      apply not_set_Forall_Exists in Hout as (d & Hd & Hbad); [|apply _].
      exists d. split; [exact Hd|]. unfold compose in Hbad. cbn beta in Hbad.
      lia. }
  split.
  { split; [done|]. intros (d & Hd & Hbad).
    specialize (Hpos d Hd). specialize (Hin d Hd). cbn beta in *.
    exfalso. lia. }
  intros g config [= <-] <-.
  assert (∀ d : Dot,
            d ∈ _get_closed_dots_at
                  (mk closed_black_dots closed_white_dots height height) config →
            ((location config).1 ≤ d.1 ∧ d.1 < (location config).1 + height)
            ∧ ((location config).2 ≤ d.2 ∧ d.2 < (location config).2 + height))
    as Hclosed.
  { intros d. unfold _get_closed_dots_at. cbn [_height _width].
    destruct (location config) as [y0 x0]. cbn [fst snd].
    intros Hd%elem_of_moved.
    eapply (rotated_in_square height) in Hd; [cbn [fst snd] in Hd; lia|].
    intros d' Hd'. unfold _initial_dots_flipped in Hd'.
    cbn [_initial_closed_black_dots _initial_closed_white_dots] in Hd'.
    assert (d' ∈ all) as Hall by (case_decide; set_solver).
    specialize (Hpos d' Hall). specialize (Hin d' Hall). cbn beta in *. lia. }
  assert (_get_closed_dots_at
            (mk closed_black_dots closed_white_dots height height) config
          ⊆ _get_all_dots_at
              (mk closed_black_dots closed_white_dots height height) config)
    as Hsub.
  { intros d Hd. apply elem_of_get_all_dots_at. cbn [_height _width].
    by apply Hclosed. }
  split_and!.
  - exact Hsub.
  - unfold _get_open_dots_at. set_solver.
  - unfold _get_open_dots_at. apply set_eq. intros d.
    rewrite elem_of_union, elem_of_difference.
    destruct (decide (d ∈ _get_closed_dots_at
                (mk closed_black_dots closed_white_dots height height) config));
      set_solver.
  - unfold _get_closed_dots_at. rewrite size_moved, size_rotated_clockwise.
    reflexivity.
  - intros d. by rewrite elem_of_get_all_dots_at.
Qed.

End grid_facts.

Lemma min_by_least {A} (key : A → nat) (l : list A) (x : A) :
  min_by key l = Some x → x ∈ l ∧ ∀ y, y ∈ l → (key x ≤ key y)%nat.
Proof.
  destruct l as [|b l]; [done|]. cbn [min_by]. intros [= <-].
  assert (∀ l best,
    let r := foldl (λ best y, if (key y <? key best)%nat then y else best) best l in
    r ∈ best :: l ∧ (key r ≤ key best)%nat ∧ ∀ y, y ∈ l → (key r ≤ key y)%nat)
    as Hfold.
  { clear. induction l as [|z l IH]; intros best; cbn [foldl].
    - split; [left|]. split; [lia|]. by intros ? ?%elem_of_nil.
    - destruct (IH (if (key z <? key best)%nat then z else best))
        as (Hin & Hle & Hall).
      destruct (Nat.ltb_spec (key z) (key best)) as [Hlt|Hge].
      + split_and!.
        * right. exact Hin.
        * lia.
        * intros y [->|Hy]%elem_of_cons; [lia|by apply Hall].
      + split_and!.
        * apply elem_of_cons in Hin as [->|Hin]; [left|right; by right].
        * lia.
        * intros y [->|Hy]%elem_of_cons; [lia|by apply Hall]. }
  destruct (Hfold l b) as (Hin & Hle & Hall). split; [exact Hin|].
  intros y [->|Hy]%elem_of_cons; [exact Hle|by apply Hall].
Qed.

Section search_facts.
Context {V D St : Type} `{Countable V, Countable D} `{!CSP V D St}.
Import CSPSolver.

Implicit Types (a : gmap V D) (d : gmap V (gset D)) (st : St).

(** X10: [select_unassigned_variable] gives a variable that has a domain
    and no value yet, and none of these has fewer values left in its domain;
    it has no answer (where [min] raises [ValueError]) exactly when every
    variable with a domain has a value. *)
Theorem select_unassigned_variable_least a d :
  (∀ var, select_unassigned_variable a d = Some var →
     var ∈ dom d ∧ var ∉ dom a
     ∧ ∀ v, v ∈ dom d → v ∉ dom a → (size (d !!! var) ≤ size (d !!! v))%nat)
  ∧ (select_unassigned_variable a d = None ↔ dom d ⊆ dom a).
Proof.
  unfold select_unassigned_variable. split.
  - intros var [Hin Hleast]%min_by_least.
    apply elem_of_elements, elem_of_difference in Hin as [Hd Ha].
    split_and!; [done..|].
    intros v Hv Hva. apply Hleast, elem_of_elements. set_solver.
  - rewrite min_by_None. split.
    + intros Hnil%elements_empty_inv. set_solver.
    + intros Hsub. assert (dom d ∖ dom a = ∅) as -> by set_solver.
      apply elements_empty.
Qed.

Lemma filter_domains_None st d vars : ∀ nd0,
  filter_domains st d vars nd0 = None
  ↔ ∃ var, var ∈ vars ∧ consistent_values st d var = ∅.
Proof.
  induction vars as [|v vars IH]; intros nd0; cbn [filter_domains].
  { split; [done|]. by intros (? & ?%elem_of_nil & _). }
  fold (consistent_values st d v). case_decide as Hv.
  - split; [intros _|done]. exists v. split; [left|done].
  - rewrite IH. split.
    + intros (var & Hin & Hvar). exists var. split; [by right|done].
    + intros (var & [->|Hin]%elem_of_cons & Hvar); [done|by exists var].
Qed.

(** X11: [forward_check] hands back the assignments and the state as
    [register_current_assignments] leaves them, and it reports failure
    exactly when the registration fails or some variable that has a domain
    and still no value is left without a consistent value. *)
Theorem forward_check_failure st a d :
  let reg := register_current_assignments st a d in
  let fc := forward_check st a d in
  fc.1.2 = reg.1.2 ∧ fc.2 = reg.2
  ∧ (fc.1.1 = None ↔
       reg.1.1 = false
       ∨ ∃ var, var ∈ dom d ∧ var ∉ dom reg.1.2
                ∧ ∀ val, val ∈ d !!! var →
                         is_consistent_assignment reg.2 (var, val) = false).
Proof.
  unfold forward_check.
  destruct (register_current_assignments st a d) as [[ok a'] st'].
  cbn [fst snd]. destruct ok; cbn [fst snd].
  - split_and!; [done..|]. rewrite filter_domains_None. split.
    + intros (var & [Hd Ha]%elem_of_elements%elem_of_difference & Hnone).
      right. exists var. split_and!; [done..|].
      intros val Hval. apply not_true_is_false. intros Hc.
      assert (val ∈ consistent_values st' d var) as Hin
        by (by apply elem_of_filter).
      rewrite Hnone in Hin. by apply elem_of_empty in Hin.
    + intros [?|(var & Hd & Ha & Hnone)]; [done|].
      exists var. split; [apply elem_of_elements; set_solver|].
      apply set_eq. intros val. split; [|by intros ?%elem_of_empty].
      intros [Hc Hval]%elem_of_filter. rewrite (Hnone val Hval) in Hc. done.
  - split_and!; [done..|]. split; [by left|done].
Qed.

Lemma try_values_complete
    (rec : St → gmap V D → option (gmap V (gset D)) → outcome search)
    (n : nat) var old d vals :
  (∀ st a doms r, rec st a doms = Return r → found r = true →
                  size (dict_of r) = n) →
  ∀ st a r, try_values rec var old d vals st a = Return r → found r = true →
            size (dict_of r) = n.
Proof.
  intros Hrec. induction vals as [|val vals IH]; intros st a r; cbn [try_values].
  { by intros [= <-]. }
  destruct (forward_check st (<[var:=val]> a) d) as [[nd a1] st1].
  destruct (rec st1 a1 nd) as [sol| |] eqn:Hsol; [|done..].
  destruct (truthy sol) eqn:Htruthy.
  - intros [= <-] Hfound. by eapply Hrec.
  - apply IH.
Qed.

Lemma back_tracking_search_complete fuel n : ∀ st a doms r,
  back_tracking_search fuel n st a doms = Return r → found r = true →
  size (dict_of r) = n.
Proof.
  induction fuel as [|fuel IH]; intros st a doms r; cbn [back_tracking_search];
    [done|].
  case_decide as Hsize; [by intros [= <-]|].
  destruct doms as [d|]; [|by intros [= <-]].
  case_decide; [by intros [= <-]|].
  destruct (select_unassigned_variable a d) as [var|]; [|done].
  by apply try_values_complete.
Qed.

(** X12: whatever the problem does in its methods, a dictionary that the
    solver returns holds as many variables as the problem has: a partial
    assignment is never returned. *)
Theorem call_never_partial (fuel : nat) st sol st' :
  call fuel st = Return (Some sol, st') → size sol = size (variables st).
Proof.
  unfold call. case_decide; [done|].
  destruct (back_tracking_search fuel (size (variables st)) st ∅
              (Some (domains st))) as [r| |] eqn:Hr; [|done..].
  unfold returned. destruct (found r) eqn:Hfound; [|done].
  intros [= <- <-]. by eapply back_tracking_search_complete.
Qed.

End search_facts.

Section size_rule.
Import QuadrillionCSPAdapter.

(** X13: the rule on sizes read as a table.  A connected set of [c] empty
    dots among [n] is accepted exactly when [n] leaves 0 on division by 5 and
    so does [c]; or [n] leaves 4 and [c] leaves 0 or 4; or [n] leaves 3 and
    [c] leaves 0 or 3; or [n] leaves 2 and [c] leaves 0, 3 or 4, or leaves 2
    and is at least 7.  So nothing is accepted when [n] leaves 1, and what is
    accepted can be made up of shapes of five dots and at most one of four
    and one of three dots. *)
Theorem size_rule_table (n c : Z) :
  (_is_valid_nr_empty_connected_dots n c = true ↔
     (n mod 5 = 0 ∧ c mod 5 = 0)
     ∨ (n mod 5 = 4 ∧ (c mod 5 = 0 ∨ c mod 5 = 4))
     ∨ (n mod 5 = 3 ∧ (c mod 5 = 0 ∨ c mod 5 = 3))
     ∨ (n mod 5 = 2 ∧ (c mod 5 = 0 ∨ c mod 5 = 3 ∨ c mod 5 = 4
                       ∨ (c mod 5 = 2 ∧ 7 ≤ c))))
  ∧ (0 ≤ c → _is_valid_nr_empty_connected_dots n c = true →
     ∃ fives fours threes,
       0 ≤ fives ∧ (fours = 0 ∨ fours = 1) ∧ (threes = 0 ∨ threes = 1)
       ∧ c = 5 * fives + 4 * fours + 3 * threes).
Proof.
  assert (_is_valid_nr_empty_connected_dots n c = true ↔
     (n mod 5 = 0 ∧ c mod 5 = 0)
     ∨ (n mod 5 = 4 ∧ (c mod 5 = 0 ∨ c mod 5 = 4))
     ∨ (n mod 5 = 3 ∧ (c mod 5 = 0 ∨ c mod 5 = 3))
     ∨ (n mod 5 = 2 ∧ (c mod 5 = 0 ∨ c mod 5 = 3 ∨ c mod 5 = 4
                       ∨ (c mod 5 = 2 ∧ 7 ≤ c)))) as Htable.
  { unfold _is_valid_nr_empty_connected_dots.
    rewrite !orb_true_iff, !andb_true_iff, !orb_true_iff, !andb_true_iff,
      !bool_decide_eq_true.
    pose proof (Z.mod_pos_bound c 5).
    assert (c mod 5 = 0 ∨ c mod 5 = 1 ∨ c mod 5 = 2 ∨ c mod 5 = 3 ∨ c mod 5 = 4)
      as Hc by lia.
    assert ((n - 4) mod 5 = 0 ↔ n mod 5 = 4) as -> by (Z.div_mod_to_equations; lia).
    assert ((n - 3) mod 5 = 0 ↔ n mod 5 = 3) as -> by (Z.div_mod_to_equations; lia).
    assert ((n - 7) mod 5 = 0 ↔ n mod 5 = 2) as -> by (Z.div_mod_to_equations; lia).
    assert ((c - 7) mod 5 = 0 ↔ c mod 5 = 2) as -> by (Z.div_mod_to_equations; lia).
    destruct Hc as [Hc|[Hc|[Hc|[Hc|Hc]]]]; rewrite !Hc;
      change (0 mod 4) with 0; change (1 mod 4) with 1; change (2 mod 4) with 2;
      change (3 mod 4) with 3; change (4 mod 4) with 0;
      change (0 mod 3) with 0; change (1 mod 3) with 1; change (2 mod 3) with 2;
      change (3 mod 3) with 0; change (4 mod 3) with 1; lia. }
  split; [exact Htable|].
  intros Hc [Hv|[Hv|[Hv|Hv]]]%Htable.
  - exists (c / 5), 0, 0. Z.div_mod_to_equations. lia.
  - destruct Hv as [_ [Hv|Hv]].
    + exists (c / 5), 0, 0. Z.div_mod_to_equations. lia.
    + exists (c / 5), 1, 0. Z.div_mod_to_equations. lia.
  - destruct Hv as [_ [Hv|Hv]].
    + exists (c / 5), 0, 0. Z.div_mod_to_equations. lia.
    + exists (c / 5), 0, 1. Z.div_mod_to_equations. lia.
  - destruct Hv as [_ [Hv|[Hv|[Hv|[Hv Hge]]]]].
    + exists (c / 5), 0, 0. Z.div_mod_to_equations. lia.
    + exists (c / 5), 0, 1. Z.div_mod_to_equations. lia.
    + exists (c / 5), 1, 0. Z.div_mod_to_equations. lia.
    + exists (c / 5 - 1), 1, 1. Z.div_mod_to_equations. lia.
Qed.

End size_rule.

Lemma size_list_to_set_le (l : list Dot) :
  (size (list_to_set l : gset Dot) ≤ length l)%nat.
Proof.
  induction l as [|x l IH]; [by rewrite list_to_set_nil, size_empty|].
  rewrite list_to_set_cons. cbn [length].
  rewrite size_union_alt, size_singleton.
  pose proof (subseteq_size (list_to_set l ∖ {[x]}) (list_to_set l : gset Dot))
    as Hsub.
  assert (list_to_set l ∖ {[x]} ⊆ (list_to_set l : gset Dot)) as Hd
    by set_solver.
  specialize (Hsub Hd). lia.
Qed.

Lemma length_size_NoDup (l : list Dot) :
  length l = size (list_to_set l : gset Dot) ↔ NoDup l.
Proof.
  split; [|intros Hnd; symmetry; by apply size_list_to_set].
  induction l as [|x l IH]; [constructor|].
  rewrite list_to_set_cons. cbn [length]. intros Hlen.
  pose proof (size_list_to_set_le l) as Hle.
  destruct (decide (x ∈ l)) as [Hin|Hout].
  - exfalso.
    assert ({[x]} ∪ list_to_set l = (list_to_set l : gset Dot)) as Hsame
      by set_solver.
    rewrite Hsame in Hlen. lia.
  - constructor; [exact Hout|]. apply IH.
    rewrite size_union in Hlen by set_solver.
    rewrite size_singleton in Hlen. lia.
Qed.

Lemma NoDup_bind_disjoint {A} (f : A → list Dot) (l : list A) :
  NoDup l →
  (NoDup (l ≫= f) ↔
     (∀ x, x ∈ l → NoDup (f x))
     ∧ ∀ x1 x2 y, x1 ∈ l → x2 ∈ l → x1 ≠ x2 → y ∈ f x1 → y ∈ f x2 → False).
Proof.
  induction 1 as [|x l Hx Hnd IH]; cbn [mbind list_bind].
  { split; [intros _|constructor].
    split; [by intros ? ?%elem_of_nil|by intros ??? ?%elem_of_nil]. }
  change (NoDup (f x ++ (l ≫= f)) ↔
    (∀ x0, x0 ∈ x :: l → NoDup (f x0))
    ∧ ∀ x1 x2 y, x1 ∈ x :: l → x2 ∈ x :: l → x1 ≠ x2 →
                 y ∈ f x1 → y ∈ f x2 → False).
  rewrite NoDup_app, IH. split.
  - intros (Hfx & Hdisj & Hall & Hpair). split.
    + intros x0 [->|Hx0]%elem_of_cons; [exact Hfx|by apply Hall].
    + intros x1 x2 y [->|H1]%elem_of_cons [->|H2]%elem_of_cons Hne Hy1 Hy2.
      * by destruct Hne.
      * eapply Hdisj; [exact Hy1|]. apply list_elem_of_bind. by exists x2.
      * eapply Hdisj; [exact Hy2|]. apply list_elem_of_bind. by exists x1.
      * exact (Hpair x1 x2 y H1 H2 Hne Hy1 Hy2).
  - intros [Hall Hpair]. split_and!.
    + apply Hall. left.
    + intros y Hy1 (x2 & Hy2 & Hx2)%list_elem_of_bind.
      eapply (Hpair x x2 y); [left|by right| |done..].
      intros ->. done.
    + intros x0 Hx0. apply Hall. by right.
    + intros x1 x2 y H1 H2. apply Hpair; by right.
Qed.

Section strategy_facts.
Context {Item : Type} `{Countable Item}.
Variables (dim : Z * Z) (dots : Item → gset Dot) (items picked : gset Item).
Import Quadrillion.

Lemma is_overlapping_spec (item_dots : gset Dot) :
  is_overlapping_released_items dots items picked item_dots = true
  ↔ ∃ other, other ∈ items ∧ other ∉ picked ∧ ¬ item_dots ## dots other.
Proof.
  unfold is_overlapping_released_items, released_items.
  rewrite bool_decide_eq_true. split.
  - intros (dot & Hdot & other & [Hi Hp]%elem_of_difference & Hin).
    exists other. split_and!; [done..|].
    intros Hdisj. by apply (elem_of_disjoint item_dots (dots other)) in Hin.
  - intros (other & Hi & Hp & Hover).
    assert (∃ dot, dot ∈ item_dots ∧ dot ∈ dots other) as (dot & Hdot & Hin).
    { destruct (decide (item_dots ∩ dots other = ∅)) as [Hempty|Hne].
      - exfalso. apply Hover. apply elem_of_disjoint. intros d Hd Hd'.
        assert (d ∈ item_dots ∩ dots other) as Hd'' by (by apply elem_of_intersection).
        rewrite Hempty in Hd''. by apply elem_of_empty in Hd''.
      - apply set_choose_L in Hne as [d [??]%elem_of_intersection]. by exists d. }
    exists dot. split; [exact Hdot|]. exists other. split; [|exact Hin].
    by apply elem_of_difference.
Qed.

Lemma are_separated_spec (set : gset Item) :
  _are_separated dots set = true
  ↔ ∀ i j, i ∈ set → j ∈ set → i ≠ j → dots i ## dots j.
Proof.
  unfold _are_separated, _get_all_dots_list.
  rewrite bool_decide_eq_true, length_size_NoDup.
  rewrite NoDup_bind_disjoint by apply NoDup_elements. split.
  - intros [_ Hpair] i j Hi Hj Hne. apply elem_of_disjoint. intros d Hdi Hdj.
    eapply (Hpair i j d); [by apply elem_of_elements..|done| |];
      by apply elem_of_elements.
  - intros Hpair. split; [intros; apply NoDup_elements|].
    intros i j d Hi%elem_of_elements Hj%elem_of_elements Hne
           Hdi%elem_of_elements Hdj%elem_of_elements.
    by apply (elem_of_disjoint (dots i) (dots j)) with d; [apply Hpair|..].
Qed.

(** X14: a strategy can release what it holds exactly when every picked
    item lies on the board, shares no dot with a released item of its kind,
    and no two picked items share a dot. *)
Theorem is_release_possible_spec :
  is_release_possible dim dots items picked = true
  ↔ (∀ i, i ∈ picked →
       (∀ d : Dot, d ∈ dots i →
          (0 ≤ d.1 ∧ d.1 < dim.1) ∧ (0 ≤ d.2 ∧ d.2 < dim.2))
       ∧ ∀ other, other ∈ items → other ∉ picked → dots i ## dots other)
    ∧ (∀ i j, i ∈ picked → j ∈ picked → i ≠ j → dots i ## dots j).
Proof.
  unfold is_release_possible.
  rewrite andb_true_iff, forallb_forall, are_separated_spec.
  apply and_iff_compat_r. split.
  - intros Hall i Hi.
    assert (In i (elements picked)) as Hin
      by (by apply list_elem_of_In, elem_of_elements).
    apply Hall, andb_true_iff in Hin as [Hboard Hover].
    split.
    + unfold is_on_board in Hboard. apply bool_decide_eq_true in Hboard.
      exact Hboard.
    + intros other Ho Hp. apply negb_true_iff in Hover.
      destruct (decide (dots i ## dots other)) as [|Hnot]; [done|].
      assert (is_overlapping_released_items dots items picked (dots i) = true)
        as Htrue by (apply is_overlapping_spec; by exists other).
      by rewrite Htrue in Hover.
  - intros Hall i Hi%list_elem_of_In%elem_of_elements.
    destruct (Hall i Hi) as [Hboard Hfree]. apply andb_true_iff. split.
    + apply bool_decide_eq_true. exact Hboard.
    + apply negb_true_iff, not_true_is_false.
      intros (other & Ho & Hp & Hover)%is_overlapping_spec.
      by apply Hover, Hfree.
Qed.

Lemma elem_of_released_dots (d : Dot) :
  d ∈ released_dots dots items picked
  ↔ ∃ i, i ∈ items ∧ i ∉ picked ∧ d ∈ dots i.
Proof.
  unfold released_dots, _get_all_dots_list, released_items.
  rewrite elem_of_list_to_set, list_elem_of_bind. split.
  - intros (i & Hd%elem_of_elements & [Hi Hp]%elem_of_elements%elem_of_difference).
    by exists i.
  - intros (i & Hi & Hp & Hd). exists i.
    split; apply elem_of_elements; [done|by apply elem_of_difference].
Qed.

Lemma strategy_get_at_Some (dot : Dot) (i : Item) :
  strategy_get_at dots items picked dot = Some i →
  i ∈ items ∧ i ∉ picked ∧ dot ∈ dots i.
Proof.
  unfold strategy_get_at, released_items.
  intros [Hin Hd]%find_some.
  apply list_elem_of_In, elem_of_elements, elem_of_difference in Hin as [Hi Hp].
  apply bool_decide_eq_true in Hd. by split_and!.
Qed.

Lemma strategy_get_at_None (dot : Dot) :
  strategy_get_at dots items picked dot = None
  ↔ ∀ i, i ∈ items → i ∉ picked → dot ∉ dots i.
Proof.
  unfold strategy_get_at, released_items. split.
  - intros Hnone i Hi Hp.
    assert (In i (elements (items ∖ picked))) as Hin
      by (apply list_elem_of_In, elem_of_elements; by apply elem_of_difference).
    apply (find_none _ _ Hnone), bool_decide_eq_false in Hin. exact Hin.
  - intros Hall.
    destruct (find _ _) as [i|] eqn:Hfind; [|done].
    apply find_some in Hfind as [Hin Hd].
    apply list_elem_of_In, elem_of_elements, elem_of_difference in Hin as [Hi Hp].
    apply bool_decide_eq_true in Hd. by destruct (Hall i Hi Hp).
Qed.

End strategy_facts.

Section board_facts.
Import Quadrillion.

Lemma existsb_false_iff {A} (f : A → bool) (l : list A) :
  existsb f l = false ↔ ∀ x, x ∈ l → f x = false.
Proof.
  induction l as [|y l IH]; cbn [existsb].
  - split; [by intros _ ? ?%elem_of_nil|done].
  - rewrite orb_false_iff, IH. split.
    + intros [Hy Hl] x [->|Hx]%elem_of_cons; auto.
    + intros Hall. split; [apply Hall; left|intros x Hx; apply Hall; by right].
Qed.

Lemma shapes_overlap_false (q : t) (item_dots : gset Dot) :
  shapes_overlap q item_dots = false
  ↔ ∀ s, s ∈ dom (shapes q) → s ∉ shape_picked q → item_dots ## shape_dots q s.
Proof.
  unfold shapes_overlap. rewrite <- not_true_iff_false, is_overlapping_spec.
  split.
  - intros Hno s Hs Hp.
    destruct (decide (item_dots ## shape_dots q s)) as [|Hnot]; [done|].
    exfalso. apply Hno. by exists s.
  - intros Hall (s & Hs & Hp & Hover). by apply Hover, Hall.
Qed.

Lemma grids_overlap_false (q : t) (item_dots : gset Dot) :
  grids_overlap q item_dots = false
  ↔ ∀ g, g ∈ dom (grids q) → g ∉ grid_picked q → item_dots ## grid_dots q g.
Proof.
  unfold grids_overlap. rewrite <- not_true_iff_false, is_overlapping_spec.
  split.
  - intros Hno g Hg Hp.
    destruct (decide (item_dots ## grid_dots q g)) as [|Hnot]; [done|].
    exfalso. apply Hno. by exists g.
  - intros Hall (g & Hg & Hp & Hover). by apply Hover, Hall.
Qed.

Lemma elem_of_released_open_dots (q : t) (d : Dot) :
  d ∈ released_open_dots q
  ↔ ∃ g, g ∈ dom (grids q) ∧ g ∉ grid_picked q ∧ d ∈ grid_open_dots q g.
Proof.
  unfold released_open_dots, released_items.
  rewrite elem_of_union_list. split.
  - intros (X & (g & -> & [Hg Hp]%elem_of_elements%elem_of_difference)%list_elem_of_fmap
            & Hd).
    by exists g.
  - intros (g & Hg & Hp & Hd). exists (grid_open_dots q g). split; [|exact Hd].
    apply list_elem_of_fmap. exists g. split; [done|].
    apply elem_of_elements. by apply elem_of_difference.
Qed.

(** X15: the rules of the shapes.  A shape counts as released and unplaced
    exactly when it is a shape of the board, is not picked and shares no dot
    with a released grid, closed dots included.  The picked shapes can be
    released exactly when the general rule of a strategy allows it and every
    picked shape lies entirely on open dots of released grids or shares no
    dot with a released grid. *)
Theorem shape_rules (q : t) :
  (∀ s, s ∈ released_unplaced_shapes q ↔
        s ∈ dom (shapes q) ∧ s ∉ shape_picked q
        ∧ ∀ g, g ∈ dom (grids q) → g ∉ grid_picked q →
               shape_dots q s ## grid_dots q g)
  ∧ (shape_is_release_possible q = true ↔
       is_release_possible (dot_space_dim q) (shape_dots q)
                           (dom (shapes q)) (shape_picked q) = true
       ∧ ∀ s, s ∈ shape_picked q →
              shape_dots q s ⊆ released_open_dots q
              ∨ ∀ g, g ∈ dom (grids q) → g ∉ grid_picked q →
                     shape_dots q s ## grid_dots q g).
Proof.
  split.
  - intros s. unfold released_unplaced_shapes, released_items.
    rewrite elem_of_filter, elem_of_difference, grids_overlap_false. tauto.
  - unfold shape_is_release_possible.
    rewrite andb_true_iff, forallb_forall. apply and_iff_compat_l. split.
    + intros Hall s Hs.
      assert (In s (elements (shape_picked q))) as Hin
        by (by apply list_elem_of_In, elem_of_elements).
      apply Hall, orb_true_iff in Hin as [Hon|Hfree].
      * left. unfold is_on_released_open_dots in Hon.
        apply bool_decide_eq_true in Hon. exact Hon.
      * right. by apply grids_overlap_false, negb_true_iff.
    + intros Hall s Hs%list_elem_of_In%elem_of_elements.
      apply orb_true_iff. destruct (Hall s Hs) as [Hon|Hfree].
      * left. apply bool_decide_eq_true. exact Hon.
      * right. by apply negb_true_iff, grids_overlap_false.
Qed.

Lemma grid_is_release_possible_iff (q : t) :
  grid_is_release_possible q = true ↔
    is_release_possible (dot_space_dim q) (grid_dots q)
                        (dom (grids q)) (grid_picked q) = true
    ∧ ∀ g s, g ∈ grid_picked q → s ∈ dom (shapes q) → s ∉ shape_picked q →
             grid_dots q g ## shape_dots q s.
Proof.
  unfold grid_is_release_possible.
  rewrite andb_true_iff, negb_true_iff, existsb_false_iff.
  apply and_iff_compat_l. split.
  - intros Hall g s Hg. apply shapes_overlap_false, Hall.
    by apply elem_of_elements.
  - intros Hall g Hg%elem_of_elements. apply shapes_overlap_false.
    intros s. by apply Hall.
Qed.

Lemma grid_are_pickable_iff (q : t) (gs : gset DotsGrid.t) :
  grid_are_pickable q gs = true ↔
    gs ⊆ grid_picked q
    ∨ ∀ g s, g ∈ gs → s ∈ dom (shapes q) → s ∉ shape_picked q →
             grid_dots q g ## shape_dots q s.
Proof.
  unfold grid_are_pickable.
  rewrite orb_true_iff, bool_decide_eq_true, negb_true_iff, existsb_false_iff.
  apply or_iff_compat_l. split.
  - intros Hall g s Hg. apply shapes_overlap_false, Hall.
    by apply elem_of_elements.
  - intros Hall g Hg%elem_of_elements. apply shapes_overlap_false.
    intros s. by apply Hall.
Qed.

(** X16: the rules of the grids.  The picked grids can be released exactly
    when the general rule of a strategy allows it and none of them shares a
    dot with a released shape; and grids can be picked exactly when they are
    all picked already or none of them shares a dot with a released shape. *)
Theorem grid_rules (q : t) :
  (grid_is_release_possible q = true ↔
     is_release_possible (dot_space_dim q) (grid_dots q)
                         (dom (grids q)) (grid_picked q) = true
     ∧ ∀ g s, g ∈ grid_picked q → s ∈ dom (shapes q) → s ∉ shape_picked q →
              grid_dots q g ## shape_dots q s)
  ∧ (∀ gs, grid_are_pickable q gs = true ↔
       gs ⊆ grid_picked q
       ∨ ∀ g s, g ∈ gs → s ∈ dom (shapes q) → s ∉ shape_picked q →
                grid_dots q g ## shape_dots q s).
Proof.
  split; [apply grid_is_release_possible_iff|].
  intros gs. apply grid_are_pickable_iff.
Qed.

(** X17: the game is won exactly when nothing is picked and every open dot
    of every released grid is a dot of a released shape. *)
Theorem is_won_spec (q : t) :
  is_won q = true ↔
    _is_picked q = false
    ∧ ∀ g d, g ∈ dom (grids q) → g ∉ grid_picked q → d ∈ grid_open_dots q g →
             ∃ s, s ∈ dom (shapes q) ∧ s ∉ shape_picked q ∧ d ∈ shape_dots q s.
Proof.
  unfold is_won, released_empty_grids_dots.
  rewrite andb_true_iff, negb_true_iff, bool_decide_eq_true.
  apply and_iff_compat_l. rewrite size_empty_iff. split.
  - intros Hempty g d Hg Hp Hd.
    apply elem_of_released_dots.
    destruct (decide (d ∈ released_dots (shape_dots q) (dom (shapes q))
                            (shape_picked q))) as [|Hnot]; [done|].
    exfalso. apply (not_elem_of_empty (C:=gset Dot) d). apply Hempty.
    apply elem_of_difference. split; [|exact Hnot].
    apply elem_of_released_open_dots. by exists g.
  - intros Hall. apply elem_of_equiv_empty. intros d
      [(g & Hg & Hp & Hd)%elem_of_released_open_dots Hnot]%elem_of_difference.
    apply Hnot, elem_of_released_dots. by eapply Hall.
Qed.

(** X18: [get_at] raises [NoItemException], and nothing else, exactly when
    no released shape and no released grid has the dot; a shape it returns
    is a released shape that has the dot, and a grid it returns is a
    released grid that has the dot while no released shape has it. *)
Theorem get_at_spec (q : t) (dot : Dot) :
  (get_at q dot = Raise NoItemException ↔
     (∀ s, s ∈ dom (shapes q) → s ∉ shape_picked q → dot ∉ shape_dots q s)
     ∧ (∀ g, g ∈ dom (grids q) → g ∉ grid_picked q → dot ∉ grid_dots q g))
  ∧ (∀ e, get_at q dot = Raise e → e = NoItemException)
  ∧ (∀ s, get_at q dot = Ok (Shape s) →
       s ∈ dom (shapes q) ∧ s ∉ shape_picked q ∧ dot ∈ shape_dots q s)
  ∧ (∀ g, get_at q dot = Ok (Grid g) →
       g ∈ dom (grids q) ∧ g ∉ grid_picked q ∧ dot ∈ grid_dots q g
       ∧ ∀ s, s ∈ dom (shapes q) → s ∉ shape_picked q → dot ∉ shape_dots q s).
Proof.
  unfold get_at.
  destruct (strategy_get_at (shape_dots q) _ _ dot) as [s|] eqn:Hs.
  - apply strategy_get_at_Some in Hs as (Hin & Hp & Hd).
    split_and!; [|done| |done].
    + split; [done|]. intros [Hno _]. by destruct (Hno s Hin Hp).
    + by intros ? [= <-].
  - pose proof (proj1 (strategy_get_at_None _ _ _ _) Hs) as Hnos.
    destruct (strategy_get_at (grid_dots q) _ _ dot) as [g|] eqn:Hg.
    + apply strategy_get_at_Some in Hg as (Hin & Hp & Hd).
      split_and!; [|done|done|].
      * split; [done|]. intros [_ Hno]. by destruct (Hno g Hin Hp).
      * by intros ? [= <-].
    + pose proof (proj1 (strategy_get_at_None _ _ _ _) Hg) as Hnog.
      split_and!; [|by intros ? [= <-]|done|done].
      split; [done|reflexivity].
Qed.

End board_facts.

Section board_moves.
Import Quadrillion.

Lemma with_grid_picked_same (q : t) : with_grid_picked q (grid_picked q) = q.
Proof. by destruct q. Qed.

Lemma with_grid_picked_twice (q : t) gs gs' :
  with_grid_picked (with_grid_picked q gs) gs' = with_grid_picked q gs'.
Proof. reflexivity. Qed.

(** X19: [release] either succeeds, and then nothing is picked any more and
    no config has changed, or raises and leaves the board exactly as it was:
    [StateException] when nothing was picked, [IllegalReleaseException] when
    the grids or, the grids put down, the shapes cannot be released. *)
Theorem release_atomic (q : t) :
  (_is_picked q = false →
     release q = (Raise (StateException "Cannot release while no picked items!"), q))
  ∧ (_is_picked q = true →
     grid_is_release_possible q = true →
     shape_is_release_possible (with_grid_picked q ∅) = true →
     release q
     = (Ok (), with_is_picked (with_shape_picked (with_grid_picked q ∅) ∅) false))
  ∧ (_is_picked q = true →
     grid_is_release_possible q = false
     ∨ shape_is_release_possible (with_grid_picked q ∅) = false →
     release q = (Raise IllegalReleaseException, q)).
Proof.
  unfold release, grid_release, shape_release, grid_pick. split_and!.
  - by intros ->.
  - by intros -> -> ->.
  - intros -> Hno.
    destruct (grid_is_release_possible q) eqn:Hgrid.
    + destruct Hno as [?| ->]; [done|].
      assert (grid_are_pickable (with_grid_picked q ∅) (grid_picked q) = true)
        as ->.
      { apply grid_are_pickable_iff. right.
        apply grid_is_release_possible_iff in Hgrid as [_ Hfree]. exact Hfree. }
      by rewrite with_grid_picked_twice, with_grid_picked_same.
    + assert (grid_are_pickable q (grid_picked q) = true) as ->.
      { apply grid_are_pickable_iff. by left. }
      by rewrite with_grid_picked_same.
Qed.


End board_moves.

Section adapter_guards.
Import QuadrillionCSPAdapter.

(** X21: while items are picked, [solve] and [help] raise
    [StateException] whatever else holds, before any search; the board is
    left as it was. *)
Theorem picked_board_refused (a : t) (limit : nat) :
  Quadrillion._is_picked (quadrillion a) = true →
  (solve limit a).1 = Raise (StateException "Cannot solve while items are picked.")
  ∧ (help limit a).1 = Raise (StateException "Cannot solve while items are picked.")
  ∧ quadrillion (solve limit a).2 = quadrillion a
  ∧ quadrillion (help limit a).2 = quadrillion a.
Proof.
  intros Hp.
  assert (∃ a', _get_solution limit a
                = (Raise (StateException "Cannot solve while items are picked."), a')
                ∧ quadrillion a' = quadrillion a) as (a' & Hget & Hq).
  { unfold _get_solution, Quadrillion.is_won. rewrite Hp. cbn [negb andb].
    cbn [quadrillion with_problem]. unfold Quadrillion.pick. rewrite Hp.
    eexists. split; [reflexivity|reflexivity]. }
  unfold solve, help. rewrite Hget. by cbn [fst snd].
Qed.

(** X22: [_extract_domains] raises exactly when there is no empty dot, and
    then [ValueError], from taking the least of no rows. *)
Theorem extract_domains_raises (a : t) :
  (∀ e, _extract_domains a = Raise e ↔ e = ValueError ∧ _empty_grids_dots a = ∅).
Proof.
  intros e. unfold _extract_domains.
  destruct (decide (_empty_grids_dots a = ∅)) as [Hempty|Hne].
  - rewrite Hempty.
    assert ((valid_empty_dots ∅).1 = true) as -> by (vm_compute; reflexivity).
    assert (_get_smallest_square_over_dots ∅ = Raise ValueError) as ->
      by (vm_compute; reflexivity).
    cbn [mbind result_bind]. split; [by intros [= <-]|by intros [-> _]].
  - destruct (valid_empty_dots (_empty_grids_dots a)).1.
    + destruct (smallest_rectangle _ Hne) as (R & _ & _ & _ & _ & -> & _).
      cbn [mbind result_bind]. split; [done|by intros [_ ?]].
    + split; [done|by intros [_ ?]].
Qed.

End adapter_guards.

Section placing.
Import QuadrillionCSPAdapter.

Lemma set_shape_dots_Ok (q q' : Quadrillion.t) (shape : DotsSet.t) (dots : gset Dot) :
  set_shape_dots q shape dots = Ok q' →
  ∃ config, q' = Quadrillion.with_shapes q (<[shape := config]> (Quadrillion.shapes q))
            ∧ DotsSet.configured shape config = dots.
Proof.
  unfold set_shape_dots.
  destruct (DotsSet.set_dots _ dots) as [o|e] eqn:Hset; [|done].
  cbn [mbind result_bind]. intros [= <-].
  apply set_dots_Ok in Hset as (y & x & config & _ & _ & _ & Hdots & ->).
  exists (DotsSet.normalized config). split; [reflexivity|].
  cbn [DotsSet.shape]. rewrite configured_normalized. exact Hdots.
Qed.

(** X23: when the loop of [solve] has gone through its shapes, each of them
    shows exactly the dots the solution gives it; the shapes it did not
    visit keep their config, and the grids and what is picked are as
    before. *)
Theorem place_all_spec (solution : gmap DotsSet.t (gset Dot))
    (shapes : list DotsSet.t) (q q' : Quadrillion.t) :
  place_all q solution shapes = (Ok (), q') →
  (∀ s, s ∈ shapes →
        ∃ dots, solution !! s = Some dots ∧ Quadrillion.shape_dots q' s = dots)
  ∧ (∀ s, s ∉ shapes → Quadrillion.shapes q' !! s = Quadrillion.shapes q !! s)
  ∧ Quadrillion.grids q' = Quadrillion.grids q
  ∧ Quadrillion.shape_picked q' = Quadrillion.shape_picked q
  ∧ Quadrillion.grid_picked q' = Quadrillion.grid_picked q
  ∧ Quadrillion._is_picked q' = Quadrillion._is_picked q.
Proof.
  revert q. induction shapes as [|s shapes IH]; intros q; cbn [place_all].
  { intros [= <-]. split_and!; [by intros ? ?%elem_of_nil|done..]. }
  destruct (solution !! s) as [dots|] eqn:Hsol; [|done].
  destruct (set_shape_dots q s dots) as [q1|e] eqn:Hset; [|done].
  intros (Hplaced & Hframe & Hg & Hsp & Hgp & Hp)%IH.
  apply set_shape_dots_Ok in Hset as (config & -> & Hdots).
  cbn [Quadrillion.shapes Quadrillion.grids Quadrillion.shape_picked
       Quadrillion.grid_picked Quadrillion._is_picked Quadrillion.with_shapes]
    in Hframe, Hg, Hsp, Hgp, Hp.
  split_and!; [| |done..].
  - intros s' Hs'.
    destruct (decide (s' ∈ shapes)) as [Hin|Hout]; [by apply Hplaced|].
    apply elem_of_cons in Hs' as [->|?]; [|done].
    exists dots. split; [exact Hsol|].
    unfold Quadrillion.shape_dots. rewrite (Hframe s Hout), lookup_insert_eq.
    exact Hdots.
  - intros s' Hs'. apply not_elem_of_cons in Hs' as [Hne Hout].
    rewrite (Hframe s' Hout). by rewrite lookup_insert_ne.
Qed.

End placing.

Section momentos.
Import Quadrillion.

Lemma config_of_set_item_config (q : t) (i0 i : item) (c0 : Config) :
  config_of (set_item_config q i0 c0) i
  = if decide (i = i0) then Some (DotsSet.normalized c0) else config_of q i.
Proof.
  destruct i0 as [s0|g0], i as [s|g]; cbn [set_item_config config_of];
    cbn [shapes grids with_shapes with_grids].
  - destruct (decide (s = s0)) as [->|Hne].
    + by rewrite decide_True, lookup_insert_eq.
    + rewrite decide_False by congruence. by rewrite lookup_insert_ne.
  - by rewrite decide_False.
  - by rewrite decide_False.
  - destruct (decide (g = g0)) as [->|Hne].
    + by rewrite decide_True, lookup_insert_eq.
    + rewrite decide_False by congruence. by rewrite lookup_insert_ne.
Qed.

Lemma restore_fold (ms : list (item * Config)) : ∀ q : t,
  NoDup ms.*1 →
  let q' := foldl (λ q' m, set_item_config q' m.1 m.2) q ms in
  (∀ i c, (i, c) ∈ ms → config_of q' i = Some (DotsSet.normalized c))
  ∧ (∀ i, i ∉ ms.*1 → config_of q' i = config_of q i)
  ∧ shape_picked q' = shape_picked q ∧ grid_picked q' = grid_picked q
  ∧ _is_picked q' = _is_picked q
  ∧ _picked_items_momentos q' = _picked_items_momentos q
  ∧ dot_space_dim q' = dot_space_dim q.
Proof.
  induction ms as [|[i0 c0] ms IH]; intros q Hnd; cbn [foldl].
  { split_and!; [by intros ?? ?%elem_of_nil|done..]. }
  rewrite fmap_cons in Hnd. apply NoDup_cons in Hnd as [Hi0 Hnd].
  cbn [fst snd] in *.
  destruct (IH (set_item_config q i0 c0) Hnd)
    as (Hin & Hout & Hsp & Hgp & Hp & Hm & Hd).
  split_and!.
  - intros i c [[= -> ->]|Hic]%elem_of_cons; [|by apply Hin].
    rewrite (Hout i0 Hi0), config_of_set_item_config. by rewrite decide_True.
  - intros i [Hne Hi]%not_elem_of_cons.
    rewrite (Hout i Hi), config_of_set_item_config. by rewrite decide_False.
  - rewrite Hsp. by destruct i0.
  - rewrite Hgp. by destruct i0.
  - rewrite Hp. by destruct i0.
  - rewrite Hm. by destruct i0.
  - rewrite Hd. by destruct i0.
Qed.

Lemma captured_NoDup (q : t) (l : list item) :
  NoDup l → NoDup (omap (λ i, pair i <$> config_of q i) l).*1.
Proof.
  induction 1 as [|i l Hi Hnd IH]; [constructor|].
  change (NoDup (match pair i <$> config_of q i with
                 | Some y => y :: omap (λ i, pair i <$> config_of q i) l
                 | None => omap (λ i, pair i <$> config_of q i) l
                 end).*1).
  destruct (config_of q i) as [c|]; cbn [fmap option_fmap option_map]; [|exact IH].
  rewrite fmap_cons. constructor; [|exact IH]. cbn [fst].
  intros ([i' c'] & -> & Hin)%list_elem_of_fmap. cbn [fst] in Hi.
  apply list_elem_of_omap in Hin as (j & Hj & Hsome).
  destruct (config_of q j); cbn in Hsome; [|done].
  injection Hsome as -> _. done.
Qed.

(** X24: what [pick] remembers, [unpick] puts back.  If the configs of the
    items are captured and the board is then changed in any way that keeps
    the list captured, restoring gives every captured item of the board the
    config it had at the capture, as the setter stores it; items not
    captured keep the config they have, and what is picked stays picked. *)
Theorem restore_items_momentos_spec (q q2 : t) (items : gset item) :
  let captured := _picked_items_momentos (_capture_items_momentos q items) in
  let restored := _restore_items_momentos (with_momentos q2 captured) in
  (∀ i c, i ∈ items → config_of q i = Some c →
          config_of restored i = Some (DotsSet.normalized c))
  ∧ (∀ i, i ∉ items ∨ config_of q i = None →
          config_of restored i = config_of q2 i)
  ∧ shape_picked restored = shape_picked q2
  ∧ grid_picked restored = grid_picked q2
  ∧ _is_picked restored = _is_picked q2.
Proof.
  intros captured restored. unfold restored, _restore_items_momentos.
  cbn [_picked_items_momentos with_momentos].
  assert (NoDup captured.*1) as Hnd.
  { unfold captured, _capture_items_momentos.
    cbn [_picked_items_momentos with_momentos].
    apply captured_NoDup, NoDup_elements. }
  assert (∀ i c, (i, c) ∈ captured ↔ i ∈ items ∧ config_of q i = Some c) as Hcap.
  { intros i c. unfold captured, _capture_items_momentos.
    cbn [_picked_items_momentos with_momentos].
    rewrite list_elem_of_omap. split.
    - intros (j & Hj%elem_of_elements & Hsome).
      destruct (config_of q j) as [cj|] eqn:Hcj; cbn in Hsome; [|done].
      injection Hsome as -> ->. done.
    - intros [Hi Hc]. exists i. split; [by apply elem_of_elements|].
      by rewrite Hc. }
  destruct (restore_fold captured (with_momentos q2 captured) Hnd)
    as (Hin & Hout & Hsp & Hgp & Hp & _ & _).
  split_and!; [| |exact Hsp|exact Hgp|exact Hp].
  - intros i c Hi Hc. apply Hin, Hcap. by split.
  - intros i Hi. rewrite Hout; [by destruct i|].
    intros ([i' c] & -> & [Hin' Hc]%Hcap)%list_elem_of_fmap. cbn [fst] in Hi.
    destruct Hi as [?|Hnone]; [done|]. by rewrite Hnone in Hc.
Qed.

End momentos.

Section further_witnesses.
Import QuadrillionCSPAdapter.

Local Ltac by_running :=
  lazymatch goal with
  | |- ?P => apply (bool_decide_eq_true_1 P); vm_compute; reflexivity
  end.

Lemma returned_some_spec {A B} (o : outcome (option A * B)) :
  returned_some o = true → ∃ x st, o = Return (Some x, st).
Proof. destruct o as [[[x|] st]| |]; [eauto|done..]. Qed.

Lemma pair_eta_fst {A B} (p : A * B) (x : A) : p.1 = x → p = (x, p.2).
Proof. destruct p. by intros <-. Qed.

Lemma shown_bounding_box_witness :
  DotsSet.init L5_dots = Ok (DotsSet.shape obj_L5)
  ∧ min_of (ys L5_dots) = Some 0 ∧ min_of (xs L5_dots) = Some 0
  ∧ let o := DotsSet.set_config obj_L5 (mkConfig 1 3 (2, 5)) in
    min_of (ys (DotsSet._dots_set o)) = Some (location (DotsSet._config o)).1
    ∧ min_of (xs (DotsSet._dots_set o)) = Some (location (DotsSet._config o)).2
    ∧ max_of (ys (DotsSet._dots_set o))
      = Some ((location (DotsSet._config o)).1 + shown_height o - 1)
    ∧ max_of (xs (DotsSet._dots_set o))
      = Some ((location (DotsSet._config o)).2 + shown_width o - 1).
Proof.
  assert (DotsSet.init L5_dots = Ok (DotsSet.shape obj_L5)) as Hinit
    by (vm_compute; reflexivity).
  assert (min_of (ys L5_dots) = Some 0) as Hy by (vm_compute; reflexivity).
  assert (min_of (xs L5_dots) = Some 0) as Hx by (vm_compute; reflexivity).
  split; [exact Hinit|]. split; [exact Hy|]. split; [exact Hx|].
  exact (shown_bounding_box L5_dots obj_L5 (mkConfig 1 3 (2, 5)) Hinit Hy Hx).
Defined.

Lemma grid_open_and_closed_dots_witness :
  DotsGrid.init (all16 ∖ L5_dots) (all16 ∖ L5_dots) 4 4 = Ok grid_L5
  ∧ DotsGrid._get_closed_dots_at grid_L5 (mkConfig 1 1 (0, 4))
    ⊆ DotsGrid._get_all_dots_at grid_L5 (mkConfig 1 1 (0, 4))
  ∧ DotsGrid._get_open_dots_at grid_L5 (mkConfig 1 1 (0, 4))
    ∪ DotsGrid._get_closed_dots_at grid_L5 (mkConfig 1 1 (0, 4))
    = DotsGrid._get_all_dots_at grid_L5 (mkConfig 1 1 (0, 4)).
Proof.
  assert (DotsGrid.init (all16 ∖ L5_dots) (all16 ∖ L5_dots) 4 4 = Ok grid_L5)
    as Hinit by by_running.
  split; [exact Hinit|].
  destruct (proj2 (grid_open_and_closed_dots (all16 ∖ L5_dots) (all16 ∖ L5_dots)
                     4 4) grid_L5 (mkConfig 1 1 (0, 4)) Hinit eq_refl)
    as (Hsub & _ & Hall & _).
  split; [exact Hsub|exact Hall].
Defined.

Lemma call_never_partial_witness :
  ∃ sol st',
    CSPSolver.call 2 problem_L5 = Return (Some sol, st')
    ∧ size sol = size (variables problem_L5).
Proof.
  assert (returned_some (CSPSolver.call 2 problem_L5) = true) as Hrun
    by (vm_compute; reflexivity).
  destruct (returned_some_spec _ Hrun) as (sol & st' & Hcall).
  exists sol, st'. split; [exact Hcall|].
  exact (call_never_partial 2 problem_L5 sol st' Hcall).
Defined.

Lemma picked_board_refused_witness :
  Quadrillion._is_picked (quadrillion (init board_L5_picked)) = true
  ∧ (solve 10 (init board_L5_picked)).1
    = Raise (StateException "Cannot solve while items are picked.")
  ∧ (help 10 (init board_L5_picked)).1
    = Raise (StateException "Cannot solve while items are picked.")
  ∧ quadrillion (solve 10 (init board_L5_picked)).2
    = quadrillion (init board_L5_picked)
  ∧ quadrillion (help 10 (init board_L5_picked)).2
    = quadrillion (init board_L5_picked).
Proof.
  assert (Quadrillion._is_picked (quadrillion (init board_L5_picked)) = true)
    as Hp by reflexivity.
  split; [exact Hp|].
  exact (picked_board_refused (init board_L5_picked) 10 Hp).
Defined.

Lemma place_all_spec_witness :
  let solution : gmap DotsSet.t (gset Dot) := {[ shape_L5 := L5_dots ]} in
  let q' := (place_all board_L5 solution [shape_L5]).2 in
  place_all board_L5 solution [shape_L5] = (Ok (), q')
  ∧ (∀ s, s ∈ [shape_L5] →
          ∃ dots, solution !! s = Some dots ∧ Quadrillion.shape_dots q' s = dots)
  ∧ (∀ s, s ∉ [shape_L5] →
          Quadrillion.shapes q' !! s = Quadrillion.shapes board_L5 !! s)
  ∧ Quadrillion.grids q' = Quadrillion.grids board_L5
  ∧ Quadrillion.shape_picked q' = Quadrillion.shape_picked board_L5
  ∧ Quadrillion.grid_picked q' = Quadrillion.grid_picked board_L5
  ∧ Quadrillion._is_picked q' = Quadrillion._is_picked board_L5.
Proof.
  intros solution q'.
  assert ((place_all board_L5 solution [shape_L5]).1 = Ok ()) as Hok
    by (vm_compute; reflexivity).
  apply pair_eta_fst in Hok. split; [exact Hok|].
  exact (place_all_spec solution [shape_L5] board_L5 q' Hok).
Defined.

End further_witnesses.
End further.

